(** * Claude Code Monitor: terminal-output classification and running-state tracking

    A shallow embedding of the classification pipeline of the extension:

    - [OutputParser]      (src/monitor/outputParser.ts)
    - [ItemTypeResolver]  (src/monitor/itemTypeResolver.ts)
    - [TerminalListener]  (src/monitor/terminalListener.ts)
    - [RunningStateManager] (src/monitor/runningStateManager.ts)

    JavaScript strings are sequences of UTF-16 code units, the regular
    expressions of the parser are kept as syntax and run by a backtracking
    matcher, [Map]s whose iteration order is observable are insertion-ordered
    association lists, the others are [gmap]s, arrays handed out by reference
    live in a heap, and timers are entries of an explicit event-loop queue. *)

From Stdlib Require Import ZArith NArith Lia Ascii String.
From stdpp Require Import base option list gmap sets.

Local Open Scope string_scope.
Local Open Scope list_scope.
Local Open Scope Z_scope.

(* ===================================================================== *)
(** ** JavaScript strings *)
(* ===================================================================== *)

(** A JS string: its UTF-16 code units. *)
Definition str := list N.

Module Utf8.
(** Source literals are written in UTF-8; [decode] turns the bytes into
    UTF-16 code units (surrogate pairs above the BMP). *)

Definition bytes (s : string) : list N :=
  List.map N_of_ascii (list_ascii_of_string s).

Definition cont (b : N) : N := N.land b 63.

Definition surrogates (cp : N) : list N :=
  let v := (cp - 65536)%N in
  [(55296 + N.shiftr v 10)%N; (56320 + N.land v 1023)%N].

Fixpoint decode (bs : list N) : str :=
  match bs with
  | [] => []
  | b :: rest =>
      if (b <? 128)%N then b :: decode rest
      else if (b <? 224)%N then
        match rest with
        | b2 :: rest2 =>
            (N.shiftl (N.land b 31) 6 + cont b2)%N :: decode rest2
        | _ => [b]
        end
      else if (b <? 240)%N then
        match rest with
        | b2 :: b3 :: rest3 =>
            (N.shiftl (N.land b 15) 12 + N.shiftl (cont b2) 6 + cont b3)%N
              :: decode rest3
        | _ => [b]
        end
      else
        match rest with
        | b2 :: b3 :: b4 :: rest4 =>
            surrogates (N.shiftl (N.land b 7) 18 + N.shiftl (cont b2) 12
                        + N.shiftl (cont b3) 6 + cont b4)%N
              ++ decode rest4
        | _ => [b]
        end
  end.
End Utf8.

(** [js "..."] is the JS string written by the literal. *)
Definition js (s : string) : str := Utf8.decode (Utf8.bytes s).

(** Code units the sources name. *)
Definition BULLET : N := 9679.     (* U+25CF, the black circle *)
Definition CHECKED : N := 10003.   (* U+2713, the check mark *)
Definition UNCHECKED : N := 9744.  (* U+2610, the ballot box *)
Definition RESULT_MARK : N := 9151. (* U+23BF, the result corner *)
Definition LF : N := 10.

Definition str_eqb (a b : str) : bool := bool_decide (a = b).

(** [String.prototype.startsWith]. *)
Fixpoint startsWith (s p : str) : bool :=
  match p, s with
  | [], _ => true
  | _ :: _, [] => false
  | y :: p', x :: s' => (x =? y)%N && startsWith s' p'
  end.

(** [String.prototype.includes]: [p] occurs at some offset of [s]. *)
Fixpoint includes (s p : str) : bool :=
  startsWith s p ||
  match s with
  | [] => false
  | _ :: s' => includes s' p
  end.

(** [Array.prototype.includes] on an array of strings. *)
Definition arr_includes (l : list str) (x : str) : bool :=
  existsb (str_eqb x) l.

(** WhiteSpace and LineTerminator of ECMAScript: what [trim] removes and
    what [\s] matches. *)
Definition isSpace (c : N) : bool :=
  ((9 <=? c) && (c <=? 13) || (c =? 32) || (c =? 160) || (c =? 5760)
   || (8192 <=? c) && (c <=? 8202) || (c =? 8232) || (c =? 8233)
   || (c =? 8239) || (c =? 8287) || (c =? 12288) || (c =? 65279))%N.

Fixpoint trimStart (s : str) : str :=
  match s with
  | [] => []
  | c :: s' => if isSpace c then trimStart s' else s
  end.

Definition trimEnd (s : str) : str := rev (trimStart (rev s)).

(** [String.prototype.trim]. *)
Definition trim (s : str) : str := trimEnd (trimStart s).

(** [String.prototype.split] on a one-unit separator. *)
Fixpoint split (sep : N) (s : str) : list str :=
  match s with
  | [] => [[]]
  | c :: s' =>
      if (c =? sep)%N then [] :: split sep s'
      else match split sep s' with
           | [] => [[c]]
           | l :: ls => (c :: l) :: ls
           end
  end.

(** [String.prototype.substring(0, n)]. *)
Definition substring0 (n : nat) (s : str) : str := take n s.

(** [String.prototype.toLowerCase] on the ASCII range. *)
Definition lowerUnit (c : N) : N :=
  if ((65 <=? c) && (c <=? 90))%N then (c + 32)%N else c.

(* ===================================================================== *)
(** ** Regular expressions *)
(* ===================================================================== *)

Module Regex.

(** Members of a bracket class. *)
Inductive citem :=
| CChr (c : N)
| CRange (lo hi : N)
| CDigit            (* \d *)
| CWord             (* \w *)
| CSpace.           (* \s *)

Definition isDigit (c : N) : bool := ((48 <=? c) && (c <=? 57))%N.
Definition isUpper (c : N) : bool := ((65 <=? c) && (c <=? 90))%N.
Definition isLower (c : N) : bool := ((97 <=? c) && (c <=? 122))%N.
Definition isWord (c : N) : bool :=
  isDigit c || isUpper c || isLower c || (c =? 95)%N.
(** What [.] refuses without the [s] flag. *)
Definition isLineTerminator (c : N) : bool :=
  ((c =? 10) || (c =? 13) || (c =? 8232) || (c =? 8233))%N.

Definition citem_mem (i : citem) (c : N) : bool :=
  match i with
  | CChr x => (c =? x)%N
  | CRange lo hi => ((lo <=? c) && (c <=? hi))%N
  | CDigit => isDigit c
  | CWord => isWord c
  | CSpace => isSpace c
  end.

Inductive regex :=
| RChar (c : N)                         (* a literal unit *)
| RCharI (c : N)                        (* a literal under the [i] flag *)
| RDot                                  (* [.] *)
| RSet (neg : bool) (items : list citem) (* [[...]] and [[^...]] *)
| REmpty
| RSeq (r1 r2 : regex)
| RAlt (r1 r2 : regex)
| RStar (r : regex)                     (* greedy [*] *)
| RGroup (n : nat) (r : regex)          (* capturing group number [n] *)
| RBos                                  (* [^], no [m] flag *)
| REos.                                 (* [$], no [m] flag *)

(** Greedy [+] and [?]. *)
Definition RPlus (r : regex) : regex := RSeq r (RStar r).
Definition ROpt (r : regex) : regex := RAlt r REmpty.

Definition seq (rs : list regex) : regex := foldr RSeq REmpty rs.
Definition lit (s : str) : regex := seq (List.map RChar s).
Definition litI (s : str) : regex := seq (List.map RCharI s).
Definition cls (items : list citem) : regex := RSet false items.
Definition ncls (items : list citem) : regex := RSet true items.
Definition d : regex := cls [CDigit].
Definition w : regex := cls [CWord].
Definition s : regex := cls [CSpace].

(** Captures: group number and captured text, most recent first. *)
Definition caps := list (nat * str).

Fixpoint cap (n : nat) (c : caps) : option str :=
  match c with
  | [] => None
  | (k, v) :: c' => if Nat.eqb k n then Some v else cap n c'
  end.

Definition unit_matches (r : regex) (x : N) : bool :=
  match r with
  | RChar c => (x =? c)%N
  | RCharI c => (lowerUnit x =? lowerUnit c)%N && (isUpper x || isLower x)
                || (x =? c)%N
  | RDot => negb (isLineTerminator x)
  | RSet neg items => xorb neg (existsb (fun i => citem_mem i x) items)
  | _ => false
  end.

(** The greedy loop of a star: take one more round of [body] while it
    consumes something, and hand over to [k] when no round succeeds. *)
Definition star (body : str -> caps -> (str -> caps -> option (str * caps))
                       -> option (str * caps))
    (k : str -> caps -> option (str * caps))
    : nat -> str -> caps -> option (str * caps) :=
  fix loop (fuel : nat) (t : str) (c : caps) {struct fuel} :=
    match fuel with
    | O => k t c
    | S fuel' =>
        match body t c
                (fun t' c' =>
                   if Nat.ltb (length t') (length t)
                   then loop fuel' t' c' else None) with
        | Some res => Some res
        | None => k t c
        end
    end.

(** The backtracking matcher, in continuation-passing style: [run r n0 t c k]
    matches [r] at the front of [t] (a suffix of an input of length [n0])
    and hands the rest and the captures to [k]; alternatives are tried
    left to right and a star takes as many rounds as it can before giving
    them back. A round of a star that consumes nothing is refused. *)
Fixpoint run (r : regex) (n0 : nat) (t : str) (c : caps)
    (k : str -> caps -> option (str * caps)) : option (str * caps) :=
  match r with
  | RChar _ | RCharI _ | RDot | RSet _ _ =>
      match t with
      | x :: t' => if unit_matches r x then k t' c else None
      | [] => None
      end
  | REmpty => k t c
  | RSeq r1 r2 => run r1 n0 t c (fun t' c' => run r2 n0 t' c' k)
  | RAlt r1 r2 =>
      match run r1 n0 t c k with
      | Some res => Some res
      | None => run r2 n0 t c k
      end
  | RStar r1 => star (run r1 n0) k (length t) t c
  | RGroup n r1 =>
      run r1 n0 t c
        (fun t' c' => k t' ((n, take (length t - length t') t) :: c'))
  | RBos => if Nat.eqb (length t) n0 then k t c else None
  | REos => match t with [] => k t c | _ => None end
  end.

Definition accept : str -> caps -> option (str * caps) :=
  fun t c => Some (t, c).

(** A match: where it starts, the matched text, the captures. *)
Record result := { index : nat; matched : str; groups : caps }.

Definition group (n : nat) (m : result) : option str := cap n (groups m).

Fixpoint exec_from (r : regex) (n0 : nat) (i : nat) (t : str) : option result :=
  match run r n0 t [] accept with
  | Some (t', c) =>
      Some {| index := i; matched := take (length t - length t') t; groups := c |}
  | None =>
      match t with
      | [] => None
      | _ :: t' => exec_from r n0 (S i) t'
      end
  end.

(** [RegExp.prototype.exec] / [String.prototype.match] without [g]. *)
Definition exec (r : regex) (t : str) : option result :=
  exec_from r (length t) 0 t.

(** [RegExp.prototype.test]. *)
Definition test (r : regex) (t : str) : bool :=
  match exec r t with Some _ => true | None => false end.

(** [String.prototype.replace(r, '')] with the [g] flag: every match,
    left to right and non-overlapping, is removed. [skip] counts the
    units of the current match still to drop. *)
Fixpoint remove_go (r : regex) (n0 : nat) (skip : nat) (t : str) : str :=
  match t with
  | [] => []
  | x :: t' =>
      match skip with
      | S k => remove_go r n0 k t'
      | O =>
          match run r n0 t [] accept with
          | Some (t1, _) =>
              match (length t - length t1)%nat with
              | O => x :: remove_go r n0 0 t'
              | S k => remove_go r n0 k t'
              end
          | None => x :: remove_go r n0 0 t'
          end
      end
  end.

Definition removeAll (r : regex) (t : str) : str := remove_go r (length t) 0 t.

End Regex.

(* ===================================================================== *)
(** ** Insertion-ordered maps *)
(* ===================================================================== *)

(** A JS [Map] whose iteration order is observed: the entries in insertion
    order, one per key. [set] on a present key keeps its position. *)
Module JsMap.
Section ops.
Context {V : Type}.

Definition t := list (str * V).

Fixpoint get (k : str) (m : t) : option V :=
  match m with
  | [] => None
  | (k', v) :: m' => if str_eqb k' k then Some v else get k m'
  end.

Definition has (k : str) (m : t) : bool :=
  match get k m with Some _ => true | None => false end.

Fixpoint set (k : str) (v : V) (m : t) : t :=
  match m with
  | [] => [(k, v)]
  | (k', v') :: m' =>
      if str_eqb k' k then (k', v) :: m' else (k', v') :: set k v m'
  end.

Fixpoint delete (k : str) (m : t) : t :=
  match m with
  | [] => []
  | (k', v') :: m' =>
      if str_eqb k' k then m' else (k', v') :: delete k m'
  end.

Definition entries (m : t) : list (str * V) := m.
Definition values (m : t) : list V := List.map snd m.
Definition size (m : t) : nat := length m.
Definition clear (m : t) : t := [].
End ops.
Arguments t : clear implicits.
End JsMap.

(* ===================================================================== *)
(** ** Events  (src/types/index.ts) *)
(* ===================================================================== *)

Inductive TerminalEventType :=
| tool_call | skill_call | agent_call | plugin_call | mcp_call
| user_message | plan_progress | other.

#[export] Instance TerminalEventType_eq_dec : EqDecision TerminalEventType.
Proof. solve_decision. Defined.

(** The type as the string the template literals print. *)
Definition typeName (t : TerminalEventType) : str :=
  match t with
  | tool_call => js "tool_call"
  | skill_call => js "skill_call"
  | agent_call => js "agent_call"
  | plugin_call => js "plugin_call"
  | mcp_call => js "mcp_call"
  | user_message => js "user_message"
  | plan_progress => js "plan_progress"
  | other => js "other"
  end.

(** The values a [details] record holds. *)
Inductive JsVal :=
| VStr (v : str)
| VBool (b : bool).

#[export] Instance JsVal_eq_dec : EqDecision JsVal.
Proof. solve_decision. Defined.

(** [details]: property name to value, in the order of the object literal. *)
Definition Details := list (string * JsVal).

Fixpoint prop (k : string) (o : Details) : option JsVal :=
  match o with
  | [] => None
  | (k', v) :: o' => if String.eqb k' k then Some v else prop k o'
  end.

(** [event.details?.k] where the code needs a truthy string. *)
Definition truthyStr (k : string) (o : Details) : option str :=
  match prop k o with
  | Some (VStr (c :: v)) => Some (c :: v)
  | _ => None
  end.

Record TerminalEvent := {
  type : TerminalEventType;
  timestamp : Z;
  content : str;
  details : Details
}.

#[export] Instance TerminalEvent_eq_dec : EqDecision TerminalEvent.
Proof. solve_decision. Defined.

Inductive ItemKind := agent | skill | plugin | mcp.

#[export] Instance ItemKind_eq_dec : EqDecision ItemKind.
Proof. solve_decision. Defined.

Definition kindName (k : ItemKind) : str :=
  match k with
  | agent => js "agent"
  | skill => js "skill"
  | plugin => js "plugin"
  | mcp => js "mcp"
  end.

Definition kindProp (k : ItemKind) : string :=
  match k with
  | agent => "agent"
  | skill => "skill"
  | plugin => "plugin"
  | mcp => "mcp"
  end.

Definition callType (k : ItemKind) : TerminalEventType :=
  match k with
  | agent => agent_call
  | skill => skill_call
  | plugin => plugin_call
  | mcp => mcp_call
  end.

(* ===================================================================== *)
(** ** ItemTypeResolver  (src/monitor/itemTypeResolver.ts) *)
(* ===================================================================== *)

(** What the collaborators return, with the fields the resolver reads. *)
Inductive Meta := MUndefined | MNull | MStr (v : str).

Record McpInfo := { mcp_name : str }.
Record PluginInfo := { plugin_name : str; plugin_version : str; plugin_scope : str }.
Record SkillInfo := { skill_name : str; skill_category : Meta }.
Record AgentInfo := {
  agent_name : str; agent_model : Meta; agent_color : Meta;
  agent_category : Meta; agent_description : str
}.

Inductive EntrySource := file | builtin | dynamic.

Record ItemCacheEntry := {
  entry_id : str;
  entry_name : str;
  entry_type : ItemKind;
  entry_source : EntrySource;
  entry_metadata : list (string * Meta)
}.

Record ItemTypeResolver := {
  cache : JsMap.t ItemCacheEntry;
  lastCacheUpdate : Z
}.

Definition CACHE_TTL : Z := 30000.

(** How an awaited call ends: with a value, or with a rejection that the
    [await] rethrows. *)
Inductive Outcome (A : Type) :=
| Returned (a : A)
| Thrown (e : str).
Arguments Returned {A} a.
Arguments Thrown {A} e.

(** The four callbacks given to the constructor, as what each yields when
    the refresh awaits it; the MCP callback is optional. *)
Record Callbacks := {
  getPluginsCallback : Outcome (list PluginInfo);
  getAgentsCallback : Outcome (list AgentInfo);
  getSkillsCallback : Outcome (list SkillInfo);
  getMcpsCallback : option (Outcome (list McpInfo))
}.

(** Resolver methods: state passing with exceptions. The state written
    before a throw stays written. *)
Module Async.
Definition M (A : Type) : Type := ItemTypeResolver -> Outcome A * ItemTypeResolver.

Definition ret {A} (a : A) : M A := fun r => (Returned a, r).

Definition bind {A B} (m : M A) (f : A -> M B) : M B :=
  fun r =>
    match m r with
    | (Returned a, r') => f a r'
    | (Thrown e, r') => (Thrown e, r')
    end.

Definition await {A} (o : Outcome A) : M A := fun r => (o, r).

(** [try { m } catch (error) { h error }]. *)
Definition try_catch {A} (m : M A) (h : str -> M A) : M A :=
  fun r =>
    match m r with
    | (Returned a, r') => (Returned a, r')
    | (Thrown e, r') => h e r'
    end.

Definition gets {A} (f : ItemTypeResolver -> A) : M A := fun r => (Returned (f r), r).
Definition modify (f : ItemTypeResolver -> ItemTypeResolver) : M unit :=
  fun r => (Returned tt, f r).

Fixpoint forOf {A} (l : list A) (body : A -> M unit) : M unit :=
  match l with
  | [] => ret tt
  | x :: l' => bind (body x) (fun _ => forOf l' body)
  end.
End Async.

Notation "'do' x <- m 'in' k" := (Async.bind m (fun x => k))
  (at level 10, x name, m at level 100, k at level 200).
Notation "m >>> k" := (Async.bind m (fun _ => k))
  (at level 90, right associativity).

Definition cache_set (k : str) (e : ItemCacheEntry) : Async.M unit :=
  Async.modify (fun r => {| cache := JsMap.set k e (cache r);
                            lastCacheUpdate := lastCacheUpdate r |}).

Definition mcpEntry (src : EntrySource) (name : str) : ItemCacheEntry :=
  {| entry_id := js "mcp__" ++ name; entry_name := name; entry_type := mcp;
     entry_source := src; entry_metadata := [] |}.

Definition pluginEntry (p : PluginInfo) : ItemCacheEntry :=
  {| entry_id := js "plugin__" ++ plugin_name p; entry_name := plugin_name p;
     entry_type := plugin; entry_source := file;
     entry_metadata := [("version", MStr (plugin_version p));
                        ("scope", MStr (plugin_scope p))] |}.

Definition skillEntry (s : SkillInfo) : ItemCacheEntry :=
  {| entry_id := js "skill__" ++ skill_name s; entry_name := skill_name s;
     entry_type := skill; entry_source := file;
     entry_metadata := [("category", skill_category s)] |}.

Definition agentEntry (a : AgentInfo) : ItemCacheEntry :=
  {| entry_id := js "agent__" ++ agent_name a; entry_name := agent_name a;
     entry_type := agent; entry_source := file;
     entry_metadata := [("model", agent_model a); ("color", agent_color a);
                        ("category", agent_category a);
                        ("description", MStr (agent_description a))] |}.

(** The [catch] blocks only log. *)
Definition logged : str -> Async.M unit := fun _ => Async.ret tt.

Definition updateCacheIfNeeded (now : Z) (cb : Callbacks) : Async.M unit :=
  fun r =>
    if now - lastCacheUpdate r <? CACHE_TTL then Async.ret tt r
    else
      (Async.modify (fun r => {| cache := JsMap.clear (cache r);
                                 lastCacheUpdate := lastCacheUpdate r |}) >>>
       match getMcpsCallback cb with
       | Some call =>
           Async.try_catch
             (do mcps <- Async.await call in
              Async.forOf mcps (fun m =>
                cache_set (js "mcp__" ++ mcp_name m) (mcpEntry file (mcp_name m))))
             logged
       | None => Async.ret tt
       end >>>
       Async.try_catch
         (do plugins <- Async.await (getPluginsCallback cb) in
          Async.forOf plugins (fun p =>
            cache_set (js "plugin__" ++ plugin_name p) (pluginEntry p)))
         logged >>>
       Async.try_catch
         (do skills <- Async.await (getSkillsCallback cb) in
          Async.forOf skills (fun s =>
            cache_set (js "skill__" ++ skill_name s) (skillEntry s)))
         logged >>>
       Async.try_catch
         (do agents <- Async.await (getAgentsCallback cb) in
          Async.forOf agents (fun a =>
            cache_set (js "agent__" ++ agent_name a) (agentEntry a)))
         logged >>>
       Async.modify (fun r => {| cache := cache r; lastCacheUpdate := now |})) r.

(** [refreshCache]. *)
Definition refreshCache (now : Z) (cb : Callbacks) : Async.M unit :=
  Async.modify (fun r => {| cache := cache r; lastCacheUpdate := 0 |}) >>>
  updateCacheIfNeeded now cb.

Inductive Resolved := known (k : ItemKind) | unknown.

Definition hasType (k : ItemKind) (e : ItemCacheEntry) : bool :=
  bool_decide (entry_type e = k).

(** The part of [resolveType] after the cache update. *)
Definition resolveCached (name : str) (r : ItemTypeResolver) : Resolved :=
  if startsWith name (js "/") then known skill
  else if startsWith name (js "mcp-") then known mcp
  else
    let entries :=
      List.filter (fun e => str_eqb (entry_name e) name) (JsMap.values (cache r)) in
    match entries with
    | [] => unknown
    | [e] => known (entry_type e)
    | e :: _ =>
        if existsb (hasType mcp) entries then known mcp
        else if existsb (hasType plugin) entries then known plugin
        else if existsb (hasType skill) entries then known skill
        else if existsb (hasType agent) entries then known agent
        else known (entry_type e)
    end.

Definition resolveType (now : Z) (cb : Callbacks) (name : str) : Async.M Resolved :=
  updateCacheIfNeeded now cb >>>
  Async.gets (resolveCached name).

Definition getCachedNames (k : ItemKind) (r : ItemTypeResolver) : list str :=
  List.map entry_name (List.filter (hasType k) (JsMap.values (cache r))).

Definition getCachedMcps := getCachedNames mcp.
Definition getCachedPlugins := getCachedNames plugin.
Definition getCachedSkills := getCachedNames skill.
Definition getCachedAgents := getCachedNames agent.

Definition updateDynamicMcps (mcps : list str) (r : ItemTypeResolver) : ItemTypeResolver :=
  fold_left (fun r m =>
               {| cache := JsMap.set (js "mcp__" ++ m) (mcpEntry dynamic m) (cache r);
                  lastCacheUpdate := lastCacheUpdate r |})
            mcps r.

(* ===================================================================== *)
(** ** OutputParser  (src/monitor/outputParser.ts) *)
(* ===================================================================== *)

Section patterns.
Import Regex.

Let az := CRange 97 122.
Let AZ := CRange 65 90.
Let digits := CRange 48 57.
Let dash := CChr 45.
Let underscore := CChr 95.
(** the optional description, "(?:\(([^)]+)\))?" *)
Let description : regex :=
  ROpt (seq [lit (js "("); RGroup 2 (RPlus (ncls [CChr 41])); lit (js ")")]).

(** "/^\[([A-Z][a-zA-Z]*" ")\]\s+(.+)$/" *)
Definition TOOL_CALL_PATTERN : regex :=
  seq [RBos; lit (js "["); RGroup 1 (RSeq (cls [AZ]) (RStar (cls [az; AZ])));
       lit (js "]"); RPlus s; RGroup 2 (RPlus RDot); REos].

(** "/^\[skill\]\s+(\w+):\s*(.+)$/" *)
Definition SKILL_CALL_PATTERN : regex :=
  seq [RBos; lit (js "[skill]"); RPlus s; RGroup 1 (RPlus w); lit (js ":");
       RStar s; RGroup 2 (RPlus RDot); REos].

(** "/^\[agent\]\s+(\w+):\s*(.+)$/" *)
Definition AGENT_CALL_PATTERN : regex :=
  seq [RBos; lit (js "[agent]"); RPlus s; RGroup 1 (RPlus w); lit (js ":");
       RStar s; RGroup 2 (RPlus RDot); REos].

(** "/^●\s*\/\s*([\w-]+)(?:\(([^)]+)\))?$/" *)
Definition SKILL_FORMAT_PATTERN : regex :=
  seq [RBos; RChar BULLET; RStar s; lit (js "/"); RStar s;
       RGroup 1 (RPlus (cls [CWord; dash])); description; REos].

(** "/^●\s*([\w-]+)(?:\(([^)]+)\))?$/" *)
Definition AGENT_FORMAT_PATTERN : regex :=
  seq [RBos; RChar BULLET; RStar s;
       RGroup 1 (RPlus (cls [CWord; dash])); description; REos].

(** "/^●\s*mcp[-_:]([a-zA-Z0-9_-]+)(?:\(([^)]+)\))?$/" *)
Definition MCP_FORMAT_PATTERN : regex :=
  seq [RBos; RChar BULLET; RStar s; lit (js "mcp");
       cls [dash; underscore; CChr 58];
       RGroup 1 (RPlus (cls [az; AZ; digits; underscore; dash]));
       description; REos].

(** "/^(\w+)_result_\w+/" *)
Definition MCP_RESULT_PATTERN : regex :=
  seq [RBos; RGroup 1 (RPlus w); lit (js "_result_"); RPlus w].

(** "/^\s*[✓☐]\s+(\d+\.\s*" ")?(.+)$/" *)
Definition PLAN_STEP_PATTERN : regex :=
  seq [RBos; RStar s; cls [CChr CHECKED; CChr UNCHECKED]; RPlus s;
       ROpt (RGroup 1 (seq [RPlus d; lit (js "."); RStar s]));
       RGroup 2 (RPlus RDot); REos].

(** "/^>\s*(.+)$/" *)
Definition USER_MESSAGE_PATTERN : regex :=
  seq [RBos; lit (js ">"); RStar s; RGroup 1 (RPlus RDot); REos].

(** The escape-sequence cleaner of [parse]:
    "/\[\d+m|\[\d+[;]?\d*[m;]*|[\x1b\x0f]\[[0-9;]*[a-zA-Z]/g" *)
Definition ANSI_PATTERN : regex :=
  RAlt (seq [lit (js "["); RPlus d; lit (js "m")])
    (RAlt (seq [lit (js "["); RPlus d; ROpt (cls [CChr 59]); RStar d;
                RStar (cls [CChr 109; CChr 59])])
          (seq [cls [CChr 27; CChr 15]; lit (js "["); RStar (cls [digits; CChr 59]);
                cls [az; AZ]])).
End patterns.

Record OutputParser := {
  itemTypeResolver : option ItemTypeResolver;
  (** a [Set]: insertion order, no repetition *)
  discoveredMcps : list str
}.

Definition set_add (x : str) (l : list str) : list str :=
  if arr_includes l x then l else l ++ [x].

(** [m[n] || dflt]: a missing or empty capture gives the default. *)
Definition groupOr (n : nat) (m : Regex.result) (dflt : str) : str :=
  match Regex.group n m with
  | Some (c :: v) => c :: v
  | _ => dflt
  end.

(** [m[n]] of a group that took part in the match. *)
Definition groupOf (n : nat) (m : Regex.result) : str :=
  default [] (Regex.group n m).

(** The kind a generic bulleted name takes from the cache:
    MCP, then plugin, then skill, then agent; agent when nothing is known. *)
Definition cachedKind (resolver : option ItemTypeResolver) (itemName : str) : ItemKind :=
  match resolver with
  | Some r =>
      if arr_includes (getCachedMcps r) itemName then mcp
      else if arr_includes (getCachedPlugins r) itemName then plugin
      else if arr_includes (getCachedSkills r) itemName then skill
      else if arr_includes (getCachedAgents r) itemName then agent
      else agent
  | None => agent
  end.

Definition toLowerCase (v : str) : str := List.map lowerUnit v.

(** [parseLine]: the event of one line, and the parser afterwards. [now]
    is the reading of [new Date()]. *)
Definition parseLine (now : Z) (line : str) (p : OutputParser)
    : option TerminalEvent * OutputParser :=
  match line with
  | [] => (None, p)
  | _ =>
  let trimmedLine := trim line in
  match Regex.exec SKILL_FORMAT_PATTERN trimmedLine with
  | Some skillFormatMatch =>
      let skillName := groupOf 1 skillFormatMatch in
      let description := groupOr 2 skillFormatMatch skillName in
      (Some {| type := skill_call; timestamp := now; content := description;
               details := [("skill", VStr skillName); ("name", VStr skillName);
                           ("raw", VStr line)] |}, p)
  | None =>
  match Regex.exec MCP_FORMAT_PATTERN trimmedLine with
  | Some mcpMatch =>
      let serverName := groupOf 1 mcpMatch in
      let description := groupOr 2 mcpMatch (js "MCP: " ++ serverName) in
      (Some {| type := mcp_call; timestamp := now; content := description;
               details := [("mcp", VStr serverName); ("name", VStr serverName);
                           ("raw", VStr line)] |},
       {| itemTypeResolver := updateDynamicMcps [serverName] <$> itemTypeResolver p;
          discoveredMcps := discoveredMcps p |})
  | None =>
  match Regex.exec AGENT_FORMAT_PATTERN trimmedLine with
  | Some agentFormatMatch =>
      let itemName := groupOf 1 agentFormatMatch in
      let description := groupOr 2 agentFormatMatch itemName in
      let kind := cachedKind (itemTypeResolver p) itemName in
      (Some {| type := callType kind; timestamp := now; content := description;
               details := [(kindProp kind, VStr itemName); ("name", VStr itemName);
                           ("raw", VStr line)] |}, p)
  | None =>
  match Regex.exec SKILL_CALL_PATTERN trimmedLine with
  | Some skillMatch =>
      (Some {| type := skill_call; timestamp := now;
               content := groupOf 2 skillMatch;
               details := [("skill", VStr (groupOf 1 skillMatch));
                           ("raw", VStr line)] |}, p)
  | None =>
  match Regex.exec AGENT_CALL_PATTERN trimmedLine with
  | Some agentMatch =>
      (Some {| type := agent_call; timestamp := now;
               content := groupOf 2 agentMatch;
               details := [("agent", VStr (groupOf 1 agentMatch));
                           ("raw", VStr line)] |}, p)
  | None =>
  match Regex.exec TOOL_CALL_PATTERN trimmedLine with
  | Some toolMatch =>
      (Some {| type := tool_call; timestamp := now;
               content := groupOf 2 toolMatch;
               details := [("tool", VStr (groupOf 1 toolMatch));
                           ("raw", VStr line)] |}, p)
  | None =>
  match Regex.exec PLAN_STEP_PATTERN trimmedLine with
  | Some planMatch =>
      (Some {| type := plan_progress; timestamp := now;
               content := groupOf 2 planMatch;
               details := [("completed", VBool (includes trimmedLine [CHECKED]));
                           ("raw", VStr line)] |}, p)
  | None =>
  match Regex.exec MCP_RESULT_PATTERN trimmedLine with
  | Some mcpResultMatch =>
      let serverName := groupOf 1 mcpResultMatch in
      if Nat.ltb 3 (length serverName)
         && negb (arr_includes [js "error"; js "output"; js "result"]
                               (toLowerCase serverName))
      then (None, {| itemTypeResolver := itemTypeResolver p;
                     discoveredMcps := set_add serverName (discoveredMcps p) |})
      else (None, p)
  | None => (None, p)
  end end end end end end end end
  end.

(** The loop of [parse] over the lines. *)
Fixpoint parseLines (now : Z) (lines : list str) (p : OutputParser)
    : list TerminalEvent * OutputParser :=
  match lines with
  | [] => ([], p)
  | line :: rest =>
      let '(event, p1) := parseLine now (trim line) p in
      let '(events, p2) := parseLines now rest p1 in
      (match event with Some e => e :: events | None => events end, p2)
  end.

(** [parse]. *)
Definition parse (now : Z) (output : str) (p : OutputParser)
    : list TerminalEvent * OutputParser :=
  let cleanOutput := Regex.removeAll ANSI_PATTERN output in
  parseLines now (split LF cleanOutput) p.

Definition getDiscoveredMcps (p : OutputParser) : list str := discoveredMcps p.

(* ===================================================================== *)
(** ** TerminalListener  (src/monitor/terminalListener.ts) *)
(* ===================================================================== *)

Definition DUPLICATE_WINDOW : Z := 3000.
Definition AGENT_TIMEOUT : Z := 10000.

(** A call of the [onRunningState] callback, with the time it is made. *)
Inductive RunState := start | stop.

#[export] Instance RunState_eq_dec : EqDecision RunState.
Proof. solve_decision. Defined.

Record StateCall := {
  call_time : Z;
  call_id : str;
  call_name : str;
  call_type : ItemKind;
  call_state : RunState
}.

#[export] Instance StateCall_eq_dec : EqDecision StateCall.
Proof. solve_decision. Defined.

(** A pending [setTimeout] of the listener: its handle, when it is due, and
    the id and kind its callback closes over. *)
Record Timer := {
  handle : nat;
  due : Z;
  timer_id : str;
  timer_type : ItemKind
}.

(** The queue of the event loop, by due time, first armed first. *)
Fixpoint enqueue (tm : Timer) (q : list Timer) : list Timer :=
  match q with
  | [] => [tm]
  | x :: q' => if due tm <? due x then tm :: q else x :: enqueue tm q'
  end.

Definition dequeue (h : nat) (q : list Timer) : list Timer :=
  List.filter (fun tm => negb (Nat.eqb (handle tm) h)) q.

(** Arrays are objects: the heap maps a reference to the elements. *)
Abbreviation loc := nat.
Abbreviation Heap := (list (list TerminalEvent)).

Definition alloc (a : list TerminalEvent) (h : Heap) : loc * Heap :=
  (length h, h ++ [a]).

Definition deref (l : loc) (h : Heap) : list TerminalEvent :=
  default [] (h !! l).

(** The listener's fields, and around them the heap its arrays live in, the
    timers it has armed and the calls it has made to its two callbacks. *)
Record TerminalListener := {
  eventBuffer : loc;
  parser : OutputParser;
  recentEvents : gmap (list N) Z;
  activeIds : JsMap.t ItemKind;
  activeTimeouts : gmap (list N) nat;
  heap : Heap;
  timers : list Timer;
  nextHandle : nat;
  runningStateCalls : list StateCall;
  eventCalls : list (list TerminalEvent)
}.

Definition set_eventBuffer (v : loc) (heap' : Heap) (w : TerminalListener) :=
  {| eventBuffer := v; parser := parser w; recentEvents := recentEvents w;
     activeIds := activeIds w; activeTimeouts := activeTimeouts w;
     heap := heap'; timers := timers w; nextHandle := nextHandle w;
     runningStateCalls := runningStateCalls w; eventCalls := eventCalls w |}.

Definition set_heap (v : Heap) (w : TerminalListener) :=
  set_eventBuffer (eventBuffer w) v w.

Definition set_parser (v : OutputParser) (w : TerminalListener) :=
  {| eventBuffer := eventBuffer w; parser := v; recentEvents := recentEvents w;
     activeIds := activeIds w; activeTimeouts := activeTimeouts w;
     heap := heap w; timers := timers w; nextHandle := nextHandle w;
     runningStateCalls := runningStateCalls w; eventCalls := eventCalls w |}.

Definition set_recentEvents (v : gmap (list N) Z) (w : TerminalListener) :=
  {| eventBuffer := eventBuffer w; parser := parser w; recentEvents := v;
     activeIds := activeIds w; activeTimeouts := activeTimeouts w;
     heap := heap w; timers := timers w; nextHandle := nextHandle w;
     runningStateCalls := runningStateCalls w; eventCalls := eventCalls w |}.

Definition set_activeIds (v : JsMap.t ItemKind) (w : TerminalListener) :=
  {| eventBuffer := eventBuffer w; parser := parser w; recentEvents := recentEvents w;
     activeIds := v; activeTimeouts := activeTimeouts w;
     heap := heap w; timers := timers w; nextHandle := nextHandle w;
     runningStateCalls := runningStateCalls w; eventCalls := eventCalls w |}.

Definition set_activeTimeouts (v : gmap (list N) nat) (w : TerminalListener) :=
  {| eventBuffer := eventBuffer w; parser := parser w; recentEvents := recentEvents w;
     activeIds := activeIds w; activeTimeouts := v;
     heap := heap w; timers := timers w; nextHandle := nextHandle w;
     runningStateCalls := runningStateCalls w; eventCalls := eventCalls w |}.

Definition set_timers (v : list Timer) (n : nat) (w : TerminalListener) :=
  {| eventBuffer := eventBuffer w; parser := parser w; recentEvents := recentEvents w;
     activeIds := activeIds w; activeTimeouts := activeTimeouts w;
     heap := heap w; timers := v; nextHandle := n;
     runningStateCalls := runningStateCalls w; eventCalls := eventCalls w |}.

(** [this.onRunningState?.(id, name, type, state)] *)
Definition onRunningState (now : Z) (id name : str) (k : ItemKind) (st : RunState)
    (w : TerminalListener) :=
  {| eventBuffer := eventBuffer w; parser := parser w; recentEvents := recentEvents w;
     activeIds := activeIds w; activeTimeouts := activeTimeouts w;
     heap := heap w; timers := timers w; nextHandle := nextHandle w;
     runningStateCalls :=
       runningStateCalls w ++
       [{| call_time := now; call_id := id; call_name := name;
           call_type := k; call_state := st |}];
     eventCalls := eventCalls w |}.

(** [this.onEvent(events)] *)
Definition onEvent (events : list TerminalEvent) (w : TerminalListener) :=
  {| eventBuffer := eventBuffer w; parser := parser w; recentEvents := recentEvents w;
     activeIds := activeIds w; activeTimeouts := activeTimeouts w;
     heap := heap w; timers := timers w; nextHandle := nextHandle w;
     runningStateCalls := runningStateCalls w;
     eventCalls := eventCalls w ++ [events] |}.

(** [setTimeout(callback, delay)] at time [now]: the new handle and the
    listener with the timer queued. *)
Definition setTimeout (now delay : Z) (id : str) (k : ItemKind) (w : TerminalListener)
    : nat * TerminalListener :=
  let h := nextHandle w in
  (h, set_timers (enqueue {| handle := h; due := now + delay;
                             timer_id := id; timer_type := k |} (timers w))
                 (S h) w).

Definition clearTimeout (h : nat) (w : TerminalListener) : TerminalListener :=
  set_timers (dequeue h (timers w)) (nextHandle w) w.

(** The callback every start arms: report the stop, forget the id. *)
Definition timeoutCallback (now : Z) (tm : Timer) (w : TerminalListener) : TerminalListener :=
  let w := onRunningState now (timer_id tm) [] (timer_type tm) stop w in
  let w := set_activeIds (JsMap.delete (timer_id tm) (activeIds w)) w in
  set_activeTimeouts (delete (timer_id tm) (activeTimeouts w)) w.

(** The event loop reaches time [now]: every timer due by then fires, in
    queue order, each at its due time. *)
Definition advanceTo (now : Z) (w : TerminalListener) : TerminalListener :=
  let ready := List.filter (fun tm => due tm <=? now) (timers w) in
  let later := List.filter (fun tm => negb (due tm <=? now)) (timers w) in
  fold_left (fun w tm => timeoutCallback (due tm) tm w) ready
            (set_timers later (nextHandle w) w).

(** The key of a dedup record. *)
Definition eventKey (event : TerminalEvent) : str :=
  typeName (type event) ++ js ":" ++ substring0 100 (content event).

(** [deduplicateEvents], with [now] the reading of [Date.now()]. *)
Fixpoint deduplicateEvents (now : Z) (events : list TerminalEvent)
    (recent : gmap (list N) Z) : list TerminalEvent * gmap (list N) Z :=
  match events with
  | [] => ([], recent)
  | event :: rest =>
      match recent !! eventKey event with
      | Some lastSeen =>
          if now - lastSeen <? DUPLICATE_WINDOW
          then deduplicateEvents now rest recent
          else
            let '(unique, recent') :=
              deduplicateEvents now rest (<[eventKey event := now]> recent) in
            (event :: unique, recent')
      | None =>
          let '(unique, recent') :=
            deduplicateEvents now rest (<[eventKey event := now]> recent) in
          (event :: unique, recent')
      end
  end.

(** [cleanupDuplicateRecords]: collect the expired keys, then delete them. *)
Definition cleanupDuplicateRecords (now : Z) (recent : gmap (list N) Z) : gmap (list N) Z :=
  let expiredKeys :=
    List.map fst
      (List.filter (fun kv => DUPLICATE_WINDOW * 2 <? now - snd kv) (map_to_list recent)) in
  foldr delete recent expiredKeys.

Section endPatterns.
Import Regex.
(** "/Done\s*\(\d+\s*tool uses/", "/Finished/", "/Complete/i", "/⎿\s*Done/" *)
Definition endPatterns : list regex :=
  [ seq [lit (js "Done"); RStar s; lit (js "("); RPlus d; RStar s; lit (js "tool uses")];
    lit (js "Finished");
    litI (js "Complete");
    seq [RChar RESULT_MARK; RStar s; lit (js "Done")] ].
End endPatterns.

Definition isEndSignal (text : str) : bool :=
  existsb (fun pattern => Regex.test pattern text) endPatterns.

(** One of the four start blocks of the loop body. *)
Definition startItem (now : Z) (k : ItemKind) (event : TerminalEvent)
    (w : TerminalListener) : TerminalListener :=
  if bool_decide (type event = callType k) then
    match truthyStr (kindProp k) (details event) with
    | Some id =>
        let w := set_activeIds (JsMap.set id k (activeIds w)) w in
        let '(timeout, w) := setTimeout now AGENT_TIMEOUT id k w in
        let w := set_activeTimeouts (<[id := timeout]> (activeTimeouts w)) w in
        onRunningState now id (content event) k start w
    | None => w
    end
  else w.

(** The body of the loop that stops the active items. *)
Definition stopItem (now : Z) (w : TerminalListener) (entry : str * ItemKind)
    : TerminalListener :=
  let '(id, k) := entry in
  let w := match activeTimeouts w !! id with
           | Some timeout => clearTimeout timeout w
           | None => w
           end in
  let w := set_activeTimeouts (delete id (activeTimeouts w)) w in
  onRunningState now id [] k stop w.

Definition checkEnd (now : Z) (event : TerminalEvent) (w : TerminalListener)
    : TerminalListener :=
  match content event with
  | [] => w
  | _ =>
      if isEndSignal (content event) && Nat.ltb 0 (JsMap.size (activeIds w)) then
        let w := fold_left (stopItem now) (JsMap.entries (activeIds w)) w in
        set_activeIds (JsMap.clear (activeIds w)) w
      else w
  end.

(** [this.eventBuffer.push(event)]: the array is changed in place. *)
Definition pushEvent (event : TerminalEvent) (w : TerminalListener) : TerminalListener :=
  set_heap (<[eventBuffer w := deref (eventBuffer w) (heap w) ++ [event]]> (heap w)) w.

(** The four start blocks, in the order of the source. *)
Definition startItems (now : Z) (event : TerminalEvent) (w : TerminalListener)
    : TerminalListener :=
  let w := startItem now agent event w in
  let w := startItem now skill event w in
  let w := startItem now plugin event w in
  startItem now mcp event w.

(** The body of the loop over the unique events. *)
Definition processEvent (now : Z) (w : TerminalListener) (event : TerminalEvent)
    : TerminalListener :=
  let w := startItems now event w in
  let w := checkEnd now event w in
  pushEvent event w.

(** [a.slice(-n)]: the last [n] elements. *)
Definition sliceLast {A} (n : nat) (a : list A) : list A := drop (length a - n) a.

(** [this.eventBuffer = this.eventBuffer.slice(-500)] past 1000 elements:
    the field is bound to a new array. *)
Definition trimBuffer (w : TerminalListener) : TerminalListener :=
  let buf := deref (eventBuffer w) (heap w) in
  if Nat.ltb 1000 (length buf) then
    let '(l, h) := alloc (sliceLast 500 buf) (heap w) in
    set_eventBuffer l h w
  else w.

Definition quickPatterns : list str :=
  [js "[Bash]"; js "[Read]"; js "[Write]"; js "[Skill]"; js "[Agent]";
   js "[skill]"; js "[agent]"; js "[Plan]"; [BULLET]].

(** "/^>\s/" *)
Definition USER_INPUT_PATTERN : Regex.regex :=
  Regex.seq [Regex.RBos; Regex.lit (js ">"); Regex.s].

(** What [handleTerminalData] does with the events that survive the dedup. *)
Definition dispatch (now : Z) (uniqueEvents : list TerminalEvent) (w : TerminalListener)
    : TerminalListener :=
  let w := fold_left (processEvent now) uniqueEvents w in
  let w := if Nat.ltb 0 (length uniqueEvents) then onEvent uniqueEvents w else w in
  let w := trimBuffer w in
  set_recentEvents (cleanupDuplicateRecords now (recentEvents w)) w.

(** [handleTerminalData]: one chunk, processed to completion at time [now]. *)
Definition handleTerminalData (now : Z) (data : str) (w : TerminalListener)
    : TerminalListener :=
  let hasRelevantContent := existsb (fun p => includes data p) quickPatterns in
  if negb hasRelevantContent then w
  else
    let trimmed := trim data in
    if startsWith trimmed (js "> ") || Regex.test USER_INPUT_PATTERN trimmed then w
    else
      let '(events, parser') := parse now data (parser w) in
      let w := set_parser parser' w in
      if Nat.eqb (length events) 0 then w
      else
        let '(uniqueEvents, recent') := deduplicateEvents now events (recentEvents w) in
        dispatch now uniqueEvents (set_recentEvents recent' w).

(** [getEvents]: a new array with the elements of the buffer. *)
Definition getEvents (w : TerminalListener) : loc * TerminalListener :=
  let '(l, h) := alloc (deref (eventBuffer w) (heap w)) (heap w) in
  (l, set_heap h w).

(** [clearEvents]: the field is bound to a new, empty array. *)
Definition clearEvents (w : TerminalListener) : TerminalListener :=
  let '(l, h) := alloc [] (heap w) in
  set_eventBuffer l h w.

(** A write by a caller into an array it holds. *)
Definition writeArray (l : loc) (a : list TerminalEvent) (w : TerminalListener)
    : TerminalListener :=
  set_heap (<[l := a]> (heap w)) w.

(** The listener as its constructor leaves it, with or without a resolver
    given to [setItemTypeResolver]. *)
Definition newListener (resolver : option ItemTypeResolver) : TerminalListener :=
  {| eventBuffer := 0%nat;
     parser := {| itemTypeResolver := resolver; discoveredMcps := [] |};
     recentEvents := ∅; activeIds := []; activeTimeouts := ∅;
     heap := [[]]; timers := []; nextHandle := 1%nat;
     runningStateCalls := []; eventCalls := [] |}.


(* ===================================================================== *)
(** ** RunningStateManager  (src/monitor/runningStateManager.ts) *)
(* ===================================================================== *)

Inductive ItemSource := terminal | hook.

Record RunningItem := {
  item_id : str;
  item_name : str;
  item_type : ItemKind;
  startTime : Z;
  color : str;
  item_source : ItemSource
}.

(** The manager's one field, [runningItems]. *)
Definition RunningStateManager := JsMap.t RunningItem.

Definition getColor (k : ItemKind) : str :=
  match k with
  | agent => js "#10b981"
  | skill => js "#8b5cf6"
  | plugin => js "#007acc"
  | mcp => js "#f59e0b"
  end.

Definition startRunning (now : Z) (id name : str) (k : ItemKind) (src : ItemSource)
    (m : RunningStateManager) : RunningStateManager :=
  JsMap.set id {| item_id := id; item_name := name; item_type := k;
                  startTime := now; color := getColor k; item_source := src |} m.

Definition stopRunning (id : str) (m : RunningStateManager) : RunningStateManager :=
  if JsMap.has id m then JsMap.delete id m else m.

Definition isRunning (id : str) (m : RunningStateManager) : bool := JsMap.has id m.

Definition getRunningItems (m : RunningStateManager) : list RunningItem := JsMap.values m.

(** [checkEndSignal]: the four patterns of the listener. *)
Definition checkEndSignal (text : str) : bool := isEndSignal text.

(** A status message of the hook channel. *)
Inductive HookEvent := START | STOP.

Record HookStatus := {
  hook_event : HookEvent;
  agentId : str;
  agentName : str;
  hook_type : ItemKind;
  hook_timestamp : Z
}.

(** [handleHookStatus], at time [now]. *)
Definition handleHookStatus (now : Z) (status : HookStatus) (m : RunningStateManager)
    : RunningStateManager :=
  match hook_event status with
  | START => startRunning now (agentId status) (agentName status) (hook_type status) hook m
  | STOP => stopRunning (agentId status) m
  end.

(** [stopAll]. *)
Definition stopAll (m : RunningStateManager) : RunningStateManager := JsMap.clear m.

(** The running-state callback the extension gives the listener
    (src/extension.ts): a start goes to [startRunning], anything else to
    [stopRunning]. *)
Definition runningStateCallback (m : RunningStateManager) (c : StateCall)
    : RunningStateManager :=
  match call_state c with
  | start => startRunning (call_time c) (call_id c) (call_name c) (call_type c) terminal m
  | stop => stopRunning (call_id c) m
  end.

(** The manager after the calls the listener has made. *)
Definition tracked (w : TerminalListener) : RunningStateManager :=
  fold_left runningStateCallback (runningStateCalls w) [].

(* ===================================================================== *)
(** ** The remaining methods of the resolver, the parser and the listener *)
(* ===================================================================== *)

(** [ItemTypeResolver.getCachedItem]. *)
Definition getCachedItem (id : str) (r : ItemTypeResolver) : option ItemCacheEntry :=
  JsMap.get id (cache r).

(** [ItemTypeResolver.getCachedItemsByType]. *)
Definition getCachedItemsByType (k : ItemKind) (r : ItemTypeResolver)
    : list ItemCacheEntry :=
  List.filter (hasType k) (JsMap.values (cache r)).

(** [TerminalListener.setItemTypeResolver]: the parser is given the resolver. *)
Definition setItemTypeResolver (resolver : ItemTypeResolver) (w : TerminalListener)
    : TerminalListener :=
  set_parser {| itemTypeResolver := Some resolver;
                discoveredMcps := discoveredMcps (parser w) |} w.

(** [TerminalListener.getDiscoveredMcps]. *)
Definition listenerDiscoveredMcps (w : TerminalListener) : list str :=
  getDiscoveredMcps (parser w).

(** The first lines of the [onEvent] callback the extension gives the
    listener (src/extension.ts): the discovered servers are registered with
    the resolver when there are any. *)
Definition syncDiscovered (w : TerminalListener) (r : ItemTypeResolver) : ItemTypeResolver :=
  let dynamicMcps := listenerDiscoveredMcps w in
  if Nat.ltb 0 (length dynamicMcps) then updateDynamicMcps dynamicMcps r else r.

(* ===================================================================== *)
(** ** Plan progress  (OutputParser.parsePlanProgress, src/types/index.ts) *)
(* ===================================================================== *)

Record PlanStep := {
  step_description : str;
  step_completed : bool;
  step_inProgress : bool
}.

Record PlanProgress := {
  plan_current : nat;
  plan_total : nat;
  plan_steps : list PlanStep
}.

(** The loop over the lines: description and completed flag of each line
    the plan pattern matches. *)
Fixpoint planSteps (lines : list str) : list (str * bool) :=
  match lines with
  | [] => []
  | line :: rest =>
      match Regex.exec PLAN_STEP_PATTERN (trim line) with
      | Some m => (groupOf 2 m, includes line [CHECKED]) :: planSteps rest
      | None => planSteps rest
      end
  end.

(** [parsePlanProgress]: [None] is the [null] of the source. *)
Definition parsePlanProgress (output : str) : option PlanProgress :=
  let lines := split LF output in
  let steps := planSteps lines in
  if Nat.eqb (length steps) 0 then None
  else
    let current := length (List.filter snd steps) in
    let total := length steps in
    Some {| plan_current := current;
            plan_total := total;
            plan_steps :=
              imap (fun i s => {| step_description := fst s;
                                  step_completed := snd s;
                                  step_inProgress := Nat.eqb i current |}) steps |}.

(* ===================================================================== *)
(** ** HookStateReceiver.parseSystemMessage  (src/monitor/hookStateReceiver.ts) *)
(* ===================================================================== *)

Section hookPatterns.
Import Regex.
(** "/(\w+)\s+agent/" *)
Definition AGENT_MESSAGE_PATTERN : regex :=
  seq [RGroup 1 (RPlus w); RPlus s; lit (js "agent")].
(** "/(\w+)\s+skill/" *)
Definition SKILL_MESSAGE_PATTERN : regex :=
  seq [RGroup 1 (RPlus w); RPlus s; lit (js "skill")].
(** "/(\w+)\s+plugin/" *)
Definition PLUGIN_MESSAGE_PATTERN : regex :=
  seq [RGroup 1 (RPlus w); RPlus s; lit (js "plugin")].
End hookPatterns.

(** [parseSystemMessage], with [now] the reading of [Date.now()]; [None]
    is the [undefined] of the source. *)
Definition parseSystemMessage (now : Z) (event message : str) : option HookStatus :=
  let eventType := if str_eqb event (js "SubagentStart") then START else STOP in
  let agentMatch := Regex.exec AGENT_MESSAGE_PATTERN message in
  let skillMatch := Regex.exec SKILL_MESSAGE_PATTERN message in
  let pluginMatch := Regex.exec PLUGIN_MESSAGE_PATTERN message in
  match agentMatch with
  | Some agentMatch =>
      Some {| hook_event := eventType; agentId := groupOf 1 agentMatch;
              agentName := groupOf 1 agentMatch; hook_type := agent;
              hook_timestamp := now |}
  | None =>
  match skillMatch with
  | Some skillMatch =>
      Some {| hook_event := eventType; agentId := groupOf 1 skillMatch;
              agentName := groupOf 1 skillMatch; hook_type := skill;
              hook_timestamp := now |}
  | None =>
  match pluginMatch with
  | Some pluginMatch =>
      Some {| hook_event := eventType; agentId := groupOf 1 pluginMatch;
              agentName := groupOf 1 pluginMatch; hook_type := plugin;
              hook_timestamp := now |}
  | None => None
  end end end.

(* ===================================================================== *)
(** ** AgentColorReader: the cache  (src/monitor/agentColorReader.ts) *)
(* ===================================================================== *)

(** The two fields the methods write; a cached [None] is a cached [null]. *)
Record AgentColorReader := {
  colorCache : JsMap.t (option str);
  cacheValid : bool
}.

(** [v || null] for a string or [null]. *)
Definition orNull (v : option str) : option str :=
  match v with
  | Some (c :: s) => Some (c :: s)
  | _ => None
  end.

Section colorReader.
(** What [extractColorFromMarkdown] makes of the content of a file. *)
Variable extractColorFromMarkdown : str -> option str.

(** [getAgentColor]; [readFile] is what reading the markdown file of an
    agent yields at the time of the call. *)
Definition getAgentColor (readFile : str -> Outcome str) (agentName : str)
    (rd : AgentColorReader) : option str * AgentColorReader :=
  if cacheValid rd && JsMap.has agentName (colorCache rd) then
    (orNull (mjoin (JsMap.get agentName (colorCache rd))), rd)
  else
    match readFile agentName with
    | Returned content =>
        let color := extractColorFromMarkdown content in
        (color, {| colorCache := JsMap.set agentName color (colorCache rd);
                   cacheValid := cacheValid rd |})
    | Thrown _ =>
        (None, {| colorCache := JsMap.set agentName None (colorCache rd);
                  cacheValid := cacheValid rd |})
    end.

(** [getAgentColors]: the loop, from the map built so far. *)
Fixpoint getAgentColorsFrom (readFile : str -> Outcome str) (agentNames : list str)
    (colorMap : JsMap.t str) (rd : AgentColorReader) : JsMap.t str * AgentColorReader :=
  match agentNames with
  | [] => (colorMap, rd)
  | name :: rest =>
      let '(color, rd) := getAgentColor readFile name rd in
      match color with
      | Some (c :: s) =>
          getAgentColorsFrom readFile rest (JsMap.set name (c :: s) colorMap) rd
      | _ => getAgentColorsFrom readFile rest colorMap rd
      end
  end.

Definition getAgentColors (readFile : str -> Outcome str) (agentNames : list str)
    (rd : AgentColorReader) : JsMap.t str * AgentColorReader :=
  getAgentColorsFrom readFile agentNames [] rd.
End colorReader.

Definition clearCache (rd : AgentColorReader) : AgentColorReader :=
  {| colorCache := JsMap.clear (colorCache rd); cacheValid := false |}.

Definition markCacheValid (rd : AgentColorReader) : AgentColorReader :=
  {| colorCache := colorCache rd; cacheValid := true |}.

(** The reader as its constructor leaves it. *)
Definition newColorReader : AgentColorReader := {| colorCache := []; cacheValid := false |}.

(* ===================================================================== *)
(** * Vocabulary of the properties, and sample data *)
(* ===================================================================== *)

(** A listener in which [A] runs as an agent and [B] as a skill. *)
Definition busyListener : TerminalListener := Eval vm_compute in
  handleTerminalData 0 (js "● A
● /B
") (newListener None).

(** The stop reports made so far: when, and for which id. *)
Definition stops (w : TerminalListener) : list (Z * str) :=
  List.map (fun c => (call_time c, call_id c))
    (List.filter (fun c => bool_decide (call_state c = stop)) (runningStateCalls w)).

(** The stop report the end-signal loop makes for an entry of [activeIds]. *)
Definition stopCall (now : Z) (entry : str * ItemKind) : StateCall :=
  {| call_time := now; call_id := fst entry; call_name := [];
     call_type := snd entry; call_state := stop |}.

(** The fields no start, stop or push writes. *)
Definition sameRecords (w w' : TerminalListener) : Prop :=
  recentEvents w' = recentEvents w /\ parser w' = parser w
  /\ eventCalls w' = eventCalls w.

(** The buffer reference and every array on the heap. *)
Definition sameArrays (w w' : TerminalListener) : Prop :=
  eventBuffer w' = eventBuffer w /\ heap w' = heap w.

(** The buffer is an array of the heap. *)
Definition bufferOnHeap (w : TerminalListener) : Prop :=
  (eventBuffer w < length (heap w))%nat.

(** The elements of the buffer. *)
Definition history (w : TerminalListener) : list TerminalEvent :=
  deref (eventBuffer w) (heap w).

(** The event of the line "[Bash] ls -la". *)
Definition lsEvent (now : Z) : TerminalEvent :=
  {| type := tool_call; timestamp := now; content := js "ls -la";
     details := [("tool", VStr (js "Bash")); ("raw", VStr (js "[Bash] ls -la"))] |}.

(** One pass per event, each with the one event that survived its dedup. *)
Definition insertAll (inserts : list (Z * TerminalEvent)) (w : TerminalListener) :=
  fold_left (fun w ins => dispatch (fst ins) [snd ins] w) inserts w.

(** The [i]th of a series of events, inserted at time [i]. *)
Definition numbered (i : nat) : Z * TerminalEvent :=
  (Z.of_nat i,
   {| type := other; timestamp := Z.of_nat i; content := []; details := [] |}).

(** The cache after the loop that stores the entry of every item of a
    source under its key. *)
Definition addAll {A : Type} (key : A -> str) (entry : A -> ItemCacheEntry)
    (l : list A) (c : JsMap.t ItemCacheEntry) : JsMap.t ItemCacheEntry :=
  fold_left (fun c x => JsMap.set (key x) (entry x) c) l c.

(** The namespaced keys of the four loops. *)
Definition mcpKey (m : McpInfo) : str := js "mcp__" ++ mcp_name m.
Definition pluginKey (p : PluginInfo) : str := js "plugin__" ++ plugin_name p.
Definition skillKey (s : SkillInfo) : str := js "skill__" ++ skill_name s.
Definition agentKey (a : AgentInfo) : str := js "agent__" ++ agent_name a.

(** What an awaited source contributes: its list, or nothing when it threw. *)
Definition fetched {A} (o : Outcome (list A)) : list A :=
  match o with Returned l => l | Thrown _ => [] end.

(** The snapshot a refresh builds from the four sources. *)
Definition rebuilt (cb : Callbacks) : JsMap.t ItemCacheEntry :=
  addAll agentKey agentEntry (fetched (getAgentsCallback cb))
    (addAll skillKey skillEntry (fetched (getSkillsCallback cb))
       (addAll pluginKey pluginEntry (fetched (getPluginsCallback cb))
          (addAll mcpKey (mcpEntry file ∘ mcp_name)
             (match getMcpsCallback cb with Some o => fetched o | None => [] end)
             []))).

(** A name the cache holds under a kind: the entry at the namespaced key
    has that name and kind and comes from a source, and the name is in the
    list the parser reads for the kind. *)
Definition cachedFrom (k : ItemKind) (name : str) (r : ItemTypeResolver) : Prop :=
  (exists e, JsMap.get (kindName k ++ js "__" ++ name) (cache r) = Some e
             /\ entry_name e = name /\ entry_type e = k /\ entry_source e = file)
  /\ arr_includes (getCachedNames k r) name = true.

(** The resolver as its constructor leaves it. *)
Definition emptyResolver : ItemTypeResolver := {| cache := []; lastCacheUpdate := 0 |}.

(** Plugins and skills throw; the MCP server and the agent are cached. *)
Definition halfBroken : Callbacks :=
  {| getPluginsCallback := Thrown (js "ENOENT");
     getAgentsCallback :=
       Returned [{| agent_name := js "Explore"; agent_model := MUndefined;
                    agent_color := MNull; agent_category := MUndefined;
                    agent_description := js "explores" |}];
     getSkillsCallback := Thrown (js "EACCES");
     getMcpsCallback := Some (Returned [{| mcp_name := js "github" |}]) |}.

(** [name] is cached under kind [k]. *)
Definition isCachedUnder (r : ItemTypeResolver) (name : str) (k : ItemKind) : bool :=
  existsb (fun e => str_eqb (entry_name e) name && hasType k e)
          (JsMap.values (cache r)).

(** The tie-break order: MCP, plugin, skill, agent. *)
Definition rank (k : ItemKind) : nat :=
  match k with mcp => 0 | plugin => 1 | skill => 2 | agent => 3 end.

(** The first kind, in that order, the name is cached under. *)
Definition bestKind (r : ItemTypeResolver) (name : str) : option ItemKind :=
  List.find (isCachedUnder r name) [mcp; plugin; skill; agent].

(** The answer of [resolveType] for a kind found, or not found, in the cache. *)
Definition resolved (k : option ItemKind) : Resolved :=
  match k with Some k => known k | None => unknown end.

(** A registry that knows "Explore" as a plugin and as an agent, "lint" as
    a skill only. *)
Definition sampleResolver : ItemTypeResolver :=
  {| cache :=
       [(js "plugin__Explore",
         pluginEntry {| plugin_name := js "Explore"; plugin_version := js "1.0.0";
                        plugin_scope := js "user" |});
        (js "skill__lint",
         skillEntry {| skill_name := js "lint"; skill_category := MUndefined |});
        (js "agent__Explore",
         agentEntry {| agent_name := js "Explore"; agent_model := MUndefined;
                       agent_color := MNull; agent_category := MUndefined;
                       agent_description := js "explores" |})];
     lastCacheUpdate := 1700000000000 |}.

(** A parser that has been given that registry. *)
Definition sampleParser : OutputParser :=
  {| itemTypeResolver := Some sampleResolver; discoveredMcps := [] |}.

(** The patterns that consume exactly one unit. *)
Definition is_unit (r : Regex.regex) : Prop :=
  match r with
  | Regex.RChar _ | Regex.RCharI _ | Regex.RDot | Regex.RSet _ _ => True
  | _ => False
  end.

(** Where a greedy run over units of [r] has to stop. *)
Definition haltsAt (r : Regex.regex) (t : str) : Prop :=
  match t with
  | [] => True
  | x :: _ => Regex.unit_matches r x = false
  end.

(** The units of a slash or generic name: [[\w-]]. *)
Definition isNameUnit (x : N) : bool := Regex.isWord x || (x =? 45)%N.

(** The text of an optional parenthesized description. *)
Definition descText (desc : option str) : str :=
  match desc with
  | Some d => js "(" ++ d ++ js ")"
  | None => []
  end.

(** A description is not empty and has no closing parenthesis inside. *)
Definition goodDesc (desc : option str) : Prop :=
  match desc with
  | Some d => d <> [] /\ Forall (fun x => x <> 41%N) d
  | None => True
  end.

(** Bullet, blanks, "/", blanks, a name, an optional description. *)
Definition slashLine (ws1 ws2 name : str) (desc : option str) : str :=
  [BULLET] ++ ws1 ++ js "/" ++ ws2 ++ name ++ descText desc.

(** Bullet, blanks, a name, an optional description. *)
Definition genericLine (ws name : str) (desc : option str) : str :=
  [BULLET] ++ ws ++ name ++ descText desc.

(** The captures after the description: group 2 when there is one. *)
Definition descGroups (desc : option str) (c : Regex.caps) : Regex.caps :=
  match desc with
  | Some d => (2%nat, d) :: c
  | None => c
  end.

(** The chunk of the end-to-end example, its event and its start report. *)
Definition commitChunk : str := js "● /commit(Create a git commit)
".

Definition commitEvent (now : Z) : TerminalEvent :=
  {| type := skill_call; timestamp := now; content := js "Create a git commit";
     details := [("skill", VStr (js "commit")); ("name", VStr (js "commit"));
                 ("raw", VStr (js "● /commit(Create a git commit)"))] |}.

Definition commitStart (now : Z) : StateCall :=
  {| call_time := now; call_id := js "commit"; call_name := js "Create a git commit";
     call_type := skill; call_state := start |}.

(** What can be asked of a manager: the two methods, the hook channel, and
    the clean-up. *)
Inductive ManagerOp :=
| OpStart (now : Z) (id name : str) (k : ItemKind) (src : ItemSource)
| OpStop (id : str)
| OpHook (now : Z) (status : HookStatus)
| OpStopAll.

Definition applyOp (m : RunningStateManager) (op : ManagerOp) : RunningStateManager :=
  match op with
  | OpStart now id name k src => startRunning now id name k src m
  | OpStop id => stopRunning id m
  | OpHook now status => handleHookStatus now status m
  | OpStopAll => stopAll m
  end.

(** The manager after a series of requests, from the empty one. *)
Definition managerAfter (ops : list ManagerOp) : RunningStateManager :=
  fold_left applyOp ops [].

(** What the last request that concerns [id] says: running after a start,
    not running after a stop or a clean-up, [b] when there is none. *)
Definition lastSays (id : str) (b : bool) (op : ManagerOp) : bool :=
  match op with
  | OpStart _ id' _ _ _ => if str_eqb id' id then true else b
  | OpStop id' => if str_eqb id' id then false else b
  | OpHook _ status =>
      if str_eqb (agentId status) id
      then match hook_event status with START => true | STOP => false end
      else b
  | OpStopAll => false
  end.

(** The keys of a map, in order. *)
Definition keysOf {V} (m : JsMap.t V) : list str := List.map fst m.

(** What can be asked of a resolver: a lookup or a forced refresh, each at
    a time and with what the four sources yield at that time, and the
    registration of discovered MCP servers. *)
Inductive ResolverOp :=
| RLookup (now : Z) (cb : Callbacks) (name : str)
| RRefresh (now : Z) (cb : Callbacks)
| RDynamic (mcps : list str).

Definition resolverStep (r : ItemTypeResolver) (op : ResolverOp) : ItemTypeResolver :=
  match op with
  | RLookup now cb name => snd (resolveType now cb name r)
  | RRefresh now cb => snd (refreshCache now cb r)
  | RDynamic mcps => updateDynamicMcps mcps r
  end.

(** The resolver after a series of requests, from the one the constructor
    makes. *)
Definition resolverAfter (ops : list ResolverOp) : ItemTypeResolver :=
  fold_left resolverStep ops emptyResolver.

(** The key of a name under a kind. *)
Definition cacheKey (k : ItemKind) (name : str) : str := kindName k ++ js "__" ++ name.

(** The separators the MCP pattern takes after "mcp": [[-_:]]. *)
Definition isMcpSep (x : N) : bool := ((x =? 45) || (x =? 95) || (x =? 58))%N.

(** Bullet, blanks, "mcp", a separator, a server name, an optional
    description. *)
Definition mcpLine (ws : str) (sep : N) (server : str) (desc : option str) : str :=
  [BULLET] ++ ws ++ js "mcp" ++ [sep] ++ server ++ descText desc.

(** What happens to a listener: a chunk arrives, the event loop reaches a
    time and fires the timers due, the history is read or cleared, the
    registry the parser reads is set or changed. *)
Inductive ListenerOp :=
| LChunk (now : Z) (data : str)
| LTick (now : Z)
| LGet
| LClear
| LSetResolver (resolver : ItemTypeResolver).

Definition listenerStep (w : TerminalListener) (op : ListenerOp) : TerminalListener :=
  match op with
  | LChunk now data => handleTerminalData now data w
  | LTick now => advanceTo now w
  | LGet => snd (getEvents w)
  | LClear => clearEvents w
  | LSetResolver resolver => setItemTypeResolver resolver w
  end.

(** The listener after a series of such steps, from a new one. *)
Definition listenerAfter (resolver : option ItemTypeResolver) (ops : list ListenerOp)
    : TerminalListener :=
  fold_left listenerStep ops (newListener resolver).

(** The chunks of a series arrive at [T] at the latest. *)
Definition chunkBy (T : Z) (op : ListenerOp) : Prop :=
  match op with
  | LChunk now _ => now <= T
  | _ => True
  end.

(** A start of [id] as a [k] is among the reports [calls]. *)
Definition startedIn (id : str) (k : ItemKind) (calls : list StateCall) : Prop :=
  exists c, In c calls /\ call_state c = start /\ call_id c = id /\ call_type c = k.

(** The running items as the listener sees them: id and kind. *)
Definition idsAndKinds (m : RunningStateManager) : list (str * ItemKind) :=
  List.map (fun it => (item_id it, item_type it)) (getRunningItems m).

(** The key has a record younger than the window at [now]. *)
Definition fresh (now : Z) (recent : gmap (list N) Z) (k : str) : Prop :=
  exists t, recent !! k = Some t /\ now - t < DUPLICATE_WINDOW.

(** The records of [m1] are those of [m2] but for some that are out of
    the window at [now]. *)
Definition staleApart (now : Z) (m1 m2 : gmap (list N) Z) : Prop :=
  forall k : str, m1 !! k = m2 !! k
            \/ (m1 !! k = None /\ exists t, m2 !! k = Some t /\ DUPLICATE_WINDOW <= now - t).

(** The names the discovery refuses, and what it asks of a name. *)
Definition commonWords : list str := [js "error"; js "output"; js "result"].

Definition plausibleServer (name : str) : Prop :=
  (3 < length name)%nat /\ arr_includes commonWords (toLowerCase name) = false.

(** The captures name the item: group 1 took part and is not empty. *)
Definition named (c : Regex.caps) : Prop := exists x xs, Regex.cap 1 c = Some (x :: xs).

(** The pattern has no group 1 inside. *)
Fixpoint keeps1 (r : Regex.regex) : bool :=
  match r with
  | Regex.RGroup n r1 => negb (Nat.eqb n 1) && keeps1 r1
  | Regex.RSeq r1 r2 | Regex.RAlt r1 r2 => keeps1 r1 && keeps1 r2
  | Regex.RStar r1 => keeps1 r1
  | _ => true
  end.

(** The listener after the start block for an event of kind [k] that
    names [id]. *)
Definition started (now : Z) (id : str) (k : ItemKind) (event : TerminalEvent)
    (w : TerminalListener) : TerminalListener :=
  onRunningState now id (content event) k start
    (set_activeTimeouts (<[id := nextHandle w]> (activeTimeouts w))
       (set_timers (enqueue {| handle := nextHandle w; due := now + AGENT_TIMEOUT;
                               timer_id := id; timer_type := k |} (timers w))
                   (S (nextHandle w))
                   (set_activeIds (JsMap.set id k (activeIds w)) w))).

(** What the file of an agent says now: the colour extracted from it, or
    nothing when it cannot be read. *)
Definition colorOnDisk (extract : str -> option str) (readFile : str -> Outcome str)
    (agentName : str) : option str :=
  match readFile agentName with
  | Returned content => extract content
  | Thrown _ => None
  end.

(** The requests a colour reader serves without [markCacheValid]. *)
Inductive ColorOp :=
| COne (readFile : str -> Outcome str) (agentName : str)
| CMany (readFile : str -> Outcome str) (agentNames : list str)
| CClear.

Definition colorStep (extract : str -> option str) (rd : AgentColorReader) (op : ColorOp)
    : AgentColorReader :=
  match op with
  | COne readFile agentName => snd (getAgentColor extract readFile agentName rd)
  | CMany readFile agentNames => snd (getAgentColors extract readFile agentNames rd)
  | CClear => clearCache rd
  end.

(** The letters of a tool name: [[a-zA-Z]]. *)
Definition isLetter (x : N) : bool := Regex.isLower x || Regex.isUpper x.

(** What [(.+)] takes to the end of a trimmed line: a text that is not
    empty, has no line terminator, and neither starts nor ends with a
    blank. *)
Definition lineText (t : str) : Prop :=
  (exists x t', t = x :: t' /\ isSpace x = false)
  /\ Forall (fun y => Regex.isLineTerminator y = false) t
  /\ (forall t0 y, t = t0 ++ [y] -> isSpace y = false).

(** "[skill]" or "[agent]", blanks, a name, a colon, blanks, the action. *)
Definition callLine (k : ItemKind) (ws1 name ws2 action : str) : str :=
  js "[" ++ kindName k ++ js "]" ++ ws1 ++ name ++ js ":" ++ ws2 ++ action.

(** A bracketed tool name, blanks, the rest. *)
Definition toolLine (name ws rest : str) : str :=
  js "[" ++ name ++ js "]" ++ ws ++ rest.

(** A text the escape-sequence cleaner has nothing to remove from: no
    escape (27) or shift-in (15) unit, and no bracket before a digit. *)
Fixpoint plainText (t : str) : bool :=
  match t with
  | [] => true
  | x :: t' =>
      negb (x =? 27)%N && negb (x =? 15)%N
      && (negb (x =? 91)%N
          || match t' with y :: _ => negb (Regex.isDigit y) | [] => true end)
      && plainText t'
  end.

(** A server name, "_result_", a suffix, and what follows on the line. *)
Definition resultLine (name suffix rest : str) : str :=
  name ++ js "_result_" ++ suffix ++ rest.

(** What may follow the suffix of a result line: nothing, or a text that
    starts with a unit that is no word unit; and the line does not end
    with a blank. *)
Definition afterWord (rest : str) : Prop :=
  match rest with
  | [] => True
  | y :: _ => Regex.isWord y = false
  end
  /\ forall t0 y, rest = t0 ++ [y] -> isSpace y = false.

(** What holds of every entry of the manager's map. *)
Definition itemOk (e : str * RunningItem) : Prop :=
  item_id e.2 = e.1 /\ color e.2 = getColor (item_type e.2).

(** What holds of every entry of the cache: it is stored under its own id,
    which is its kind and its name. *)
Definition entryOk (e : str * ItemCacheEntry) : Prop :=
  entry_id e.2 = e.1 /\ e.1 = cacheKey (entry_type e.2) (entry_name e.2).

(** The entry was read from a source. *)
Definition fromFile (e : str * ItemCacheEntry) : Prop := entry_source e.2 = file.

(** The entries of the manager, each with its key and its kind. *)
Definition kinds (m : RunningStateManager) : list (str * ItemKind) :=
  List.map (fun e => (e.1, item_type e.2)) m.

(** Every stop among the reports comes after a start of the same id as
    the same kind. *)
Definition callsOk (calls : list StateCall) : Prop :=
  forall pre c post, calls = pre ++ c :: post -> call_state c = stop ->
    startedIn (call_id c) (call_type c) pre.

(** What the tracking fields keep: the active ids, the pending timers [Q]
    and the reports [C]. *)
Record Tracking (A : JsMap.t ItemKind) (Q : list Timer) (C : list StateCall) : Prop := {
  tr_nodup : NoDup (keysOf A);
  tr_timer : forall id k, JsMap.get id A = Some k ->
               exists tm, In tm Q /\ timer_id tm = id;
  tr_manager : kinds (fold_left runningStateCallback C []) = A;
  tr_calls : callsOk C;
  tr_timer_started : forall tm, In tm Q -> startedIn (timer_id tm) (timer_type tm) C;
  tr_active_started : forall id k, JsMap.get id A = Some k -> startedIn id k C
}.

(** The same, of the fields of a listener. *)
Definition tracking (w : TerminalListener) : Prop :=
  Tracking (activeIds w) (timers w) (runningStateCalls w).

(** A step arms timers for [now + AGENT_TIMEOUT] only. *)
Definition armsAt (now : Z) (w w' : TerminalListener) : Prop :=
  forall tm, In tm (timers w') -> In tm (timers w) \/ due tm = now + AGENT_TIMEOUT.

(** The buffer is on the heap, holds 1000 events at most, and is the end
    of what has been reported. *)
Definition historyOk (w : TerminalListener) : Prop :=
  bufferOnHeap w /\ (length (history w) <= 1000)%nat
  /\ history w `suffix_of` concat (eventCalls w).

(** The discovered servers are listed once each and are plausible. *)
Definition discoveredOk (p : OutputParser) : Prop :=
  NoDup (discoveredMcps p) /\ Forall plausibleServer (discoveredMcps p).

(** The event of the line "[Bash] pwd". *)
Definition pwdEvent (now : Z) : TerminalEvent :=
  {| type := tool_call; timestamp := now; content := js "pwd";
     details := [("tool", VStr (js "Bash")); ("raw", VStr (js "[Bash] pwd"))] |}.

(** A pass of the filter as [handleTerminalData] runs it: the batch is
    offered at [now], and the clean-up of that time ends the pass. *)
Definition filterPass (recent : gmap (list N) Z) (pass : Z * list TerminalEvent)
    : list TerminalEvent * gmap (list N) Z :=
  let '(uniqueEvents, recent') := deduplicateEvents (fst pass) (snd pass) recent in
  (uniqueEvents, cleanupDuplicateRecords (fst pass) recent').

(** What a series of passes lets through, pass by pass. *)
Fixpoint filterPasses (recent : gmap (list N) Z) (passes : list (Z * list TerminalEvent))
    : list (list TerminalEvent) :=
  match passes with
  | [] => []
  | pass :: rest =>
      let '(uniqueEvents, recent') := filterPass recent pass in
      uniqueEvents :: filterPasses recent' rest
  end.

(** Modelled from the spec: the filter in the words of the claim. An emission is remembered with
    its kind, the first 100 units of its content and its time; an event is
    suppressed when an event of the same kind and the same first 100 units
    was emitted less than 3000 ms before, and is emitted, and remembered,
    otherwise. A suppressed event is not remembered, and nothing is ever
    forgotten. *)
Definition Emission : Type := TerminalEventType * str * Z.

Definition emittedWithin (now : Z) (event : TerminalEvent) (log : list Emission) : bool :=
  existsb (fun em : Emission =>
             bool_decide (em.1.1 = type event)
             && bool_decide (em.1.2 = take 100 (content event))
             && (now - em.2 <? 3000))
          log.

Fixpoint claimedBatch (now : Z) (events : list TerminalEvent) (log : list Emission)
    : list TerminalEvent * list Emission :=
  match events with
  | [] => ([], log)
  | event :: rest =>
      if emittedWithin now event log then claimedBatch now rest log
      else
        let '(emitted, log') :=
          claimedBatch now rest ((type event, take 100 (content event), now) :: log) in
        (event :: emitted, log')
  end.

Fixpoint claimedPasses (log : list Emission) (passes : list (Z * list TerminalEvent))
    : list (list TerminalEvent) :=
  match passes with
  | [] => []
  | pass :: rest =>
      let '(emitted, log') := claimedBatch (fst pass) (snd pass) log in
      emitted :: claimedPasses log' rest
  end.

(** The passes come in the order of the clock, none before [t]. *)
Fixpoint inOrder (t : Z) (passes : list (Z * list TerminalEvent)) : Prop :=
  match passes with
  | [] => True
  | pass :: rest => t <= fst pass /\ inOrder (fst pass) rest
  end.

(** The records and the remembered emissions agree on every question that
    can be asked from [T] on. *)
Definition recordsAgree (T : Z) (recent : gmap (list N) Z) (log : list Emission) : Prop :=
  (forall em : Emission, In em log -> em.2 <= T)
  /\ forall (event : TerminalEvent) (now : Z), T <= now ->
       emittedWithin now event log = true <-> fresh now recent (eventKey event).

(* ===================================================================== *)
(** * Properties *)
(* ===================================================================== *)

(** ** Strings and the matcher on concrete text *)

Example glyphs :
  js "●" = [BULLET] /\ js "✓" = [CHECKED] /\ js "☐" = [UNCHECKED]
  /\ js "⎿" = [RESULT_MARK] /\ js "a
b" = [97; LF; 98]%N.
Proof. vm_compute. done. Qed.

(** [trim] and [split] as the parser uses them. *)
Example trim_split :
  List.map trim (split LF (js "  [Bash] ls  
● Explore
")) = [js "[Bash] ls"; js "● Explore"; []].
Proof. vm_compute. done. Qed.

(** The cleaner removes colour codes with or without their escape unit; its
    first alternative stops at the first "m". *)
Example ansi_cleaning :
  Regex.removeAll ANSI_PATTERN ([27%N] ++ js "[31m● Explore" ++ [27%N] ++ js "[0m")
  = js "● Explore"
  /\ Regex.removeAll ANSI_PATTERN (js "[1mm;x") = js "m;x"
  /\ Regex.removeAll ANSI_PATTERN (js "[12;34mtext [Bash] ls") = js "text [Bash] ls".
Proof. vm_compute. done. Qed.

(** The greedy name of the result pattern gives units back until "_result_"
    and a word unit follow. *)
Example result_pattern_backtracks :
  (Regex.group 1 <$> Regex.exec MCP_RESULT_PATTERN (js "a_result_b_result_c"))
  = Some (Some (js "a_result_b"))
  /\ (Regex.group 1 <$> Regex.exec MCP_RESULT_PATTERN (js "server_result_summary"))
     = Some (Some (js "server"))
  /\ Regex.exec MCP_RESULT_PATTERN (js "server_result_") = None.
Proof. vm_compute. done. Qed.

(** A step that is only a number: the optional numbering is given back so
    that the description is not empty. *)
Example plan_pattern_backtracks :
  (Regex.group 2 <$> Regex.exec PLAN_STEP_PATTERN (js "☐ 2.")) = Some (Some (js "2."))
  /\ (Regex.group 2 <$> Regex.exec PLAN_STEP_PATTERN (js "✓ 12. done"))
     = Some (Some (js "done"))
  /\ Regex.exec PLAN_STEP_PATTERN (js "☐") = None.
Proof. vm_compute. done. Qed.

Example end_patterns :
  List.map isEndSignal
    [js "Done (3 tool uses"; js "Done(12tool uses · 5s)"; js "Finished";
     js "incomplete"; js "COMPLETE"; js "⎿  Done"; js "finished"; js "Done";
     js "ls -la"]
  = [true; true; true; true; true; true; false; false; false].
Proof. vm_compute. done. Qed.

(** The bracketed forms, in the order the cascade tries them. *)
Example bracketed_lines (now : Z) (p : OutputParser) :
  List.map (fun line => type <$> fst (parseLine now line p))
    [js "[skill] commit: create"; js "[agent] Explore: search"; js "[Bash] ls";
     js "[bash] ls"; js "[Bash]"; js "> hello"; js "plain prose"]
  = [Some skill_call; Some agent_call; Some tool_call; None; None; None; None].
Proof. vm_compute. done. Qed.

(** ** Insertion-ordered maps *)

Section JsMap_facts.
Context {V : Type}.
Implicit Types (m : JsMap.t V) (k : str) (v : V).

Lemma str_eqb_eq (a b : str) : str_eqb a b = true <-> a = b.
Proof. unfold str_eqb. apply bool_decide_eq_true. Qed.

Lemma str_eqb_refl (a : str) : str_eqb a a = true.
Proof. by apply str_eqb_eq. Qed.

Lemma str_eqb_neq (a b : str) : a ≠ b -> str_eqb a b = false.
Proof. intros. unfold str_eqb. by apply bool_decide_eq_false. Qed.

Lemma JsMap_get_set_eq k v m : JsMap.get k (JsMap.set k v m) = Some v.
Proof.
  induction m as [|[k' v'] m IH]; simpl.
  - by rewrite str_eqb_refl.
  - destruct (str_eqb k' k) eqn:E; simpl; rewrite E; auto.
Qed.

Lemma JsMap_get_set_ne k k' v m :
  k ≠ k' -> JsMap.get k (JsMap.set k' v m) = JsMap.get k m.
Proof.
  intros Hne. induction m as [|[k1 v1] m IH]; simpl.
  - rewrite str_eqb_neq; auto.
  - destruct (str_eqb k1 k') eqn:E; simpl.
    + apply str_eqb_eq in E. subst k1. rewrite str_eqb_neq; auto.
    + destruct (str_eqb k1 k); auto.
Qed.

Lemma JsMap_get_values k v m : JsMap.get k m = Some v -> In v (JsMap.values m).
Proof.
  induction m as [|[k1 v1] m IH]; simpl; [discriminate|].
  destruct (str_eqb k1 k); [intros [= ->]; auto | auto].
Qed.
End JsMap_facts.

(** ** The two gates of [handleTerminalData] *)

Lemma quickPatterns_markers :
  quickPatterns =
  [js "[Bash]"; js "[Read]"; js "[Write]"; js "[Skill]"; js "[Agent]";
   js "[skill]"; js "[agent]"; js "[Plan]"; js "●"].
Proof. reflexivity. Qed.

Example busyListener_active :
  activeIds busyListener = [(js "A", agent); (js "B", skill)]
  /\ List.map timer_id (timers busyListener) = [js "A"; js "B"].
Proof. vm_compute. done. Qed.

(** C9. A chunk with none of the nine markers, or whose trimmed text starts
    with the user prompt "> ", leaves the listener exactly as it was: no
    callback is called, the history, the dedup records, the active ids, the
    timers and the parser with its discovered MCP names are the same. *)
Theorem unmarked_chunk_is_ignored (now : Z) (data : str) (w : TerminalListener) :
  Forall (fun marker => includes data marker = false)
    [js "[Bash]"; js "[Read]"; js "[Write]"; js "[Skill]"; js "[Agent]";
     js "[skill]"; js "[agent]"; js "[Plan]"; js "●"]
  \/ startsWith (trim data) (js "> ") = true ->
  handleTerminalData now data w = w.
Proof.
  intros [Hnone | Huser]; unfold handleTerminalData.
  - rewrite quickPatterns_markers.
    assert (existsb (fun p => includes data p)
              [js "[Bash]"; js "[Read]"; js "[Write]"; js "[Skill]"; js "[Agent]";
               js "[skill]"; js "[agent]"; js "[Plan]"; js "●"] = false) as ->.
    { apply not_true_is_false. intros Hex. apply existsb_exists in Hex.
      destruct Hex as (p & Hin & Hp). rewrite Forall_forall in Hnone.
      apply list_elem_of_In in Hin. specialize (Hnone p Hin). congruence. }
    reflexivity.
  - destruct (negb _); [reflexivity|]. rewrite Huser. reflexivity.
Qed.

(** The end-signal and discovery lines, in a chunk without a marker, and a
    user-input chunk that carries one, while [A] and [B] are active. *)
Lemma unmarked_chunk_is_ignored_witness :
  handleTerminalData 7000 (js "⎿ Done (3 tool uses)
server_result_summary") busyListener = busyListener
  /\ handleTerminalData 7000 (js "> run ● Explore") busyListener = busyListener.
Proof.
  split.
  - apply (unmarked_chunk_is_ignored 7000). left. repeat constructor.
  - apply (unmarked_chunk_is_ignored 7000). right. reflexivity.
Defined.

(** The same lines do reach the discovery scan once the parser sees them. *)
Example parser_would_discover :
  discoveredMcps (snd (parse 7000 (js "⎿ Done (3 tool uses)
server_result_summary") (parser busyListener))) = [js "server"].
Proof. vm_compute. done. Qed.

(** ** The history buffer and its heap *)

Lemma deref_snoc (a : list TerminalEvent) (h : Heap) :
  deref (length h) (h ++ [a]) = a.
Proof. unfold deref. by rewrite (list_lookup_middle h [] a (length h)). Qed.

Lemma deref_snoc_old (a : list TerminalEvent) (h : Heap) (l : loc) :
  (l < length h)%nat -> deref l (h ++ [a]) = deref l h.
Proof. intros. unfold deref. by rewrite lookup_app_l. Qed.

(** C10. [clearEvents] binds the buffer to a new empty array, so [getEvents]
    gives an empty snapshot; the parser with its discovered names, the dedup
    records, the active ids, the timeout handles, the armed timers and the
    arrays already on the heap are the same, and an event seen less than
    the window ago is still suppressed. *)
Theorem clearEvents_clears_only_history (w : TerminalListener) :
  let w' := clearEvents w in
  deref (eventBuffer w') (heap w') = []
  /\ deref (fst (getEvents w')) (heap (snd (getEvents w'))) = []
  /\ parser w' = parser w
  /\ recentEvents w' = recentEvents w
  /\ activeIds w' = activeIds w
  /\ activeTimeouts w' = activeTimeouts w
  /\ timers w' = timers w
  /\ nextHandle w' = nextHandle w
  /\ runningStateCalls w' = runningStateCalls w
  /\ eventCalls w' = eventCalls w
  /\ (forall l, (l < length (heap w))%nat -> heap w' !! l = heap w !! l)
  /\ (forall now event lastSeen,
        recentEvents w !! eventKey event = Some lastSeen ->
        now - lastSeen < DUPLICATE_WINDOW ->
        deduplicateEvents now [event] (recentEvents w') = ([], recentEvents w)).
Proof.
  unfold clearEvents, getEvents, alloc; cbn.
  repeat split; try reflexivity.
  - apply deref_snoc.
  - rewrite deref_snoc. apply deref_snoc.
  - intros l Hl. by rewrite lookup_app_l.
  - intros now event lastSeen Hseen Hwin. rewrite Hseen.
    apply Z.ltb_lt in Hwin. by rewrite Hwin.
Qed.

(** After the two starts of [busyListener] at time 0, the start of [A] is
    still a repeat at time 1000, also once the history is cleared. *)
Lemma clearEvents_clears_only_history_witness :
  deduplicateEvents 1000
    [{| type := agent_call; timestamp := 1000; content := js "A";
        details := [("agent", VStr (js "A"))] |}]
    (recentEvents (clearEvents busyListener))
  = ([], recentEvents busyListener).
Proof.
  destruct (clearEvents_clears_only_history busyListener)
    as (_ & _ & _ & _ & _ & _ & _ & _ & _ & _ & _ & Hdedup).
  apply (Hdedup 1000 _ 0); [reflexivity | reflexivity].
Defined.

(** ** Plan steps *)

(** C3 (the code departs from the claim). The completed flag is
    [trimmedLine.includes('✓')]: an unchecked step whose description
    contains a check mark is reported as completed. *)
Theorem unchecked_step_with_check_mark_is_completed (now : Z) (p : OutputParser) :
  parseLine now (js "☐ 2. verify ✓ renders") p =
  (Some {| type := plan_progress; timestamp := now;
           content := js "verify ✓ renders";
           details := [("completed", VBool true);
                       ("raw", VStr (js "☐ 2. verify ✓ renders"))] |}, p).
Proof. vm_compute. reflexivity. Qed.

(** Steps whose only check mark is the leading glyph get the flag the glyph
    says. *)
Example plan_step_flags (now : Z) (p : OutputParser) :
  (prop "completed" ∘ details <$> fst (parseLine now (js "✓ 1. read the code") p))
    = Some (Some (VBool true))
  /\ (prop "completed" ∘ details <$> fst (parseLine now (js "☐ 2. write the proof") p))
    = Some (Some (VBool false)).
Proof. vm_compute. done. Qed.

(** ** Timeouts *)

(** C2 (the code departs from the claim). A start of an id that is already
    active arms a second timer and leaves the first one armed: [Explore],
    started at 0 and again at 5000, is stopped at 10000, which is 5000 ms
    after its latest start, and is reported stopped once more at 15000. *)
Theorem restart_stacks_timeouts :
  let w1 := handleTerminalData 0 (js "● Explore(first)") (newListener None) in
  let w2 := handleTerminalData 5000 (js "● Explore(second)") w1 in
  List.map (fun tm => (handle tm, due tm)) (timers w2) = [(1%nat, 10000); (2%nat, 15000)]
  /\ activeIds w2 = [(js "Explore", agent)]
  /\ stops (advanceTo 9999 w2) = []
  /\ stops (advanceTo 10000 w2) = [(10000, js "Explore")]
  /\ activeIds (advanceTo 10000 w2) = []
  /\ stops (advanceTo 15000 w2) = [(10000, js "Explore"); (15000, js "Explore")].
Proof. vm_compute. repeat split. Qed.

(** ** End-of-execution signals *)

Section stop_loop.
Variable now : Z.
Implicit Types (w : TerminalListener) (es : list (str * ItemKind)).

Lemma stopItem_activeIds w e : activeIds (stopItem now w e) = activeIds w.
Proof. destruct e as [id k]. unfold stopItem. by destruct (activeTimeouts w !! id). Qed.

Lemma stopItem_calls w e :
  runningStateCalls (stopItem now w e) = runningStateCalls w ++ [stopCall now e].
Proof. destruct e as [id k]. unfold stopItem. by destruct (activeTimeouts w !! id). Qed.

Lemma stopItem_timeouts w e :
  activeTimeouts (stopItem now w e) = delete (fst e) (activeTimeouts w).
Proof. destruct e as [id k]. unfold stopItem. by destruct (activeTimeouts w !! id). Qed.

Lemma stopItem_timers_incl w e tm :
  In tm (timers (stopItem now w e)) -> In tm (timers w).
Proof.
  destruct e as [id k]. unfold stopItem.
  destruct (activeTimeouts w !! id); simpl; [|done].
  unfold dequeue. rewrite filter_In. tauto.
Qed.

Lemma stopItem_cancels w e h tm :
  activeTimeouts w !! fst e = Some h ->
  In tm (timers (stopItem now w e)) -> handle tm <> h.
Proof.
  destruct e as [id k]. unfold stopItem. simpl. intros ->. simpl.
  unfold dequeue. rewrite filter_In. intros [_ Hne] Heq.
  apply negb_true_iff, Nat.eqb_neq in Hne. done.
Qed.

Lemma stopItems_activeIds es w :
  activeIds (fold_left (stopItem now) es w) = activeIds w.
Proof.
  revert w. induction es as [|e es IH]; intros w; simpl; [done|].
  by rewrite IH, stopItem_activeIds.
Qed.

Lemma stopItems_calls es w :
  runningStateCalls (fold_left (stopItem now) es w)
  = runningStateCalls w ++ List.map (stopCall now) es.
Proof.
  revert w. induction es as [|e es IH]; intros w; simpl.
  - by rewrite app_nil_r.
  - by rewrite IH, stopItem_calls, <- app_assoc.
Qed.

Lemma stopItems_timers_incl es w tm :
  In tm (timers (fold_left (stopItem now) es w)) -> In tm (timers w).
Proof.
  revert w. induction es as [|e es IH]; intros w; simpl; [done|].
  intros H. eapply stopItem_timers_incl, IH, H.
Qed.

Lemma stopItems_timeouts_other es w id :
  ~ In id (List.map fst es) ->
  activeTimeouts (fold_left (stopItem now) es w) !! id = activeTimeouts w !! id.
Proof.
  revert w. induction es as [|e es IH]; intros w; simpl; [done|].
  intros Hnot. rewrite IH by tauto.
  rewrite stopItem_timeouts. apply lookup_delete_ne. tauto.
Qed.

Lemma stopItems_timeouts es w id :
  In id (List.map fst es) ->
  activeTimeouts (fold_left (stopItem now) es w) !! id = None.
Proof.
  revert w. induction es as [|e es IH]; intros w; simpl; [done|].
  intros Hin.
  destruct (decide (id ∈ List.map fst es)) as [Hlater|Hnot];
    rewrite list_elem_of_In in *.
  - by apply IH.
  - destruct Hin as [<-|]; [|done].
    rewrite stopItems_timeouts_other by done.
    rewrite stopItem_timeouts. apply lookup_delete_eq.
Qed.

Lemma stopItems_cancel es w id h tm :
  In id (List.map fst es) ->
  activeTimeouts w !! id = Some h ->
  In tm (timers (fold_left (stopItem now) es w)) -> handle tm <> h.
Proof.
  revert w. induction es as [|e es IH]; intros w; simpl; [done|].
  intros Hin Hh Htm. destruct (decide (fst e = id)) as [<-|Hne].
  - eapply stopItem_cancels; [exact Hh|]. eapply stopItems_timers_incl, Htm.
  - destruct Hin as [|Hin]; [done|].
    eapply (IH (stopItem now w e)); [done| |exact Htm].
    rewrite stopItem_timeouts. by rewrite lookup_delete_ne.
Qed.
End stop_loop.

Lemma isEndSignal_empty : isEndSignal [] = false.
Proof. reflexivity. Qed.

Lemma startItem_keeps_active now k event w id :
  JsMap.has id (activeIds w) = true ->
  JsMap.has id (activeIds (startItem now k event w)) = true.
Proof.
  intros Hid. unfold startItem.
  destruct (bool_decide _); [|done].
  destruct (truthyStr _ _) as [id'|]; [|done]. simpl.
  unfold JsMap.has in *. destruct (decide (id = id')) as [->|Hne].
  - by rewrite JsMap_get_set_eq.
  - by rewrite JsMap_get_set_ne.
Qed.

Lemma startItems_keeps_active now event w id :
  JsMap.has id (activeIds w) = true ->
  JsMap.has id (activeIds (startItems now event w)) = true.
Proof.
  intros. unfold startItems. by do 4 apply startItem_keeps_active.
Qed.

Lemma JsMap_has_In {V} (m : JsMap.t V) id :
  JsMap.has id m = true -> In id (List.map fst m).
Proof.
  unfold JsMap.has. induction m as [|[k v] m IH]; simpl; [done|].
  destruct (str_eqb k id) eqn:E.
  - apply str_eqb_eq in E. auto.
  - auto.
Qed.

(** What an end signal in the content of an event does. When an event
    that survived the dedup has an end-of-execution phrase in its content
    and some id is active once the event's own start is recorded, handling
    that event empties the active set, reports one stop, in map order, for
    each id that was active (every id active before the event is among
    them), removes its timeout handle and takes the timer behind that
    handle off the event loop. A timer armed by an earlier start of the
    same id is not behind that handle, and stays. *)
Lemma end_signal_event_stops_every_active_id
    (now : Z) (event : TerminalEvent) (w : TerminalListener) :
  isEndSignal (content event) = true ->
  activeIds (startItems now event w) <> [] ->
  let started := startItems now event w in
  let w' := processEvent now w event in
  activeIds w' = []
  /\ runningStateCalls w'
     = runningStateCalls started ++ List.map (stopCall now) (activeIds started)
  /\ (forall id, JsMap.has id (activeIds w) = true ->
        In id (List.map fst (activeIds started)))
  /\ (forall id, In id (List.map fst (activeIds started)) ->
        activeTimeouts w' !! id = None
        /\ forall h, activeTimeouts started !! id = Some h ->
             forall tm, In tm (timers w') -> handle tm <> h).
Proof.
  intros Hend Hactive started w'.
  assert (w' = pushEvent event
                 (set_activeIds []
                    (fold_left (stopItem now) (activeIds started) started))) as ->.
  { subst w'. unfold processEvent, checkEnd. fold started.
    destruct (content event) eqn:Hc; [by rewrite isEndSignal_empty in Hend|].
    rewrite Hend. destruct (activeIds started) eqn:Ha; [done|]. reflexivity. }
  simpl. repeat split.
  - apply stopItems_calls.
  - intros id Hid. by apply JsMap_has_In, startItems_keeps_active.
  - by apply stopItems_timeouts.
  - intros h Hh tm Htm. eapply stopItems_cancel; eauto.
Qed.

(** The claim's two ids, with the phrase in the text of a tool call. *)
Lemma end_signal_event_stops_every_active_id_witness :
  let event := {| type := tool_call; timestamp := 5000;
                  content := js "⎿ Done (3 tool uses)";
                  details := [("tool", VStr (js "Bash"))] |} in
  let w' := processEvent 5000 busyListener event in
  activeIds w' = []
  /\ runningStateCalls w'
     = runningStateCalls busyListener
       ++ [stopCall 5000 (js "A", agent); stopCall 5000 (js "B", skill)]
  /\ activeTimeouts w' !! js "A" = None
  /\ activeTimeouts w' !! js "B" = None.
Proof.
  intros event w'.
  destruct (end_signal_event_stops_every_active_id 5000 event busyListener)
    as (Hids & Hcalls & _ & Htimeouts); [vm_compute; reflexivity | vm_compute; discriminate |].
  split; [exact Hids|]. split; [exact Hcalls|].
  split; apply Htimeouts; vm_compute; tauto.
Defined.

(** The same through [handleTerminalData]: the phrase inside a line the
    parser classifies stops [A] and [B] in that pass and disarms their
    timers. *)
Example end_signal_in_classified_line :
  let w' := handleTerminalData 5000 (js "[Bash] ⎿ Done (3 tool uses)") busyListener in
  activeIds w' = [] /\ timers w' = []
  /\ stops w' = [(5000, js "A"); (5000, js "B")].
Proof. vm_compute. done. Qed.

(** C1 (the code departs from the claim). The end patterns are tested on
    the content of classified events only. The result line
    "⎿ Done (3 tool uses)" carries the phrase, but it has none of the
    markers of the quick filter and no rule of the parser classifies it:
    as a chunk of its own, and next to a marked line, it leaves [A] and
    [B] active, their timers armed, and no stop is reported. And where the
    phrase does stop an id, in the content of a classified event, only the
    timeout stored for the id is cancelled: after a start of Explore at 0
    and another at 5000, the end signal at 6000 leaves the timer of the
    first start armed, and a second stop is reported at 10000. *)
Theorem done_line_stops_nothing :
  let alone := handleTerminalData 5000 (js "⎿ Done (3 tool uses)") busyListener in
  let marked := handleTerminalData 5000 (js "[Bash] ls
⎿ Done (3 tool uses)
") busyListener in
  let restarted :=
    handleTerminalData 5000 (js "● Explore(second)")
      (handleTerminalData 0 (js "● Explore(first)") (newListener None)) in
  let ended := handleTerminalData 6000 (js "[Bash] ⎿ Done (3 tool uses)") restarted in
  isEndSignal (js "⎿ Done (3 tool uses)") = true
  /\ activeIds busyListener = [(js "A", agent); (js "B", skill)]
  /\ activeIds alone = [(js "A", agent); (js "B", skill)]
  /\ stops alone = [] /\ timers alone = timers busyListener
  /\ activeIds marked = [(js "A", agent); (js "B", skill)]
  /\ stops marked = [] /\ timers marked = timers busyListener
  /\ activeIds restarted = [(js "Explore", agent)]
  /\ List.map due (timers restarted) = [10000; 15000]
  /\ activeIds ended = [] /\ stops ended = [(6000, js "Explore")]
  /\ List.map due (timers ended) = [10000]
  /\ stops (advanceTo 10000 ended) = [(6000, js "Explore"); (10000, js "Explore")].
Proof. vm_compute. repeat split. Qed.

(** ** What the loop body leaves alone *)

Lemma startItem_frame now k event w :
  sameRecords w (startItem now k event w) /\ sameArrays w (startItem now k event w).
Proof.
  unfold startItem, sameRecords, sameArrays.
  destruct (bool_decide _); [|done]. by destruct (truthyStr _ _).
Qed.

Lemma startItems_frame now event w :
  sameRecords w (startItems now event w) /\ sameArrays w (startItems now event w).
Proof.
  unfold startItems.
  pose proof (startItem_frame now agent event w) as [(?&?&?) (?&?)].
  pose proof (startItem_frame now skill event (startItem now agent event w))
    as [(?&?&?) (?&?)].
  pose proof (startItem_frame now plugin event
                (startItem now skill event (startItem now agent event w)))
    as [(?&?&?) (?&?)].
  pose proof (startItem_frame now mcp event
                (startItem now plugin event
                   (startItem now skill event (startItem now agent event w))))
    as [(?&?&?) (?&?)].
  unfold sameRecords, sameArrays. repeat split; congruence.
Qed.

Lemma stopItems_frame now es w :
  sameRecords w (fold_left (stopItem now) es w)
  /\ sameArrays w (fold_left (stopItem now) es w).
Proof.
  revert w. induction es as [|e es IH]; intros w; cbn [fold_left]; [done|].
  destruct (IH (stopItem now w e)) as [(?&?&?) (?&?)].
  assert (sameRecords w (stopItem now w e)
          /\ sameArrays w (stopItem now w e)) as [(?&?&?) (?&?)].
  { destruct e as [id k]. unfold stopItem, sameRecords, sameArrays.
    by destruct (activeTimeouts w !! id). }
  unfold sameRecords, sameArrays. repeat split; congruence.
Qed.

Lemma checkEnd_frame now event w :
  sameRecords w (checkEnd now event w) /\ sameArrays w (checkEnd now event w).
Proof.
  unfold checkEnd. destruct (content event); [done|].
  destruct (_ && _); [|done].
  destruct (stopItems_frame now (JsMap.entries (activeIds w)) w) as [(?&?&?) (?&?)].
  unfold sameRecords, sameArrays. by simpl.
Qed.

Lemma processEvent_records now w event : sameRecords w (processEvent now w event).
Proof.
  unfold processEvent.
  destruct (startItems_frame now event w) as [(?&?&?) _].
  destruct (checkEnd_frame now event (startItems now event w)) as [(?&?&?) _].
  unfold sameRecords. simpl. repeat split; congruence.
Qed.

Lemma processEvents_records now events w :
  sameRecords w (fold_left (processEvent now) events w).
Proof.
  revert w. induction events as [|e events IH]; intros w; simpl; [done|].
  destruct (IH (processEvent now w e)) as (?&?&?).
  destruct (processEvent_records now w e) as (?&?&?).
  unfold sameRecords. repeat split; congruence.
Qed.

Lemma processEvent_history now w event :
  bufferOnHeap w ->
  bufferOnHeap (processEvent now w event)
  /\ history (processEvent now w event) = history w ++ [event].
Proof.
  unfold bufferOnHeap, history, processEvent. intros Hb.
  destruct (startItems_frame now event w) as [_ (Hb1 & Hh1)].
  destruct (checkEnd_frame now event (startItems now event w)) as [_ (Hb2 & Hh2)].
  set (w2 := checkEnd now event (startItems now event w)) in *.
  assert (eventBuffer w2 = eventBuffer w) as Eb by congruence.
  assert (heap w2 = heap w) as Eh by congruence.
  unfold pushEvent. simpl. rewrite Eb, Eh. split.
  - by rewrite length_insert.
  - unfold deref. by rewrite list_lookup_insert_eq.
Qed.

Lemma processEvents_history now events w :
  bufferOnHeap w ->
  bufferOnHeap (fold_left (processEvent now) events w)
  /\ history (fold_left (processEvent now) events w) = history w ++ events.
Proof.
  revert w. induction events as [|e events IH]; intros w Hb; simpl.
  - by rewrite app_nil_r.
  - destruct (processEvent_history now w e Hb) as [Hb' Hh'].
    destruct (IH _ Hb') as [Hb'' Hh'']. split; [done|].
    by rewrite Hh'', Hh', <- app_assoc.
Qed.

(** What one pass does to the history: the unique events are appended, and
    past 1000 elements the last 500 are kept. *)
Lemma dispatch_history now uniqueEvents w :
  bufferOnHeap w ->
  bufferOnHeap (dispatch now uniqueEvents w)
  /\ history (dispatch now uniqueEvents w)
     = if Nat.ltb 1000 (length (history w ++ uniqueEvents))
       then sliceLast 500 (history w ++ uniqueEvents)
       else history w ++ uniqueEvents.
Proof.
  intros Hb. unfold dispatch.
  destruct (processEvents_history now uniqueEvents w Hb) as [Hb1 Hh1].
  set (w1 := fold_left (processEvent now) uniqueEvents w) in *.
  set (w2 := if Nat.ltb 0 (length uniqueEvents) then onEvent uniqueEvents w1 else w1).
  assert (bufferOnHeap w2 /\ history w2 = history w ++ uniqueEvents) as [Hb2 Hh2].
  { subst w2. by destruct (Nat.ltb 0 _). }
  clearbody w2. clear w1 Hb1 Hh1.
  unfold trimBuffer. fold (history w2). rewrite Hh2.
  destruct (Nat.ltb 1000 _); [|done].
  unfold bufferOnHeap, history, alloc; simpl. split.
  - rewrite length_app. simpl. lia.
  - apply deref_snoc.
Qed.

Lemma dispatch_recentEvents now uniqueEvents w :
  recentEvents (dispatch now uniqueEvents w)
  = cleanupDuplicateRecords now (recentEvents w).
Proof.
  unfold dispatch. simpl. f_equal.
  destruct (processEvents_records now uniqueEvents w) as (Hr & _ & _).
  set (w1 := fold_left (processEvent now) uniqueEvents w) in *.
  assert (recentEvents (trimBuffer
            (if Nat.ltb 0 (length uniqueEvents) then onEvent uniqueEvents w1 else w1))
          = recentEvents w1) as ->; [|done].
  unfold trimBuffer. destruct (Nat.ltb 0 _); by destruct (Nat.ltb 1000 _).
Qed.

(** ** De-duplication *)

Lemma cleanup_lookup_Some (now : Z) (recent : gmap (list N) Z) (k : list N) (ts : Z) :
  cleanupDuplicateRecords now recent !! k = Some ts
  <-> recent !! k = Some ts /\ now - ts <= DUPLICATE_WINDOW * 2.
Proof.
  unfold cleanupDuplicateRecords. rewrite lookup_foldr_delete_Some.
  rewrite list_elem_of_In, in_map_iff. split.
  - intros [Hnot Hk]. split; [done|].
    destruct (Z.leb_spec (now - ts) (DUPLICATE_WINDOW * 2)) as [|Hlt]; [done|].
    exfalso. apply Hnot. exists (k, ts). split; [done|].
    apply filter_In. split.
    + by apply list_elem_of_In, elem_of_map_to_list.
    + simpl. by apply Z.ltb_lt.
  - intros [Hk Hle]. split; [|done].
    intros ([k' ts'] & Heq & Hin). simpl in Heq. subst k'.
    apply filter_In in Hin as [Hin Hexp]. simpl in Hexp.
    apply list_elem_of_In, elem_of_map_to_list in Hin.
    apply Z.ltb_lt in Hexp. assert (ts' = ts) by congruence. lia.
Qed.

Lemma eventKey_same (e1 e2 : TerminalEvent) :
  type e1 = type e2 ->
  substring0 100 (content e1) = substring0 100 (content e2) ->
  eventKey e1 = eventKey e2.
Proof. unfold eventKey. by intros -> ->. Qed.

Lemma dispatch_eventCalls now uniqueEvents w :
  eventCalls (dispatch now uniqueEvents w)
  = if Nat.ltb 0 (length uniqueEvents) then eventCalls w ++ [uniqueEvents]
    else eventCalls w.
Proof.
  destruct (processEvents_records now uniqueEvents w) as (_ & _ & Hcalls).
  unfold dispatch, trimBuffer.
  destruct (Nat.ltb 0 (length uniqueEvents)); destruct (Nat.ltb 1000 _); cbn;
    by rewrite Hcalls.
Qed.

Lemma dedup_cons now event rest recent :
  deduplicateEvents now (event :: rest) recent
  = match recent !! eventKey event with
    | Some lastSeen =>
        if now - lastSeen <? DUPLICATE_WINDOW
        then deduplicateEvents now rest recent
        else (event :: fst (deduplicateEvents now rest (<[eventKey event := now]> recent)),
              snd (deduplicateEvents now rest (<[eventKey event := now]> recent)))
    | None =>
        (event :: fst (deduplicateEvents now rest (<[eventKey event := now]> recent)),
         snd (deduplicateEvents now rest (<[eventKey event := now]> recent)))
    end.
Proof.
  cbn [deduplicateEvents]. destruct (recent !! eventKey event) as [t|].
  - destruct (now - t <? DUPLICATE_WINDOW); [done|].
    by destruct (deduplicateEvents now rest _).
  - by destruct (deduplicateEvents now rest _).
Qed.

Lemma fresh_insert now recent k k' : fresh now recent k -> fresh now (<[k' := now]> recent) k.
Proof.
  intros (t & Ht & Hlt). destruct (decide (k' = k)) as [->|Hne].
  - exists now. rewrite lookup_insert_eq. split; [done|]. unfold DUPLICATE_WINDOW. lia.
  - exists t. by rewrite lookup_insert_ne.
Qed.

Lemma fresh_now now recent k : fresh now (<[k := now]> recent) k.
Proof. exists now. rewrite lookup_insert_eq. split; [done|]. unfold DUPLICATE_WINDOW. lia. Qed.

(** The key tells the kind and the first 100 units of the content, and
    nothing else. *)
Lemma typeName_key (t1 t2 : TerminalEventType) (p1 p2 : str) :
  typeName t1 ++ js ":" ++ p1 = typeName t2 ++ js ":" ++ p2 -> t1 = t2 /\ p1 = p2.
Proof.
  intros H. destruct t1, t2; vm_compute in H;
    first [discriminate H | split; [reflexivity | congruence]].
Qed.

Lemma eventKey_exact (e1 e2 : TerminalEvent) :
  eventKey e1 = eventKey e2
  <-> type e1 = type e2 /\ take 100 (content e1) = take 100 (content e2).
Proof.
  unfold eventKey, substring0. split; [apply typeName_key|]. by intros [-> ->].
Qed.

(** One event offered alone: what decides, and what is written. *)
Lemma dedup_one_fresh (now : Z) (event : TerminalEvent) (recent : gmap str Z) :
  fresh now recent (eventKey event) -> deduplicateEvents now [event] recent = ([], recent).
Proof.
  intros (t & Ht & Hlt). rewrite dedup_cons, Ht.
  apply Z.ltb_lt in Hlt. by rewrite Hlt.
Qed.

Lemma dedup_one_stale (now : Z) (event : TerminalEvent) (recent : gmap (list N) Z) :
  ~ fresh now recent (eventKey event) ->
  deduplicateEvents now [event] recent = ([event], <[eventKey event := now]> recent).
Proof.
  intros Hstale. rewrite dedup_cons.
  destruct (recent !! eventKey event) as [t|] eqn:Ht; [|reflexivity].
  destruct (now - t <? DUPLICATE_WINDOW) eqn:Hwin; [|reflexivity].
  destruct Hstale. exists t. split; [done|]. by apply Z.ltb_lt.
Qed.

Lemma dedup_one_frame (now : Z) (event : TerminalEvent) (recent : gmap (list N) Z) (k : str) :
  k <> eventKey event ->
  snd (deduplicateEvents now [event] recent) !! k = recent !! k.
Proof.
  intros Hk. rewrite dedup_cons. destruct (recent !! eventKey event) as [t|].
  - destruct (now - t <? DUPLICATE_WINDOW); [done|]. cbn. by rewrite lookup_insert_ne.
  - cbn. by rewrite lookup_insert_ne.
Qed.

Lemma emittedWithin_spec now event log :
  emittedWithin now event log = true
  <-> exists t, In (type event, take 100 (content event), t) log /\ now - t < 3000.
Proof.
  unfold emittedWithin. rewrite existsb_exists. split.
  - intros ([[ty pre] t] & Hin & H). cbn in H.
    apply andb_true_iff in H as [H Hlt]. apply andb_true_iff in H as [Hty Hpre].
    apply bool_decide_eq_true in Hty. apply bool_decide_eq_true in Hpre.
    apply Z.ltb_lt in Hlt. subst. by exists t.
  - intros (t & Hin & Hlt). exists (type event, take 100 (content event), t).
    split; [done|]. cbn. rewrite !bool_decide_eq_true_2 by done. by apply Z.ltb_lt.
Qed.

Lemma recordsAgree_new T : recordsAgree T ∅ [].
Proof.
  split; [done|]. intros event now _. split; [done|].
  intros (t & Ht & _). by rewrite lookup_empty in Ht.
Qed.

Lemma recordsAgree_later T T' recent log :
  T <= T' -> recordsAgree T recent log -> recordsAgree T' recent log.
Proof.
  intros Hle [Htimes Hq]. split.
  - intros em Hin. specialize (Htimes em Hin). lia.
  - intros event now Hnow. apply Hq. lia.
Qed.

Lemma recordsAgree_emit now event recent log :
  recordsAgree now recent log ->
  recordsAgree now (<[eventKey event := now]> recent)
    ((type event, take 100 (content event), now) :: log).
Proof.
  intros [Htimes Hq]. split.
  - intros em [<-|Hin]; [cbn; lia | by apply Htimes].
  - intros e now' Hnow. rewrite emittedWithin_spec.
    destruct (decide (eventKey e = eventKey event)) as [Hkey|Hkey].
    + pose proof Hkey as Hsame. apply eventKey_exact in Hsame as [Hty Hpre].
      rewrite Hkey. split.
      * intros (t & Hin & Hlt). exists now. rewrite lookup_insert_eq. split; [done|].
        destruct Hin as [Heq|Hin]; [injection Heq as _ _ <-; exact Hlt|].
        specialize (Htimes _ Hin). cbn in Htimes. unfold DUPLICATE_WINDOW. lia.
      * intros (t & Ht & Hlt). rewrite lookup_insert_eq in Ht. injection Ht as <-.
        exists now. split; [left; by rewrite Hty, Hpre | exact Hlt].
    + split.
      * intros (t & [Heq|Hin] & Hlt).
        { destruct Hkey. apply eventKey_exact. injection Heq as Hty Hpre _. by split. }
        assert (emittedWithin now' e log = true) as Hem
          by (apply emittedWithin_spec; by exists t).
        apply (Hq e now' Hnow) in Hem as (t' & Ht' & Hlt').
        exists t'. by rewrite lookup_insert_ne by (intros E; by apply Hkey).
      * intros (t & Ht & Hlt). rewrite lookup_insert_ne in Ht by (intros E; by apply Hkey).
        assert (emittedWithin now' e log = true) as Hem
          by (apply (Hq e now' Hnow); by exists t).
        apply emittedWithin_spec in Hem as (t' & Hin & Hlt').
        exists t'. split; [by right | done].
Qed.

Lemma recordsAgree_cleanup now recent log :
  recordsAgree now recent log ->
  recordsAgree now (cleanupDuplicateRecords now recent) log.
Proof.
  intros [Htimes Hq]. split; [done|]. intros e now' Hnow. rewrite (Hq e now' Hnow).
  split; intros (t & Ht & Hlt); exists t; (split; [|done]).
  - apply cleanup_lookup_Some. split; [done|]. unfold DUPLICATE_WINDOW in *. lia.
  - by apply cleanup_lookup_Some in Ht as [Ht _].
Qed.

Lemma batch_refines now events recent log :
  recordsAgree now recent log ->
  fst (deduplicateEvents now events recent) = fst (claimedBatch now events log)
  /\ recordsAgree now (snd (deduplicateEvents now events recent))
                      (snd (claimedBatch now events log)).
Proof.
  revert recent log. induction events as [|event rest IH]; intros recent log Hagree; [done|].
  assert (emittedWithin now event log = true <-> fresh now recent (eventKey event)) as Hq
    by (apply Hagree; lia).
  destruct (emittedWithin now event log) eqn:Hem.
  - assert (fresh now recent (eventKey event)) as (t & Ht & Hlt) by (by apply Hq).
    rewrite dedup_cons, Ht. apply Z.ltb_lt in Hlt. rewrite Hlt.
    cbn [claimedBatch]. rewrite Hem. by apply IH.
  - assert (~ fresh now recent (eventKey event)) as Hstale
      by (intros Hf; apply Hq in Hf; discriminate).
    assert (deduplicateEvents now (event :: rest) recent
            = (event :: fst (deduplicateEvents now rest (<[eventKey event := now]> recent)),
               snd (deduplicateEvents now rest (<[eventKey event := now]> recent)))) as ->.
    { rewrite dedup_cons. destruct (recent !! eventKey event) as [t|] eqn:Ht; [|done].
      destruct (now - t <? DUPLICATE_WINDOW) eqn:Hwin; [|done].
      destruct Hstale. exists t. split; [done|]. by apply Z.ltb_lt. }
    cbn [claimedBatch]. rewrite Hem.
    destruct (IH (<[eventKey event := now]> recent)
                 ((type event, take 100 (content event), now) :: log)
                 (recordsAgree_emit now event recent log Hagree)) as [Hout Hrec].
    destruct (claimedBatch now rest _) as [emitted log']. cbn [fst snd] in *.
    by rewrite Hout.
Qed.

Lemma passes_refine passes T recent log :
  recordsAgree T recent log -> inOrder T passes ->
  filterPasses recent passes = claimedPasses log passes.
Proof.
  revert T recent log. induction passes as [|[now events] passes IH];
    intros T recent log Hagree Horder; [done|].
  destruct Horder as [Hle Horder]. cbn [fst] in *.
  destruct (batch_refines now events recent log (recordsAgree_later T now _ _ Hle Hagree))
    as [Hout Hrec].
  cbn [filterPasses claimedPasses]. unfold filterPass. cbn [fst snd].
  destruct (deduplicateEvents now events recent) as [uniqueEvents recent'].
  destruct (claimedBatch now events log) as [emitted log']. cbn [fst snd] in *.
  rewrite Hout. f_equal. apply (IH now); [by apply recordsAgree_cleanup | done].
Qed.

(** Where a chunk reaches the filter, the pass is the one of [filterPass]. *)
Lemma handleTerminalData_filters now data w events parser' :
  existsb (fun p => includes data p) quickPatterns = true ->
  startsWith (trim data) (js "> ") || Regex.test USER_INPUT_PATTERN (trim data) = false ->
  parse now data (parser w) = (events, parser') ->
  events <> [] ->
  recentEvents (handleTerminalData now data w)
  = snd (filterPass (recentEvents w) (now, events))
  /\ eventCalls (handleTerminalData now data w)
     = eventCalls w ++ match fst (filterPass (recentEvents w) (now, events)) with
                       | [] => []
                       | uniqueEvents => [uniqueEvents]
                       end.
Proof.
  intros Hmark Huser Hparse Hne. unfold handleTerminalData, filterPass.
  rewrite Hmark, Huser, Hparse. cbn [negb fst snd].
  destruct events as [|e events]; [done|]. cbn [length Nat.eqb].
  change (recentEvents (set_parser parser' w)) with (recentEvents w).
  destruct (deduplicateEvents now (e :: events) (recentEvents w)) as [uniqueEvents recent'].
  rewrite dispatch_recentEvents, dispatch_eventCalls. cbn [fst snd].
  split; [done|]. destruct uniqueEvents; [by rewrite app_nil_r | done].
Qed.

(** C4. The key of a record is the kind of the event and the first 100
    units of its content, and nothing else. Once an event has been let
    through at [t1], an event of the same kind with the same first 100 units
    of content is suppressed at any [t2] less than 3000 ms after [t1], in
    the same batch or in a later one, and the record stays at [t1]; from
    3000 ms on it is let through again. The clean-up keeps exactly the
    records at most 6000 ms old, and every dispatched batch ends with it.
    An event offered alone is suppressed exactly when its key has a record
    younger than 3000 ms, and otherwise let through and recorded at the time
    of the pass; an event of another kind or with other first 100 units
    leaves the record alone. Over any series of passes in the order of the
    clock, from no record at all, the filter lets through exactly what the
    wording of the claim lets through; and a chunk that reaches the filter
    goes through one such pass, its batch reported when it is not empty. *)
Theorem dedup_suppresses_within_window
    (recent : gmap (list N) Z) (first second : TerminalEvent) (t1 t2 : Z) :
  type first = type second ->
  take 100 (content first) = take 100 (content second) ->
  fst (deduplicateEvents t1 [first] recent) = [first] ->
  let seen := cleanupDuplicateRecords t1 (snd (deduplicateEvents t1 [first] recent)) in
  seen !! eventKey first = Some t1
  /\ fst (deduplicateEvents t1 [first; second] recent) = [first]
  /\ (t2 - t1 < DUPLICATE_WINDOW -> deduplicateEvents t2 [second] seen = ([], seen))
  /\ (DUPLICATE_WINDOW <= t2 - t1 -> fst (deduplicateEvents t2 [second] seen) = [second])
  /\ (forall now (m : gmap (list N) Z) k ts,
        cleanupDuplicateRecords now m !! k = Some ts
        <-> m !! k = Some ts /\ now - ts <= 2 * DUPLICATE_WINDOW)
  /\ (forall now uniqueEvents w,
        recentEvents (dispatch now uniqueEvents w)
        = cleanupDuplicateRecords now (recentEvents w))
  /\ (forall e1 e2 : TerminalEvent,
        eventKey e1 = eventKey e2
        <-> type e1 = type e2 /\ take 100 (content e1) = take 100 (content e2))
  /\ (forall now (event : TerminalEvent) (m : gmap (list N) Z),
        (exists t, m !! eventKey event = Some t /\ now - t < 3000) ->
        deduplicateEvents now [event] m = ([], m))
  /\ (forall now (event : TerminalEvent) (m : gmap (list N) Z),
        ~ (exists t, m !! eventKey event = Some t /\ now - t < 3000) ->
        deduplicateEvents now [event] m = ([event], <[eventKey event := now]> m))
  /\ (forall now (other : TerminalEvent) (m : gmap (list N) Z),
        type other <> type first
        \/ take 100 (content other) <> take 100 (content first) ->
        snd (deduplicateEvents now [other] m) !! eventKey first = m !! eventKey first)
  /\ (forall t0 passes,
        inOrder t0 passes -> filterPasses ∅ passes = claimedPasses [] passes)
  /\ (forall now data w events parser',
        existsb (fun p => includes data p) quickPatterns = true ->
        startsWith (trim data) (js "> ") || Regex.test USER_INPUT_PATTERN (trim data)
        = false ->
        parse now data (parser w) = (events, parser') ->
        events <> [] ->
        recentEvents (handleTerminalData now data w)
        = snd (filterPass (recentEvents w) (now, events))
        /\ eventCalls (handleTerminalData now data w)
           = eventCalls w ++ match fst (filterPass (recentEvents w) (now, events)) with
                             | [] => []
                             | uniqueEvents => [uniqueEvents]
                             end).
Proof.
  intros Htype Hprefix Hfirst seen.
  assert (eventKey first = eventKey second) as Hkey by (apply eventKey_exact; by split).
  assert (snd (deduplicateEvents t1 [first] recent) = <[eventKey first := t1]> recent)
    as Hrec.
  { simpl in *. destruct (recent !! eventKey first) as [lastSeen|]; [|done].
    destruct (t1 - lastSeen <? DUPLICATE_WINDOW); [discriminate|done]. }
  assert (seen !! eventKey first = Some t1) as Hseen.
  { subst seen. rewrite Hrec. apply cleanup_lookup_Some.
    rewrite lookup_insert_eq. unfold DUPLICATE_WINDOW. split; [done|lia]. }
  split; [done|]. split_and!.
  - simpl in *. destruct (recent !! eventKey first) as [lastSeen|].
    + destruct (t1 - lastSeen <? DUPLICATE_WINDOW); [discriminate|].
      rewrite <- Hkey, lookup_insert_eq.
      replace (t1 - t1) with 0 by lia. done.
    + rewrite <- Hkey, lookup_insert_eq.
      replace (t1 - t1) with 0 by lia. done.
  - intros Hin. simpl. rewrite <- Hkey, Hseen.
    apply Z.ltb_lt in Hin. by rewrite Hin.
  - intros Hout. simpl. rewrite <- Hkey, Hseen.
    apply Z.ltb_ge in Hout. by rewrite Hout.
  - intros now m k ts. rewrite cleanup_lookup_Some. by rewrite (Z.mul_comm 2).
  - apply dispatch_recentEvents.
  - apply eventKey_exact.
  - intros now event m Hfresh. by apply dedup_one_fresh.
  - intros now event m Hstale. by apply dedup_one_stale.
  - intros now other m Hother. apply dedup_one_frame.
    intros Heq. symmetry in Heq. apply eventKey_exact in Heq as [Hty Hpre].
    by destruct Hother.
  - intros t0 passes Horder. apply (passes_refine passes t0); [apply recordsAgree_new | done].
  - apply handleTerminalData_filters.
Qed.

(** "[Bash] ls -la" let through at 0: suppressed at 2999, let through at
    3000; and with "[Bash] pwd" at 3100 in between, let through at 3200. *)
Lemma dedup_suppresses_within_window_witness :
  let seen := cleanupDuplicateRecords 0 (snd (deduplicateEvents 0 [lsEvent 0] ∅)) in
  deduplicateEvents 2999 [lsEvent 2999] seen = ([], seen)
  /\ fst (deduplicateEvents 3000 [lsEvent 3000] seen) = [lsEvent 3000]
  /\ filterPasses ∅ [(0, [lsEvent 0]); (3100, [pwdEvent 3100]); (3200, [lsEvent 3200])]
     = [[lsEvent 0]; [pwdEvent 3100]; [lsEvent 3200]].
Proof.
  intros seen. split_and!.
  - destruct (dedup_suppresses_within_window ∅ (lsEvent 0) (lsEvent 2999) 0 2999)
      as (_ & _ & Hin & _); [reflexivity | reflexivity | reflexivity |].
    apply Hin. reflexivity.
  - destruct (dedup_suppresses_within_window ∅ (lsEvent 0) (lsEvent 3000) 0 3000)
      as (_ & _ & _ & Hout & _); [reflexivity | reflexivity | reflexivity |].
    apply Hout. vm_compute. discriminate.
  - destruct (dedup_suppresses_within_window ∅ (lsEvent 0) (lsEvent 3200) 0 3200)
      as (_ & _ & _ & _ & _ & _ & _ & _ & _ & _ & Hsame & _);
      [reflexivity | reflexivity | reflexivity |].
    rewrite (Hsame 0); [reflexivity | cbn; lia].
Defined.

(** Through [handleTerminalData]: the line at 0, 2000, 3500 and 9501 is
    emitted at 0, at 3500 (the repeat at 2000 did not move the record) and
    at 9501, and the record of 3500 is still there after the last pass. *)
Example dedup_passes :
  let chunk := js "[Bash] ls -la
" in
  let w := handleTerminalData 9501 chunk
             (handleTerminalData 3500 chunk
                (handleTerminalData 2000 chunk
                   (handleTerminalData 0 chunk (newListener None)))) in
  List.map (List.map timestamp) (eventCalls w) = [[0]; [3500]; [9501]]
  /\ map_to_list (recentEvents w) = [(js "tool_call:ls -la", 9501)].
Proof. vm_compute. done. Qed.

(** Through [handleTerminalData]: "[Bash] ls -la" at 0, "[Bash] pwd" at
    3100 and "[Bash] ls -la" at 3200 are all three emitted, the record of
    the one command being no record of the other. *)
Example other_content_is_another_record :
  let ls := js "[Bash] ls -la
" in
  let pwd := js "[Bash] pwd
" in
  let w := handleTerminalData 3200 ls
             (handleTerminalData 3100 pwd
                (handleTerminalData 0 ls (newListener None))) in
  List.map (List.map content) (eventCalls w) = [[js "ls -la"]; [js "pwd"]; [js "ls -la"]]
  /\ List.map (List.map timestamp) (eventCalls w) = [[0]; [3100]; [3200]]
  /\ filterPasses ∅ [(0, [lsEvent 0]); (3100, [pwdEvent 3100]); (3200, [lsEvent 3200])]
     = [[lsEvent 0]; [pwdEvent 3100]; [lsEvent 3200]]
  /\ str_eqb (eventKey (lsEvent 0)) (eventKey (pwdEvent 0)) = false.
Proof. vm_compute. done. Qed.

(** ** The history buffer *)

Lemma dispatch_one_small now event w :
  bufferOnHeap w -> (length (history w) < 1000)%nat ->
  bufferOnHeap (dispatch now [event] w)
  /\ history (dispatch now [event] w) = history w ++ [event].
Proof.
  intros Hb Hlen. destruct (dispatch_history now [event] w Hb) as [Hb' Hh].
  split; [done|]. rewrite Hh.
  destruct (Nat.ltb_spec 1000 (length (history w ++ [event]))) as [Hgt|]; [|done].
  rewrite length_app in Hgt. simpl in Hgt. lia.
Qed.

Lemma insertAll_small inserts w :
  bufferOnHeap w -> (length (history w) + length inserts <= 1000)%nat ->
  bufferOnHeap (insertAll inserts w)
  /\ history (insertAll inserts w) = history w ++ List.map snd inserts.
Proof.
  revert w. induction inserts as [|ins inserts IH]; intros w Hb Hlen.
  - unfold insertAll. cbn [fold_left List.map]. by rewrite app_nil_r.
  - cbn [length] in Hlen.
    change (insertAll (ins :: inserts) w)
      with (insertAll inserts (dispatch (fst ins) [snd ins] w)).
    destruct (dispatch_one_small (fst ins) (snd ins) w Hb) as [Hb' Hh']; [lia|].
    destruct (IH (dispatch (fst ins) [snd ins] w) Hb') as [Hb'' Hh''].
    { rewrite Hh', length_app. cbn [length]. lia. }
    split; [done|]. cbn [List.map]. by rewrite Hh'', Hh', <- app_assoc.
Qed.

(** C5. 1001 events dispatched one per pass into an empty history: after
    the first 1000 all of them are in the buffer, the 1001st pass drops the
    oldest 501 at once and leaves the last 500, and [getEvents] returns a
    new array with those 500 elements, so that whatever the caller writes
    into it the buffer stays as it is. *)
Theorem history_keeps_500_of_1001
    (w0 : TerminalListener) (inserts : list (Z * TerminalEvent)) :
  bufferOnHeap w0 -> history w0 = [] -> length inserts = 1001%nat ->
  let events := List.map snd inserts in
  let w := insertAll inserts w0 in
  history (insertAll (take 1000 inserts) w0) = take 1000 events
  /\ history w = drop 501 events
  /\ length (history w) = 500%nat
  /\ let snapshot := fst (getEvents w) in
     let w' := snd (getEvents w) in
     snapshot <> eventBuffer w'
     /\ deref snapshot (heap w') = drop 501 events
     /\ length (deref snapshot (heap w')) = 500%nat
     /\ history w' = history w
     /\ forall a, history (writeArray snapshot a w') = history w.
Proof.
  intros Hb Hempty Hlen events w.
  destruct (insertAll_small (take 1000 inserts) w0 Hb) as [Hb1 Hh1].
  { rewrite Hempty, length_take. cbn [length]. lia. }
  rewrite Hempty in Hh1. cbn [app] in Hh1.
  assert (List.map snd (take 1000 inserts) = take 1000 events) as Htake.
  { subst events. symmetry. apply firstn_map. }
  rewrite Htake in Hh1.
  assert (length events = 1001%nat) as Hlen' by (subst events; by rewrite length_map).
  destruct (drop 1000 inserts) as [|[now e] rest] eqn:Hdrop.
  { apply (f_equal length) in Hdrop. rewrite length_drop in Hdrop. simpl in Hdrop. lia. }
  assert (rest = []) as ->.
  { apply (f_equal length) in Hdrop. rewrite length_drop in Hdrop. simpl in Hdrop.
    destruct rest; [done|]. simpl in Hdrop. lia. }
  assert (inserts = take 1000 inserts ++ [(now, e)]) as Hsplit.
  { by rewrite <- Hdrop, take_drop. }
  assert (events = take 1000 events ++ [e]) as Hevents.
  { subst events. rewrite Hsplit at 1. rewrite map_app. simpl. by rewrite <- Htake. }
  assert (w = dispatch now [e] (insertAll (take 1000 inserts) w0)) as Hw.
  { subst w. rewrite Hsplit at 1. unfold insertAll. by rewrite fold_left_app. }
  destruct (dispatch_history now [e] _ Hb1) as [Hb2 Hh2].
  rewrite <- Hw, Hh1, <- Hevents in Hh2. rewrite <- Hw in Hb2.
  clearbody w events.
  rewrite Hlen' in Hh2. change (Nat.ltb 1000 1001) with true in Hh2. cbv iota in Hh2.
  unfold sliceLast in Hh2. rewrite Hlen' in Hh2.
  change (1001 - 500)%nat with 501%nat in Hh2.
  assert (length (history w) = 500%nat) as H500.
  { rewrite Hh2, length_drop. lia. }
  split; [done|]. split; [done|]. split; [done|].
  unfold getEvents, alloc, writeArray, history, bufferOnHeap in *. simpl.
  split; [lia|]. rewrite deref_snoc. split; [done|]. split; [done|].
  split; [by apply deref_snoc_old|].
  intros a. unfold deref. rewrite list_lookup_insert_ne by lia.
  by rewrite lookup_app_l.
Qed.

(** Events numbered 0 to 1000 into a new listener: 501 to 1000 remain. *)
Lemma history_keeps_500_of_1001_witness :
  List.map timestamp
    (history (insertAll (List.map numbered (seq 0 1001)) (newListener None)))
  = List.map Z.of_nat (seq 501 500).
Proof.
  destruct (history_keeps_500_of_1001 (newListener None)
              (List.map numbered (seq 0 1001)))
    as (_ & Hkept & _); [vm_compute; lia | reflexivity | reflexivity |].
  rewrite Hkept. vm_compute. reflexivity.
Defined.

(** ** The registry refresh *)

Section refresh.
Context {A : Type} (key : A -> str) (entry : A -> ItemCacheEntry).

Lemma forOf_cache_set (l : list A) (r : ItemTypeResolver) :
  Async.forOf l (fun x => cache_set (key x) (entry x)) r
  = (Returned tt, {| cache := addAll key entry l (cache r);
                     lastCacheUpdate := lastCacheUpdate r |}).
Proof.
  unfold addAll. revert r. induction l as [|x l IH]; intros r; simpl.
  - by destruct r.
  - unfold Async.bind, cache_set, Async.modify. by rewrite IH.
Qed.

Lemma addAll_other (l : list A) c k :
  (forall x, In x l -> key x <> k) ->
  JsMap.get k (addAll key entry l c) = JsMap.get k c.
Proof.
  unfold addAll. revert c. induction l as [|x l IH]; intros c Hk; simpl; [done|].
  rewrite IH by (intros; apply Hk; by right).
  apply JsMap_get_set_ne. intros Heq. by apply (Hk x); [left|].
Qed.

Lemma addAll_member (l : list A) c x :
  In x l ->
  exists x', In x' l /\ key x' = key x
             /\ JsMap.get (key x) (addAll key entry l c) = Some (entry x').
Proof.
  unfold addAll. revert c x. induction l as [|y l IH]; intros c x; simpl; [done|].
  intros Hin.
  destruct (existsb (fun z => str_eqb (key z) (key x)) l) eqn:Hlater.
  - apply existsb_exists in Hlater as (z & Hz & Hkey). apply str_eqb_eq in Hkey.
    destruct (IH (JsMap.set (key y) (entry y) c) z Hz) as (x' & Hx' & Hk' & Hget).
    exists x'. rewrite <- Hkey. split; [by right|]. split; [done|]. exact Hget.
  - assert (forall z, In z l -> key z <> key x) as Hnone.
    { intros z Hz Heq. apply not_true_iff_false in Hlater. apply Hlater.
      apply existsb_exists. exists z. split; [done|]. by apply str_eqb_eq. }
    destruct Hin as [->|Hin]; [|by destruct (Hnone x Hin)].
    exists x. split; [by left|]. split; [done|].
    fold (addAll key entry l (JsMap.set (key x) (entry x) c)).
    rewrite addAll_other by done. apply JsMap_get_set_eq.
Qed.
End refresh.

Lemma try_source {A} (key : A -> str) (entry : A -> ItemCacheEntry)
    (o : Outcome (list A)) (r : ItemTypeResolver) :
  Async.try_catch
    (do items <- Async.await o in
     Async.forOf items (fun x => cache_set (key x) (entry x)))
    logged r
  = (Returned tt, {| cache := addAll key entry (fetched o) (cache r);
                     lastCacheUpdate := lastCacheUpdate r |}).
Proof.
  unfold Async.try_catch, Async.bind, Async.await.
  destruct o as [items|e]; simpl.
  - by rewrite forOf_cache_set.
  - by destruct r.
Qed.

Lemma updateCacheIfNeeded_expired now cb r :
  CACHE_TTL <= now - lastCacheUpdate r ->
  updateCacheIfNeeded now cb r
  = (Returned tt, {| cache := rebuilt cb; lastCacheUpdate := now |}).
Proof.
  intros Httl. unfold updateCacheIfNeeded.
  apply Z.ltb_ge in Httl. rewrite Httl.
  unfold Async.bind at 1. unfold Async.modify at 1.
  unfold Async.bind at 1.
  assert (forall r0,
    match getMcpsCallback cb with
    | Some call =>
        Async.try_catch
          (do mcps <- Async.await call in
           Async.forOf mcps (fun m =>
             cache_set (js "mcp__" ++ mcp_name m) (mcpEntry file (mcp_name m))))
          logged
    | None => Async.ret tt
    end r0
    = (Returned tt,
       {| cache := addAll mcpKey (mcpEntry file ∘ mcp_name)
                     (match getMcpsCallback cb with Some o => fetched o | None => [] end)
                     (cache r0);
          lastCacheUpdate := lastCacheUpdate r0 |})) as Hmcp.
  { intros r0. destruct (getMcpsCallback cb) as [o|].
    - apply (try_source mcpKey (mcpEntry file ∘ mcp_name)).
    - by destruct r0. }
  rewrite Hmcp. unfold Async.bind at 1.
  rewrite (try_source pluginKey pluginEntry). unfold Async.bind at 1.
  rewrite (try_source skillKey skillEntry). unfold Async.bind at 1.
  rewrite (try_source agentKey agentEntry).
  reflexivity.
Qed.

Lemma updateCacheIfNeeded_returns now cb r :
  fst (updateCacheIfNeeded now cb r) = Returned tt.
Proof.
  destruct (Z.lt_ge_cases (now - lastCacheUpdate r) CACHE_TTL) as [Hlt|Hge].
  - unfold updateCacheIfNeeded. apply Z.ltb_lt in Hlt. by rewrite Hlt.
  - by rewrite updateCacheIfNeeded_expired.
Qed.

Lemma cached_entry_listed (r : ItemTypeResolver) key e :
  JsMap.get key (cache r) = Some e ->
  arr_includes (getCachedNames (entry_type e) r) (entry_name e) = true.
Proof.
  intros Hget. apply JsMap_get_values in Hget.
  unfold arr_includes, getCachedNames. apply existsb_exists.
  exists (entry_name e). split; [|apply str_eqb_refl].
  apply in_map, filter_In. split; [done|]. unfold hasType. by apply bool_decide_eq_true.
Qed.

(** Keys of different kinds differ in their first unit. *)
Ltac keys_differ :=
  let H := fresh in
  intros ? ? H; vm_compute in H; discriminate H.

Ltac same_name Hk :=
  unfold mcpKey, pluginKey, skillKey, agentKey in Hk;
  apply app_inv_head in Hk.

Section rebuilt_lookup.
Variable cb : Callbacks.
Variable now : Z.
Let fresh_cache := {| cache := rebuilt cb; lastCacheUpdate := now |}.

Lemma rebuilt_agent (l : list AgentInfo) (a : AgentInfo) :
  getAgentsCallback cb = Returned l -> In a l ->
  cachedFrom agent (agent_name a) fresh_cache.
Proof.
  intros Hsrc Hin.
  assert (exists e, JsMap.get (agentKey a) (rebuilt cb) = Some e
                    /\ entry_name e = agent_name a /\ entry_type e = agent
                    /\ entry_source e = file) as (e & Hget & Hn & Ht & Hs).
  { unfold rebuilt. rewrite Hsrc. cbn [fetched].
    edestruct (addAll_member agentKey agentEntry l) as (a' & _ & Hk & Hget);
      [exact Hin|].
    exists (agentEntry a'). split; [exact Hget|].
    same_name Hk. by rewrite <- Hk. }
  split; [by exists e|].
  rewrite <- Hn, <- Ht. by apply (cached_entry_listed fresh_cache (agentKey a)).
Qed.

Lemma rebuilt_skill (l : list SkillInfo) (s : SkillInfo) :
  getSkillsCallback cb = Returned l -> In s l ->
  cachedFrom skill (skill_name s) fresh_cache.
Proof.
  intros Hsrc Hin.
  assert (exists e, JsMap.get (skillKey s) (rebuilt cb) = Some e
                    /\ entry_name e = skill_name s /\ entry_type e = skill
                    /\ entry_source e = file) as (e & Hget & Hn & Ht & Hs).
  { unfold rebuilt. rewrite Hsrc. cbn [fetched].
    rewrite addAll_other by keys_differ.
    edestruct (addAll_member skillKey skillEntry l) as (s' & _ & Hk & Hget);
      [exact Hin|].
    exists (skillEntry s'). split; [exact Hget|].
    same_name Hk. by rewrite <- Hk. }
  split; [by exists e|].
  rewrite <- Hn, <- Ht. by apply (cached_entry_listed fresh_cache (skillKey s)).
Qed.

Lemma rebuilt_plugin (l : list PluginInfo) (p : PluginInfo) :
  getPluginsCallback cb = Returned l -> In p l ->
  cachedFrom plugin (plugin_name p) fresh_cache.
Proof.
  intros Hsrc Hin.
  assert (exists e, JsMap.get (pluginKey p) (rebuilt cb) = Some e
                    /\ entry_name e = plugin_name p /\ entry_type e = plugin
                    /\ entry_source e = file) as (e & Hget & Hn & Ht & Hs).
  { unfold rebuilt. rewrite Hsrc. cbn [fetched].
    do 2 rewrite addAll_other by keys_differ.
    edestruct (addAll_member pluginKey pluginEntry l) as (p' & _ & Hk & Hget);
      [exact Hin|].
    exists (pluginEntry p'). split; [exact Hget|].
    same_name Hk. by rewrite <- Hk. }
  split; [by exists e|].
  rewrite <- Hn, <- Ht. by apply (cached_entry_listed fresh_cache (pluginKey p)).
Qed.

Lemma rebuilt_mcp (l : list McpInfo) (m : McpInfo) :
  getMcpsCallback cb = Some (Returned l) -> In m l ->
  cachedFrom mcp (mcp_name m) fresh_cache.
Proof.
  intros Hsrc Hin.
  assert (exists e, JsMap.get (mcpKey m) (rebuilt cb) = Some e
                    /\ entry_name e = mcp_name m /\ entry_type e = mcp
                    /\ entry_source e = file) as (e & Hget & Hn & Ht & Hs).
  { unfold rebuilt. rewrite Hsrc. cbn [fetched].
    do 3 rewrite addAll_other by keys_differ.
    edestruct (addAll_member mcpKey (mcpEntry file ∘ mcp_name) l) as (m' & _ & Hk & Hget);
      [exact Hin|].
    exists (mcpEntry file (mcp_name m')). split; [exact Hget|].
    same_name Hk. by rewrite <- Hk. }
  split; [by exists e|].
  rewrite <- Hn, <- Ht. by apply (cached_entry_listed fresh_cache (mcpKey m)).
Qed.
End rebuilt_lookup.

(** C8. A refresh never throws, whatever the four callbacks do, and when
    it rebuilds the snapshot every item of every source that returned is in
    it under its own kind, also when other sources threw. *)
Theorem refresh_isolates_failing_sources
    (now : Z) (cb : Callbacks) (r : ItemTypeResolver) :
  CACHE_TTL <= now - lastCacheUpdate r ->
  let r' := snd (updateCacheIfNeeded now cb r) in
  fst (updateCacheIfNeeded now cb r) = Returned tt
  /\ lastCacheUpdate r' = now
  /\ (forall l m, getMcpsCallback cb = Some (Returned l) -> In m l ->
        cachedFrom mcp (mcp_name m) r')
  /\ (forall l p, getPluginsCallback cb = Returned l -> In p l ->
        cachedFrom plugin (plugin_name p) r')
  /\ (forall l s, getSkillsCallback cb = Returned l -> In s l ->
        cachedFrom skill (skill_name s) r')
  /\ (forall l a, getAgentsCallback cb = Returned l -> In a l ->
        cachedFrom agent (agent_name a) r')
  /\ (forall now0 cb0 r0,
        fst (updateCacheIfNeeded now0 cb0 r0) = Returned tt
        /\ fst (refreshCache now0 cb0 r0) = Returned tt
        /\ forall name, exists k, fst (resolveType now0 cb0 name r0) = Returned k).
Proof.
  intros Httl r'. subst r'. rewrite updateCacheIfNeeded_expired by done.
  cbn [fst snd]. split_and!; try done.
  - intros l m. apply rebuilt_mcp.
  - intros l p. apply rebuilt_plugin.
  - intros l s. apply rebuilt_skill.
  - intros l a. apply rebuilt_agent.
  - intros now0 cb0 r0. split_and!.
    + apply updateCacheIfNeeded_returns.
    + unfold refreshCache, Async.bind, Async.modify. apply updateCacheIfNeeded_returns.
    + intros name. unfold resolveType, Async.bind, Async.gets.
      pose proof (updateCacheIfNeeded_returns now0 cb0 r0) as Hret.
      destruct (updateCacheIfNeeded now0 cb0 r0) as [[[]|e] r1]; [|discriminate].
      by eexists.
Qed.

Lemma refresh_isolates_failing_sources_witness :
  let r' := snd (updateCacheIfNeeded 1700000000000 halfBroken emptyResolver) in
  fst (updateCacheIfNeeded 1700000000000 halfBroken emptyResolver) = Returned tt
  /\ cachedFrom mcp (js "github") r'
  /\ cachedFrom agent (js "Explore") r'.
Proof.
  intros r'.
  destruct (refresh_isolates_failing_sources 1700000000000 halfBroken emptyResolver)
    as (Hret & _ & Hmcp & _ & _ & Hagent & _); [vm_compute; discriminate|].
  split; [exact Hret|]. split.
  - eapply (Hmcp _ {| mcp_name := js "github" |}); [reflexivity | by left].
  - eapply (Hagent _ {| agent_name := js "Explore"; agent_model := MUndefined;
                        agent_color := MNull; agent_category := MUndefined;
                        agent_description := js "explores" |});
      [reflexivity | by left].
Defined.

Example refresh_after_failures :
  let r' := snd (updateCacheIfNeeded 1700000000000 halfBroken emptyResolver) in
  getCachedMcps r' = [js "github"] /\ getCachedPlugins r' = []
  /\ getCachedSkills r' = [] /\ getCachedAgents r' = [js "Explore"].
Proof. vm_compute. done. Qed.

(** ** Generic bulleted names and the registry *)

Lemma str_eqb_sym (a b : str) : str_eqb a b = str_eqb b a.
Proof.
  destruct (str_eqb b a) eqn:E.
  - apply str_eqb_eq in E. subst. apply str_eqb_refl.
  - apply not_true_is_false. intros H. apply str_eqb_eq in H. subst.
    by rewrite str_eqb_refl in E.
Qed.

Lemma includes_cached (r : ItemTypeResolver) (name : str) (k : ItemKind) :
  arr_includes (getCachedNames k r) name = isCachedUnder r name k.
Proof.
  unfold arr_includes, getCachedNames, isCachedUnder.
  induction (JsMap.values (cache r)) as [|e l IH]; simpl; [done|].
  destruct (hasType k e); simpl.
  - rewrite IH, andb_true_r. by rewrite (str_eqb_sym name).
  - by rewrite IH, andb_false_r.
Qed.

Lemma cachedKind_best (r : ItemTypeResolver) (name : str) :
  cachedKind (Some r) name = default agent (bestKind r name).
Proof.
  unfold cachedKind, getCachedMcps, getCachedPlugins, getCachedSkills, getCachedAgents,
    bestKind.
  rewrite !includes_cached. simpl.
  destruct (isCachedUnder r name mcp); [done|].
  destruct (isCachedUnder r name plugin); [done|].
  destruct (isCachedUnder r name skill); [done|].
  by destruct (isCachedUnder r name agent).
Qed.

Lemma filtered_hasType (name : str) (k : ItemKind) (l : list ItemCacheEntry) :
  existsb (hasType k) (List.filter (fun e => str_eqb (entry_name e) name) l)
  = existsb (fun e => str_eqb (entry_name e) name && hasType k e) l.
Proof.
  induction l as [|e l IH]; simpl; [done|].
  destruct (str_eqb (entry_name e) name); simpl; by rewrite IH.
Qed.

Lemma hasType_own (e : ItemCacheEntry) : hasType (entry_type e) e = true.
Proof. unfold hasType. by apply bool_decide_eq_true. Qed.

Lemma hasType_single (e : ItemCacheEntry) :
  List.find (fun k => hasType k e || false) [mcp; plugin; skill; agent]
  = Some (entry_type e).
Proof. unfold hasType. by destruct (entry_type e). Qed.

Lemma resolveCached_best (r : ItemTypeResolver) (name : str) :
  startsWith name (js "/") = false ->
  startsWith name (js "mcp-") = false ->
  resolveCached name r = resolved (bestKind r name).
Proof.
  intros Hslash Hmcp. unfold resolveCached, bestKind, isCachedUnder.
  rewrite Hslash, Hmcp.
  assert (forall k, existsb (fun e => str_eqb (entry_name e) name && hasType k e)
                      (JsMap.values (cache r))
                    = existsb (hasType k)
                        (List.filter (fun e => str_eqb (entry_name e) name)
                           (JsMap.values (cache r)))) as Hk.
  { intros k. by rewrite filtered_hasType. }
  cbn [List.find]. rewrite !Hk.
  destruct (List.filter _ _) as [|e [|e' entries]].
  - reflexivity.
  - cbn [existsb]. unfold hasType. by destruct (entry_type e).
  - set (es := e :: e' :: entries).
    destruct (existsb (hasType mcp) es) eqn:Hm; [done|].
    destruct (existsb (hasType plugin) es) eqn:Hp; [done|].
    destruct (existsb (hasType skill) es) eqn:Hs; [done|].
    destruct (existsb (hasType agent) es) eqn:Ha; [done|].
    exfalso. subst es. cbn [existsb] in *.
    pose proof (hasType_own e) as Hown.
    destruct (entry_type e); rewrite Hown in *; discriminate.
Qed.

Lemma bestKind_Some (r : ItemTypeResolver) (name : str) (k : ItemKind) :
  bestKind r name = Some k
  <-> isCachedUnder r name k = true
      /\ forall k', isCachedUnder r name k' = true -> (rank k <= rank k')%nat.
Proof.
  unfold bestKind. cbn [List.find]. split.
  - intros Hfind. split.
    + destruct (isCachedUnder r name mcp) eqn:Hm; [by injection Hfind as <-|].
      destruct (isCachedUnder r name plugin) eqn:Hp; [by injection Hfind as <-|].
      destruct (isCachedUnder r name skill) eqn:Hs; [by injection Hfind as <-|].
      destruct (isCachedUnder r name agent) eqn:Ha; [by injection Hfind as <-|].
      discriminate.
    + intros k' Hk'.
      destruct (isCachedUnder r name mcp) eqn:Hm;
        [injection Hfind as <-; simpl; lia|].
      destruct (isCachedUnder r name plugin) eqn:Hp;
        [injection Hfind as <-; destruct k'; simpl; (lia || congruence)|].
      destruct (isCachedUnder r name skill) eqn:Hs;
        [injection Hfind as <-; destruct k'; simpl; (lia || congruence)|].
      destruct (isCachedUnder r name agent) eqn:Ha;
        [injection Hfind as <-; destruct k'; simpl; (lia || congruence)|].
      discriminate.
  - intros [Hk Hmin].
    pose proof (Hmin mcp) as Hx. pose proof (Hmin plugin) as Hy.
    pose proof (Hmin skill) as Hz.
    destruct (isCachedUnder r name mcp) eqn:Hm.
    { specialize (Hx eq_refl). destruct k; simpl in Hx; (reflexivity || lia). }
    destruct (isCachedUnder r name plugin) eqn:Hp.
    { specialize (Hy eq_refl). destruct k; simpl in Hy; try (reflexivity || lia).
      congruence. }
    destruct (isCachedUnder r name skill) eqn:Hs.
    { specialize (Hz eq_refl). destruct k; simpl in Hz; try (reflexivity || lia);
        congruence. }
    destruct k; try congruence. by rewrite Hk.
Qed.

Lemma bestKind_None (r : ItemTypeResolver) (name : str) :
  bestKind r name = None <-> forall k, isCachedUnder r name k = false.
Proof.
  unfold bestKind. cbn [List.find]. split.
  - intros H k.
    destruct (isCachedUnder r name mcp) eqn:Hm; [discriminate|].
    destruct (isCachedUnder r name plugin) eqn:Hp; [discriminate|].
    destruct (isCachedUnder r name skill) eqn:Hs; [discriminate|].
    destruct (isCachedUnder r name agent) eqn:Ha; [discriminate|].
    by destruct k.
  - intros H. by rewrite !H.
Qed.

(** ** The matcher on lines of a known shape *)

Section matcher_facts.
Import Regex.
Implicit Types (r : regex) (t : str) (c : caps)
  (k : str -> caps -> option (str * caps)) (v : str * caps).

Lemma run_unit r n0 x t c k v :
  is_unit r -> unit_matches r x = true ->
  k t c = Some v -> run r n0 (x :: t) c k = Some v.
Proof. intros Hu Hx Hk. destruct r; try done; cbn [run]; by rewrite Hx. Qed.

Lemma run_unit_stops r n0 t c k :
  is_unit r -> haltsAt r t -> run r n0 t c k = None.
Proof.
  intros Hu Hs. destruct t as [|x t]; destruct r; try done; cbn [run];
    cbn [haltsAt] in Hs; by rewrite Hs.
Qed.

Lemma star_greedy r n0 k xs t c v :
  is_unit r ->
  Forall (fun x => unit_matches r x = true) xs ->
  haltsAt r t ->
  k t c = Some v ->
  forall fuel, (length (xs ++ t) <= fuel)%nat ->
  star (run r n0) k fuel (xs ++ t) c = Some v.
Proof.
  intros Hu Hxs Hstop Hk. induction Hxs as [|x xs Hx Hxs IH]; intros fuel Hfuel.
  - cbn [app]. destruct fuel as [|fuel]; cbn [star]; [done|].
    by rewrite run_unit_stops.
  - cbn [app length] in *. destruct fuel as [|fuel]; [lia|]. cbn [star].
    erewrite run_unit; [reflexivity | done | done |].
    cbn [length]. rewrite (proj2 (Nat.ltb_lt _ _)) by lia.
    apply IH. lia.
Qed.

Lemma run_star_greedy r n0 k xs t c v :
  is_unit r ->
  Forall (fun x => unit_matches r x = true) xs ->
  haltsAt r t ->
  k t c = Some v ->
  run (RStar r) n0 (xs ++ t) c k = Some v.
Proof. intros. cbn [run]. by apply star_greedy. Qed.

Lemma run_plus_greedy r n0 k x xs t c v :
  is_unit r ->
  unit_matches r x = true ->
  Forall (fun x => unit_matches r x = true) xs ->
  haltsAt r t ->
  k t c = Some v ->
  run (RPlus r) n0 (x :: xs ++ t) c k = Some v.
Proof.
  intros. unfold RPlus. cbn [run]. fold (run r).
  apply run_unit; [done..|]. by apply star_greedy.
Qed.

Lemma run_seq r1 r2 n0 t c k :
  run (RSeq r1 r2) n0 t c k = run r1 n0 t c (fun t' c' => run r2 n0 t' c' k).
Proof. reflexivity. Qed.

Lemma run_empty n0 t c k : run REmpty n0 t c k = k t c.
Proof. reflexivity. Qed.

Lemma run_group n r n0 t c k :
  run (RGroup n r) n0 t c k
  = run r n0 t c (fun t' c' => k t' ((n, take (length t - length t') t) :: c')).
Proof. reflexivity. Qed.

Lemma run_eos n0 c k : run REos n0 [] c k = k [] c.
Proof. reflexivity. Qed.

Lemma run_bos t c k : run RBos (length t) t c k = k t c.
Proof. cbn [run]. by rewrite Nat.eqb_refl. Qed.

Lemma run_alt_left r1 r2 n0 t c k v :
  run r1 n0 t c k = Some v -> run (RAlt r1 r2) n0 t c k = Some v.
Proof. intros H. cbn [run]. by rewrite H. Qed.

Lemma run_alt_right r1 r2 n0 t c k :
  run r1 n0 t c k = None -> run (RAlt r1 r2) n0 t c k = run r2 n0 t c k.
Proof. intros H. cbn [run]. by rewrite H. Qed.

Lemma run_char x n0 t c k : run (RChar x) n0 (x :: t) c k = k t c.
Proof. cbn [run unit_matches]. by rewrite N.eqb_refl. Qed.

Lemma take_consumed {A} (xs t : list A) :
  take (length (xs ++ t) - length t) (xs ++ t) = xs.
Proof.
  rewrite length_app. replace (length xs + length t - length t)%nat with (length xs) by lia.
  by rewrite take_app_length.
Qed.

Lemma exec_at_start r t c :
  run r (length t) t [] accept = Some ([], c) ->
  exec r t = Some {| index := 0; matched := t; groups := c |}.
Proof.
  intros Hrun. unfold exec.
  assert (exec_from r (length t) 0 t
          = match run r (length t) t [] accept with
            | Some (t', c) =>
                Some {| index := 0; matched := take (length t - length t') t;
                        groups := c |}
            | None => match t with [] => None | _ :: t' => exec_from r (length t) 1 t' end
            end) as -> by (by destruct t).
  rewrite Hrun. change (length (@nil N)) with 0%nat.
  by rewrite Nat.sub_0_r, firstn_all.
Qed.
End matcher_facts.

Lemma trim_fixed (x : N) (t : str) (y : N) :
  isSpace x = false -> isSpace y = false -> trim (x :: t ++ [y]) = x :: t ++ [y].
Proof.
  intros Hx Hy. unfold trim. cbn [trimStart]. rewrite Hx.
  unfold trimEnd. change (x :: t ++ [y]) with ((x :: t) ++ [y]).
  rewrite rev_unit. cbn [trimStart]. rewrite Hy.
  by rewrite <- rev_unit, rev_involutive.
Qed.

Lemma trim_fixed_single (x : N) :
  isSpace x = false -> trim [x] = [x].
Proof. intros Hx. unfold trim, trimEnd. cbn. rewrite Hx. cbn. by rewrite Hx. Qed.

Lemma nameUnit_not_space x : isNameUnit x = true -> isSpace x = false.
Proof.
  unfold isNameUnit, Regex.isWord, Regex.isDigit, Regex.isUpper, Regex.isLower, isSpace.
  intros H. apply not_true_is_false. intros Hs.
  rewrite ?orb_true_iff, ?andb_true_iff, ?N.leb_le, ?N.eqb_eq in H.
  rewrite ?orb_true_iff, ?andb_true_iff, ?N.leb_le, ?N.eqb_eq in Hs.
  lia.
Qed.

Section shapes.
Import Regex.

(** The tail shared by the three bulleted patterns: the optional
    description and the end of the line. *)
Lemma run_description n0 desc c :
  goodDesc desc ->
  run (RSeq (ROpt (seq [lit (js "("); RGroup 2 (RPlus (ncls [CChr 41]));
                        lit (js ")")]))
            (RSeq REos REmpty)) n0 (descText desc) c accept
  = Some ([], descGroups desc c).
Proof.
  intros Hdesc. destruct desc as [d|]; cbn [descText descGroups goodDesc] in *.
  - destruct Hdesc as [Hne Hd]. destruct d as [|y d]; [done|].
    apply Forall_cons in Hd as [Hy Hd].
    rewrite run_seq. apply run_alt_left.
    change (js "(") with [40%N]. change (js ")") with [41%N].
    unfold lit. cbn [List.map]. unfold seq. cbn [foldr app].
    rewrite !run_seq, run_char, run_empty. cbv beta.
    rewrite run_seq, run_group.
    change (y :: d ++ [41%N]) with ((y :: d) ++ [41%N]) at 2 3.
    apply run_plus_greedy; [done | | | |].
    + cbn. by apply N.eqb_neq in Hy as ->.
    + eapply Forall_impl; [exact Hd|]. intros x Hx. cbn.
      by apply N.eqb_neq in Hx as ->.
    + reflexivity.
    + rewrite take_consumed. by rewrite !run_seq, run_char.
  - rewrite run_seq. unfold ROpt.
    by rewrite run_alt_right.
Qed.

Lemma nameUnit_matches x :
  unit_matches (cls [CWord; CChr 45]) x = isNameUnit x.
Proof. unfold isNameUnit. cbn. by rewrite orb_false_r. Qed.

Lemma space_matches x : unit_matches s x = isSpace x.
Proof. cbn. by rewrite orb_false_r. Qed.

(** What the slash pattern finds in a line of the slash shape. *)
Lemma slash_shape_matches (ws1 ws2 name : str) (desc : option str) :
  Forall (fun x => isSpace x = true) ws1 ->
  Forall (fun x => isSpace x = true) ws2 ->
  name <> [] ->
  Forall (fun x => isNameUnit x = true) name ->
  goodDesc desc ->
  exec SKILL_FORMAT_PATTERN (slashLine ws1 ws2 name desc)
  = Some {| index := 0; matched := slashLine ws1 ws2 name desc;
            groups := descGroups desc [(1%nat, name)] |}.
Proof.
  intros Hws1 Hws2 Hne Hname Hdesc. apply exec_at_start.
  unfold SKILL_FORMAT_PATTERN. cbv zeta. unfold seq at 1. cbn [foldr].
  rewrite run_seq, run_bos. cbv beta.
  generalize (length (slashLine ws1 ws2 name desc)). intros n0.
  unfold slashLine. change (js "/") with [47%N]. cbn [app].
  rewrite run_seq, run_char. cbv beta.
  rewrite run_seq. apply run_star_greedy; [done | | reflexivity |].
  { eapply Forall_impl; [exact Hws1|]. intros x Hx. by rewrite space_matches. }
  unfold lit. cbn [List.map]. unfold seq at 1. cbn [foldr].
  rewrite !run_seq, run_char, run_empty. cbv beta.
  destruct name as [|x name]; [done|]. apply Forall_cons in Hname as [Hx Hname].
  rewrite run_seq. apply run_star_greedy; [done | | |].
  { eapply Forall_impl; [exact Hws2|]. intros z Hz. by rewrite space_matches. }
  { cbn [app haltsAt]. rewrite space_matches. by apply nameUnit_not_space. }
  rewrite run_seq, run_group. cbn [app].
  apply run_plus_greedy; [done | | | |].
  - by rewrite nameUnit_matches.
  - eapply Forall_impl; [exact Hname|]. intros z Hz. by rewrite nameUnit_matches.
  - by destruct desc.
  - change (x :: name ++ descText desc) with ((x :: name) ++ descText desc).
    rewrite take_consumed. by apply run_description.
Qed.

Lemma slashLine_trimmed (ws1 ws2 name : str) (desc : option str) :
  name <> [] ->
  Forall (fun x => isNameUnit x = true) name ->
  trim (slashLine ws1 ws2 name desc) = slashLine ws1 ws2 name desc.
Proof.
  intros Hne Hname. unfold slashLine. destruct desc as [d|]; cbn [descText].
  - change (js ")") with [41%N].
    replace ([BULLET] ++ ws1 ++ js "/" ++ ws2 ++ name ++ js "(" ++ d ++ [41%N])
      with (BULLET :: (ws1 ++ js "/" ++ ws2 ++ name ++ js "(" ++ d) ++ [41%N])
      by (cbn [app]; by rewrite <- !app_assoc).
    by apply trim_fixed.
  - destruct (exists_last Hne) as (name0 & z & ->).
    apply Forall_app in Hname as [_ Hz]. apply Forall_cons in Hz as [Hz _].
    replace ([BULLET] ++ ws1 ++ js "/" ++ ws2 ++ (name0 ++ [z]) ++ [])
      with (BULLET :: (ws1 ++ js "/" ++ ws2 ++ name0) ++ [z])
      by (cbn [app]; by rewrite app_nil_r, <- !app_assoc).
    apply trim_fixed; [done|]. by apply nameUnit_not_space.
Qed.
End shapes.

Section generic_shape.
Import Regex.
Implicit Types (r : regex) (t : str) (c : caps)
  (k : str -> caps -> option (str * caps)).

Lemma star_gives_up r n0 k xs t c :
  is_unit r ->
  Forall (fun x => unit_matches r x = true) xs ->
  haltsAt r t ->
  (forall i, k (drop i xs ++ t) c = None) ->
  forall fuel, star (run r n0) k fuel (xs ++ t) c = None.
Proof.
  intros Hu Hxs Hstop. induction Hxs as [|x xs Hx Hxs IH]; intros Hk fuel.
  - cbn [app]. pose proof (Hk 0%nat) as Hk0. cbn in Hk0.
    destruct fuel as [|fuel]; cbn [star]; [done|]. by rewrite run_unit_stops.
  - pose proof (Hk 0%nat) as Hk0. cbn [drop] in Hk0.
    destruct fuel as [|fuel]; cbn [star]; [done|].
    cbn [app] in *. rewrite Hk0.
    destruct r; try done; cbn [run]; rewrite Hx; cbn [length];
      rewrite (proj2 (Nat.ltb_lt _ _)) by lia;
      rewrite IH; try done; intros i; apply (Hk (S i)).
Qed.

Lemma run_star_gives_up r n0 k xs t c :
  is_unit r ->
  Forall (fun x => unit_matches r x = true) xs ->
  haltsAt r t ->
  (forall i, k (drop i xs ++ t) c = None) ->
  run (RStar r) n0 (xs ++ t) c k = None.
Proof. intros. cbn [run]. by apply star_gives_up. Qed.

Lemma run_unit_fails r n0 x t c k :
  is_unit r -> unit_matches r x = false -> run r n0 (x :: t) c k = None.
Proof. intros Hu Hx. by apply run_unit_stops. Qed.

(** An anchored pattern is tried at the start only. *)
Lemma exec_from_later r n0 t i :
  (length t < n0)%nat -> exec_from (RSeq RBos r) n0 i t = None.
Proof.
  revert i. induction t as [|x t IH]; intros i Hlen; cbn [exec_from run].
  - rewrite (proj2 (Nat.eqb_neq _ _)); [done | cbn in *; lia].
  - rewrite (proj2 (Nat.eqb_neq _ _)) by lia. apply IH. cbn in Hlen. lia.
Qed.

Lemma exec_anchored_none r t :
  run (RSeq RBos r) (length t) t [] accept = None ->
  exec (RSeq RBos r) t = None.
Proof.
  intros Hrun. unfold exec. destruct t as [|x t].
  - cbn [exec_from]. by rewrite Hrun.
  - cbn [exec_from]. rewrite Hrun. apply exec_from_later. cbn. lia.
Qed.

(** The units that may begin what follows the blanks of a generic line. *)
Lemma drop_blank_or_name (ws name rest : str) (i : nat) :
  Forall (fun x => isSpace x = true) ws ->
  name <> [] ->
  Forall (fun x => isNameUnit x = true) name ->
  exists x t, drop i ws ++ name ++ rest = x :: t
              /\ (isSpace x = true \/ drop i ws = [] /\ isNameUnit x = true).
Proof.
  intros Hws Hne Hname. destruct (drop i ws) as [|x t] eqn:Hdrop.
  - destruct name as [|x name]; [done|]. apply Forall_cons in Hname as [Hx _].
    exists x, (name ++ rest). split; [done|]. by right.
  - exists x, (t ++ name ++ rest). split; [done|]. left.
    assert (Forall (fun x => isSpace x = true) (drop i ws)) as Hd
      by (by apply Forall_drop).
    rewrite Hdrop in Hd. by apply Forall_cons in Hd as [? _].
Qed.

Lemma slash_is_no_blank_or_name x :
  isSpace x = true \/ isNameUnit x = true -> (x =? 47)%N = false.
Proof.
  intros H. apply N.eqb_neq. intros ->. by destruct H.
Qed.

Lemma skill_pattern_fails (ws name : str) (desc : option str) :
  Forall (fun x => isSpace x = true) ws ->
  name <> [] ->
  Forall (fun x => isNameUnit x = true) name ->
  exec SKILL_FORMAT_PATTERN (genericLine ws name desc) = None.
Proof.
  intros Hws Hne Hname. unfold SKILL_FORMAT_PATTERN. cbv zeta.
  unfold seq at 1. cbn [foldr]. apply exec_anchored_none.
  rewrite run_seq, run_bos. cbv beta.
  generalize (length (genericLine ws name desc)). intros n0.
  unfold genericLine. cbn [app].
  rewrite run_seq, run_char. cbv beta.
  rewrite run_seq. apply run_star_gives_up; [done | | |].
  - eapply Forall_impl; [exact Hws|]. intros x Hx. by rewrite space_matches.
  - destruct name as [|x name]; [done|]. apply Forall_cons in Hname as [Hx _].
    cbn [app haltsAt]. rewrite space_matches. by apply nameUnit_not_space.
  - intros i.
    destruct (drop_blank_or_name ws name (descText desc) i Hws Hne Hname)
      as (x & t & -> & Hx).
    unfold lit. change (js "/") with [47%N]. cbn [List.map]. unfold seq at 1.
    cbn [foldr]. rewrite !run_seq. apply run_unit_fails; [done|].
    cbn [unit_matches]. apply slash_is_no_blank_or_name. tauto.
Qed.

Lemma run_char_cons a n0 x t c k :
  run (RChar a) n0 (x :: t) c k = if (x =? a)%N then k t c else None.
Proof. reflexivity. Qed.

Lemma run_unit_nil r n0 c k : is_unit r -> run r n0 [] c k = None.
Proof. intros. by apply run_unit_stops. Qed.

(** What follows "mcp" in the mcp pattern: a dash, an underscore or a colon. *)
Lemma mcp_separator x :
  unit_matches (cls [CChr 45; CChr 95; CChr 58]) x
  = ((x =? 45) || (x =? 95) || (x =? 58))%N.
Proof. cbn. by rewrite orb_false_r, orb_assoc. Qed.

(** The head of the mcp pattern fails on a name without the mcp prefix,
    whatever comes after the separator class. *)
Lemma mcp_head_fails (name : str) (desc : option str) n0 c k (tail : regex) :
  Forall (fun x => isNameUnit x = true) name ->
  startsWith name (js "mcp-") = false ->
  startsWith name (js "mcp_") = false ->
  run (RSeq (lit (js "mcp")) (RSeq (cls [CChr 45; CChr 95; CChr 58]) tail))
      n0 (name ++ descText desc) c k = None.
Proof.
  intros Hname Hdash Hunder.
  assert (forall c' k', run (RChar 109) n0 (descText desc) c' k' = None
                           /\ run (RChar 99) n0 (descText desc) c' k' = None
                           /\ run (RChar 112) n0 (descText desc) c' k' = None
                           /\ run (cls [CChr 45; CChr 95; CChr 58]) n0 (descText desc) c' k'
                              = None) as Hdesc.
  { intros c' k'. by destruct desc. }
  change (js "mcp") with [109%N; 99%N; 112%N].
  change (js "mcp-") with [109%N; 99%N; 112%N; 45%N] in Hdash.
  change (js "mcp_") with [109%N; 99%N; 112%N; 95%N] in Hunder.
  unfold lit. cbn [List.map]. unfold seq. cbn [foldr].
  rewrite !run_seq.
  destruct name as [|n1 name]; cbn [app]; [by apply Hdesc|].
  rewrite run_char_cons. cbn [startsWith] in Hdash, Hunder.
  destruct (n1 =? 109)%N; [|done]. cbv beta. rewrite !run_seq.
  destruct name as [|n2 name]; cbn [app]; [by apply Hdesc|].
  rewrite run_char_cons. cbn [startsWith] in Hdash, Hunder.
  destruct (n2 =? 99)%N; [|done]. cbv beta. rewrite !run_seq.
  destruct name as [|n3 name]; cbn [app]; [by apply Hdesc|].
  rewrite run_char_cons. cbn [startsWith] in Hdash, Hunder.
  destruct (n3 =? 112)%N; [|done]. cbv beta. rewrite run_empty, !run_seq.
  destruct name as [|n4 name]; cbn [app]; [by apply Hdesc|].
  apply run_unit_fails; [done|]. rewrite mcp_separator.
  cbn [startsWith andb] in Hdash, Hunder.
  assert (startsWith name [] = true) as Hnil by (by destruct name).
  rewrite Hnil, andb_true_r in Hdash, Hunder. rewrite Hdash, Hunder. cbn [orb].
  do 3 apply Forall_cons in Hname as [_ Hname].
  apply Forall_cons in Hname as [Hn4 _].
  apply N.eqb_neq. intros ->. done.
Qed.

Lemma mcp_pattern_fails (ws name : str) (desc : option str) :
  Forall (fun x => isSpace x = true) ws ->
  name <> [] ->
  Forall (fun x => isNameUnit x = true) name ->
  startsWith name (js "mcp-") = false ->
  startsWith name (js "mcp_") = false ->
  exec MCP_FORMAT_PATTERN (genericLine ws name desc) = None.
Proof.
  intros Hws Hne Hname Hdash Hunder. unfold MCP_FORMAT_PATTERN. cbv zeta.
  unfold seq at 1. cbn [foldr]. apply exec_anchored_none.
  rewrite run_seq, run_bos. cbv beta.
  generalize (length (genericLine ws name desc)). intros n0.
  unfold genericLine. cbn [app].
  rewrite run_seq, run_char. cbv beta.
  rewrite run_seq. apply run_star_gives_up; [done | | |].
  - eapply Forall_impl; [exact Hws|]. intros x Hx. by rewrite space_matches.
  - destruct name as [|x name]; [done|]. apply Forall_cons in Hname as [Hx _].
    cbn [app haltsAt]. rewrite space_matches. by apply nameUnit_not_space.
  - intros i. destruct (drop i ws) as [|x t] eqn:Hdrop.
    + cbn [app]. by apply mcp_head_fails.
    + assert (Forall (fun x => isSpace x = true) (drop i ws)) as Hd
        by (by apply Forall_drop).
      rewrite Hdrop in Hd. apply Forall_cons in Hd as [Hx _].
      change (js "mcp") with [109%N; 99%N; 112%N].
      unfold lit. cbn [List.map]. unfold seq at 1. cbn [foldr app].
      rewrite !run_seq. apply run_unit_fails; [done|].
      cbn [unit_matches]. apply N.eqb_neq. intros ->. done.
Qed.

(** What the generic pattern finds in a line of the generic shape. *)
Lemma generic_shape_matches (ws name : str) (desc : option str) :
  Forall (fun x => isSpace x = true) ws ->
  name <> [] ->
  Forall (fun x => isNameUnit x = true) name ->
  goodDesc desc ->
  exec AGENT_FORMAT_PATTERN (genericLine ws name desc)
  = Some {| index := 0; matched := genericLine ws name desc;
            groups := descGroups desc [(1%nat, name)] |}.
Proof.
  intros Hws Hne Hname Hdesc. apply exec_at_start.
  unfold AGENT_FORMAT_PATTERN. cbv zeta. unfold seq at 1. cbn [foldr].
  rewrite run_seq, run_bos. cbv beta.
  generalize (length (genericLine ws name desc)). intros n0.
  unfold genericLine. cbn [app].
  rewrite run_seq, run_char. cbv beta.
  destruct name as [|x name]; [done|]. apply Forall_cons in Hname as [Hx Hname].
  rewrite run_seq. apply run_star_greedy; [done | | |].
  { eapply Forall_impl; [exact Hws|]. intros z Hz. by rewrite space_matches. }
  { cbn [app haltsAt]. rewrite space_matches. by apply nameUnit_not_space. }
  rewrite run_seq, run_group. cbn [app].
  apply run_plus_greedy; [done | | | |].
  - by rewrite nameUnit_matches.
  - eapply Forall_impl; [exact Hname|]. intros z Hz. by rewrite nameUnit_matches.
  - by destruct desc.
  - change (x :: name ++ descText desc) with ((x :: name) ++ descText desc).
    rewrite take_consumed. by apply run_description.
Qed.

Lemma genericLine_trimmed (ws name : str) (desc : option str) :
  name <> [] ->
  Forall (fun x => isNameUnit x = true) name ->
  trim (genericLine ws name desc) = genericLine ws name desc.
Proof.
  intros Hne Hname. unfold genericLine. destruct desc as [d|]; cbn [descText].
  - change (js ")") with [41%N].
    replace ([BULLET] ++ ws ++ name ++ js "(" ++ d ++ [41%N])
      with (BULLET :: (ws ++ name ++ js "(" ++ d) ++ [41%N])
      by (cbn [app]; by rewrite <- !app_assoc).
    by apply trim_fixed.
  - destruct (exists_last Hne) as (name0 & z & ->).
    apply Forall_app in Hname as [_ Hz]. apply Forall_cons in Hz as [Hz _].
    replace ([BULLET] ++ ws ++ (name0 ++ [z]) ++ [])
      with (BULLET :: (ws ++ name0) ++ [z])
      by (cbn [app]; by rewrite app_nil_r, <- !app_assoc).
    apply trim_fixed; [done|]. by apply nameUnit_not_space.
Qed.
End generic_shape.

(** ** Generic bulleted lines *)

(** C6. A line that reaches the generic bulleted rule (it matches neither
    the slash form nor the mcp form), and so every line made of the bullet,
    blanks, a name of word units and dashes without the mcp prefix and an
    optional description, is given the kind its name is cached under: the
    only one when there is one, the first of MCP, plugin, skill, agent when
    there are several, agent when there is none. For a name that does not
    itself begin with "/" or "mcp-", [resolveType] answers with the same
    kind, and with [unknown] where the parser falls back to agent. *)
Theorem generic_bullet_takes_cached_kind (p : OutputParser) (r : ItemTypeResolver) :
  itemTypeResolver p = Some r ->
  (forall now line m,
     line <> [] ->
     Regex.exec SKILL_FORMAT_PATTERN (trim line) = None ->
     Regex.exec MCP_FORMAT_PATTERN (trim line) = None ->
     Regex.exec AGENT_FORMAT_PATTERN (trim line) = Some m ->
     let name := groupOf 1 m in
     let k := default agent (bestKind r name) in
     parseLine now line p
     = (Some {| type := callType k; timestamp := now; content := groupOr 2 m name;
                details := [(kindProp k, VStr name); ("name", VStr name);
                            ("raw", VStr line)] |}, p))
  /\ (forall now ws name desc,
        Forall (fun x => isSpace x = true) ws ->
        name <> [] ->
        Forall (fun x => isNameUnit x = true) name ->
        startsWith name (js "mcp-") = false ->
        startsWith name (js "mcp_") = false ->
        goodDesc desc ->
        let k := default agent (bestKind r name) in
        parseLine now (genericLine ws name desc) p
        = (Some {| type := callType k; timestamp := now;
                   content := default name desc;
                   details := [(kindProp k, VStr name); ("name", VStr name);
                               ("raw", VStr (genericLine ws name desc))] |}, p))
  /\ (forall r0 name k0,
        bestKind r0 name = Some k0
        <-> isCachedUnder r0 name k0 = true
            /\ forall k1, isCachedUnder r0 name k1 = true -> (rank k0 <= rank k1)%nat)
  /\ (forall r0 name k0,
        isCachedUnder r0 name k0 = true ->
        (forall k1, isCachedUnder r0 name k1 = true -> k1 = k0) ->
        bestKind r0 name = Some k0)
  /\ (forall r0 name,
        bestKind r0 name = None <-> forall k1, isCachedUnder r0 name k1 = false)
  /\ (forall name,
        startsWith name (js "/") = false ->
        startsWith name (js "mcp-") = false ->
        (forall now0 cb,
           let r' := snd (updateCacheIfNeeded now0 cb r) in
           resolveType now0 cb name r = (Returned (resolved (bestKind r' name)), r'))
        /\ (forall now0 cb,
              now0 - lastCacheUpdate r < CACHE_TTL ->
              resolveType now0 cb name r = (Returned (resolved (bestKind r name)), r))).
Proof.
  intros Hres.
  assert (forall now line m,
     line <> [] ->
     Regex.exec SKILL_FORMAT_PATTERN (trim line) = None ->
     Regex.exec MCP_FORMAT_PATTERN (trim line) = None ->
     Regex.exec AGENT_FORMAT_PATTERN (trim line) = Some m ->
     parseLine now line p
     = (Some {| type := callType (default agent (bestKind r (groupOf 1 m)));
                timestamp := now; content := groupOr 2 m (groupOf 1 m);
                details := [(kindProp (default agent (bestKind r (groupOf 1 m))),
                             VStr (groupOf 1 m));
                            ("name", VStr (groupOf 1 m)); ("raw", VStr line)] |}, p))
    as Hrule.
  { intros now line m Hline Hskill Hmcp Hagent. unfold parseLine.
    destruct line as [|c line']; [done|].
    rewrite Hskill, Hmcp, Hagent, Hres. by rewrite cachedKind_best. }
  split_and!.
  - exact Hrule.
  - intros now ws name desc Hws Hne Hname Hdash Hunder Hdesc k.
    rewrite (Hrule now (genericLine ws name desc)
               {| Regex.index := 0; Regex.matched := genericLine ws name desc;
                  Regex.groups := descGroups desc [(1%nat, name)] |}).
    + unfold groupOf, groupOr, Regex.group. cbn [Regex.groups].
      destruct desc as [[|y d]|]; [by destruct Hdesc | reflexivity | reflexivity].
    + done.
    + rewrite genericLine_trimmed by done. by apply skill_pattern_fails.
    + rewrite genericLine_trimmed by done. by apply mcp_pattern_fails.
    + rewrite genericLine_trimmed by done. by apply generic_shape_matches.
  - intros r0 name k0. apply bestKind_Some.
  - intros r0 name k0 Hk0 Honly. apply bestKind_Some. split; [done|].
    intros k1 Hk1. by rewrite (Honly k1 Hk1).
  - intros r0 name. apply bestKind_None.
  - intros name Hns Hnm. split.
    + intros now0 cb r'. unfold resolveType, Async.bind, Async.gets.
      pose proof (updateCacheIfNeeded_returns now0 cb r) as Hret. subst r'.
      destruct (updateCacheIfNeeded now0 cb r) as [[[]|e] r1]; [|discriminate].
      cbn [snd]. by rewrite resolveCached_best.
    + intros now0 cb Hfresh. unfold resolveType, Async.bind, Async.gets.
      unfold updateCacheIfNeeded. apply Z.ltb_lt in Hfresh. rewrite Hfresh.
      unfold Async.ret. by rewrite resolveCached_best.
Qed.

(** "Explore" is cached as a plugin and as an agent: the plugin wins, in the
    parser and in [resolveType]. *)
Lemma generic_bullet_takes_cached_kind_witness :
  (type <$> fst (parseLine 0 (js "● Explore(find files)") sampleParser))
    = Some plugin_call
  /\ resolveType 1700000001000 halfBroken (js "Explore") sampleResolver
     = (Returned (known plugin), sampleResolver).
Proof.
  destruct (generic_bullet_takes_cached_kind sampleParser sampleResolver eq_refl)
    as (Hrule & _ & _ & _ & _ & Hresolve).
  split.
  - pose proof (Hrule 0 (js "● Explore(find files)")) as H.
    specialize (H _ ltac:(discriminate) ltac:(vm_compute; reflexivity)
                  ltac:(vm_compute; reflexivity) ltac:(vm_compute; reflexivity)).
    rewrite H. vm_compute. reflexivity.
  - destruct (Hresolve (js "Explore")) as [_ Hfresh];
      [vm_compute; reflexivity | vm_compute; reflexivity |].
    exact (Hfresh 1700000001000 halfBroken eq_refl).
Defined.

(** One kind, several kinds, no kind, and no resolver at all. *)
Example generic_bullet_kinds :
  List.map (fun line => type <$> fst (parseLine 0 line sampleParser))
    [js "● lint"; js "● Explore"; js "● deploy(ship it)"]
  = [Some skill_call; Some plugin_call; Some agent_call]
  /\ List.map (fun name => resolveCached name sampleResolver)
       [js "lint"; js "Explore"; js "deploy"]
     = [known skill; known plugin; unknown]
  /\ (type <$> fst (parseLine 0 (js "● lint")
                      {| itemTypeResolver := None; discoveredMcps := [] |}))
     = Some agent_call.
Proof. vm_compute. done. Qed.

(** ** The slash form *)

Lemma checkEnd_no_signal now event w :
  isEndSignal (content event) = false -> checkEnd now event w = w.
Proof. intros H. unfold checkEnd. rewrite H. by destruct (content event). Qed.

(** A skill event with a skill name runs the second start block only. *)
Lemma startItems_skill now event w id :
  type event = skill_call ->
  truthyStr "skill" (details event) = Some id ->
  startItems now event w
  = onRunningState now id (content event) skill start
      (set_activeTimeouts (<[id := nextHandle w]> (activeTimeouts w))
         (set_timers (enqueue {| handle := nextHandle w; due := now + AGENT_TIMEOUT;
                                 timer_id := id; timer_type := skill |} (timers w))
                     (S (nextHandle w))
                     (set_activeIds (JsMap.set id skill (activeIds w)) w))).
Proof.
  intros Htype Hid. unfold startItems, startItem at 4.
  rewrite Htype. cbn [callType].
  rewrite (bool_decide_eq_false_2 (skill_call = agent_call)) by discriminate.
  unfold startItem at 3. rewrite Htype. cbn [callType kindProp].
  rewrite (bool_decide_eq_true_2 (skill_call = skill_call)) by reflexivity.
  rewrite Hid. cbn.
  unfold startItem. cbn [type callType].
  rewrite Htype.
  rewrite (bool_decide_eq_false_2 (skill_call = plugin_call)) by discriminate.
  rewrite (bool_decide_eq_false_2 (skill_call = mcp_call)) by discriminate.
  reflexivity.
Qed.

(** The fields that track running items, after a pass, are those the loop
    over the unique events leaves. *)
Lemma dispatch_tracking now uniqueEvents w :
  let looped := fold_left (processEvent now) uniqueEvents w in
  let w' := dispatch now uniqueEvents w in
  activeIds w' = activeIds looped /\ activeTimeouts w' = activeTimeouts looped
  /\ timers w' = timers looped /\ runningStateCalls w' = runningStateCalls looped.
Proof.
  intros looped w'. subst w'. unfold dispatch. fold looped.
  unfold trimBuffer.
  destruct (Nat.ltb 0 (length uniqueEvents)); by destruct (Nat.ltb 1000 _).
Qed.

Lemma parse_commit now p : parse now commitChunk p = ([commitEvent now], p).
Proof. vm_compute. reflexivity. Qed.

Lemma handle_commit now w :
  fst (deduplicateEvents now [commitEvent now] (recentEvents w)) = [commitEvent now] ->
  exists w0,
    handleTerminalData now commitChunk w = dispatch now [commitEvent now] w0
    /\ activeIds w0 = activeIds w /\ activeTimeouts w0 = activeTimeouts w
    /\ timers w0 = timers w /\ nextHandle w0 = nextHandle w
    /\ runningStateCalls w0 = runningStateCalls w.
Proof.
  intros Hfirst. unfold handleTerminalData.
  assert (existsb (fun p => includes commitChunk p) quickPatterns = true) as ->
    by (vm_compute; reflexivity).
  assert (startsWith (trim commitChunk) (js "> ")
          || Regex.test USER_INPUT_PATTERN (trim commitChunk) = false) as ->
    by (vm_compute; reflexivity).
  cbn [negb]. rewrite parse_commit. cbn [length Nat.eqb].
  change (recentEvents (set_parser (parser w) w)) with (recentEvents w).
  destruct (deduplicateEvents now [commitEvent now] (recentEvents w))
    as [uniqueEvents recent'].
  cbn [fst] in Hfirst. subst uniqueEvents.
  exists (set_recentEvents recent' (set_parser (parser w) w)).
  split; [reflexivity|]. by cbn.
Qed.

(** C7. A line the slash pattern matches is a skill call whatever the
    parser's resolver holds, and no other rule is consulted; every line made
    of the bullet, blanks, "/", blanks, a name of word units and dashes and
    an optional parenthesized description is such a line, with the name as
    [details.skill] and the description, or else the name, as content. The chunk
    "● /commit(Create a git commit)" is parsed to the one skill call with
    that description and [details.skill = "commit"]; when it is not a
    repeat, the pass records "commit" as an active skill, arms its timeout,
    reports the start, and the manager fed by that report shows "commit"
    running as a skill. *)
Theorem slash_name_is_always_skill :
  (forall now line p m,
     line <> [] ->
     Regex.exec SKILL_FORMAT_PATTERN (trim line) = Some m ->
     parseLine now line p
     = (Some {| type := skill_call; timestamp := now;
                content := groupOr 2 m (groupOf 1 m);
                details := [("skill", VStr (groupOf 1 m)); ("name", VStr (groupOf 1 m));
                            ("raw", VStr line)] |}, p))
  /\ (forall now ws1 ws2 name desc p,
        Forall (fun x => isSpace x = true) ws1 ->
        Forall (fun x => isSpace x = true) ws2 ->
        name <> [] ->
        Forall (fun x => isNameUnit x = true) name ->
        goodDesc desc ->
        parseLine now (slashLine ws1 ws2 name desc) p
        = (Some {| type := skill_call; timestamp := now;
                   content := default name desc;
                   details := [("skill", VStr name); ("name", VStr name);
                               ("raw", VStr (slashLine ws1 ws2 name desc))] |}, p))
  /\ (forall now p, parse now commitChunk p = ([commitEvent now], p))
  /\ (forall now w,
        fst (deduplicateEvents now [commitEvent now] (recentEvents w))
        = [commitEvent now] ->
        let w' := handleTerminalData now commitChunk w in
        JsMap.get (js "commit") (activeIds w') = Some skill
        /\ runningStateCalls w' = runningStateCalls w ++ [commitStart now]
        /\ activeTimeouts w' !! js "commit" = Some (nextHandle w)
        /\ timers w'
           = enqueue {| handle := nextHandle w; due := now + 10000;
                        timer_id := js "commit"; timer_type := skill |} (timers w)
        /\ (item_type <$> JsMap.get (js "commit") (tracked w')) = Some skill).
Proof.
  assert (forall now line p m,
     line <> [] ->
     Regex.exec SKILL_FORMAT_PATTERN (trim line) = Some m ->
     parseLine now line p
     = (Some {| type := skill_call; timestamp := now;
                content := groupOr 2 m (groupOf 1 m);
                details := [("skill", VStr (groupOf 1 m)); ("name", VStr (groupOf 1 m));
                            ("raw", VStr line)] |}, p)) as Hfirst_rule.
  { intros now line p m Hline Hmatch. unfold parseLine.
    destruct line as [|c line']; [done|]. by rewrite Hmatch. }
  split_and!.
  - exact Hfirst_rule.
  - intros now ws1 ws2 name desc p Hws1 Hws2 Hne Hname Hdesc.
    erewrite Hfirst_rule; [|done|].
    2: { rewrite slashLine_trimmed by done. by apply slash_shape_matches. }
    unfold groupOf, groupOr, Regex.group. cbn [Regex.groups].
    destruct desc as [[|y d]|]; [by destruct Hdesc | reflexivity | reflexivity].
  - apply parse_commit.
  - intros now w Hfirst w'. subst w'.
    destruct (handle_commit now w Hfirst) as (w0 & -> & Hids & Htimeouts & Htimers & Hnext & Hcalls).
    destruct (dispatch_tracking now [commitEvent now] w0) as (-> & -> & -> & Hlog).
    assert (runningStateCalls (dispatch now [commitEvent now] w0)
            = runningStateCalls w ++ [commitStart now]) as Hcalls'.
    { rewrite Hlog. cbn [fold_left]. unfold processEvent.
      rewrite checkEnd_no_signal by (vm_compute; reflexivity).
      rewrite (startItems_skill now (commitEvent now) w0 (js "commit"))
        by (vm_compute; reflexivity).
      cbn [pushEvent set_heap set_eventBuffer onRunningState runningStateCalls
           set_activeTimeouts set_timers set_activeIds content commitEvent].
      by rewrite Hcalls. }
    unfold tracked. rewrite Hcalls', fold_left_app. clear Hlog Hcalls'.
    cbn [fold_left]. unfold processEvent.
    rewrite checkEnd_no_signal by (vm_compute; reflexivity).
    rewrite (startItems_skill now (commitEvent now) w0 (js "commit"))
      by (vm_compute; reflexivity).
    cbn [pushEvent set_heap set_eventBuffer onRunningState set_activeTimeouts
         set_timers set_activeIds activeIds activeTimeouts timers].
    rewrite Hids, Htimeouts, Htimers, Hnext. split_and!.
    + apply JsMap_get_set_eq.
    + reflexivity.
    + apply lookup_insert_eq.
    + reflexivity.
    + unfold runningStateCallback, commitStart, startRunning. cbn [call_state call_id].
      by rewrite JsMap_get_set_eq.
Qed.

(** On a new listener the chunk is not a repeat. *)
Lemma slash_name_is_always_skill_witness :
  let w' := handleTerminalData 0 commitChunk (newListener None) in
  fst (parseLine 0 (js "● /commit(Create a git commit)") sampleParser)
  = Some (commitEvent 0)
  /\ JsMap.get (js "commit") (activeIds w') = Some skill
  /\ (item_type <$> JsMap.get (js "commit") (tracked w')) = Some skill.
Proof.
  destruct slash_name_is_always_skill as (Hline & _ & _ & Hpass).
  split.
  - pose proof (Hline 0 (js "● /commit(Create a git commit)") sampleParser) as H.
    specialize (H _ ltac:(discriminate) ltac:(vm_compute; reflexivity)).
    rewrite H. vm_compute. reflexivity.
  - destruct (Hpass 0 (newListener None)) as (Hactive & _ & _ & _ & Htracked);
      [vm_compute; reflexivity|].
    split; [exact Hactive | exact Htracked].
Defined.

(** The slash form wins over a registry that knows the name as a plugin. *)
Example slash_beats_registry :
  (type <$> fst (parseLine 0 (js "● /Explore") sampleParser)) = Some skill_call
  /\ (type <$> fst (parseLine 0 (js "● Explore") sampleParser)) = Some plugin_call.
Proof. vm_compute. done. Qed.

(* ===================================================================== *)
(** * Further properties of the code *)
(* ===================================================================== *)

Lemma str_eqb_false (a b : str) : str_eqb a b = false -> a <> b.
Proof. intros E ->. by rewrite str_eqb_refl in E. Qed.

(** ** Maps with one entry per key *)

Section JsMap_keys.
Context {V : Type}.
Implicit Types (m : JsMap.t V) (k : str) (v : V).

Lemma JsMap_has_keys k m : JsMap.has k m = true <-> In k (keysOf m).
Proof.
  unfold JsMap.has, keysOf. induction m as [|[k' v'] m IH]; simpl; [done|].
  destruct (str_eqb k' k) eqn:E.
  - apply str_eqb_eq in E. tauto.
  - split; [tauto|]. intros [->|H]; [by rewrite str_eqb_refl in E | tauto].
Qed.

Lemma JsMap_keys_set k v m :
  keysOf (JsMap.set k v m) = if JsMap.has k m then keysOf m else keysOf m ++ [k].
Proof.
  unfold JsMap.has, keysOf. induction m as [|[k' v'] m IH]; simpl; [done|].
  destruct (str_eqb k' k) eqn:E; simpl; [done|].
  rewrite IH. by destruct (JsMap.get k m).
Qed.

Lemma JsMap_set_NoDup k v m : NoDup (keysOf m) -> NoDup (keysOf (JsMap.set k v m)).
Proof.
  intros Hnd. rewrite JsMap_keys_set. destruct (JsMap.has k m) eqn:E; [done|].
  apply NoDup_app. split_and!; [done| |apply NoDup_singleton].
  intros x Hx Hk. apply list_elem_of_singleton in Hk. subst x.
  apply list_elem_of_In, JsMap_has_keys in Hx. congruence.
Qed.

Lemma JsMap_get_delete_ne k k' m :
  k <> k' -> JsMap.get k (JsMap.delete k' m) = JsMap.get k m.
Proof.
  intros Hne. induction m as [|[k1 v1] m IH]; simpl; [done|].
  destruct (str_eqb k1 k') eqn:E; simpl.
  - apply str_eqb_eq in E. subst. by rewrite str_eqb_neq.
  - by rewrite IH.
Qed.

Lemma JsMap_delete_keys_incl k k' m :
  In k (keysOf (JsMap.delete k' m)) -> In k (keysOf m).
Proof.
  unfold keysOf. induction m as [|[k1 v1] m IH]; simpl; [done|].
  destruct (str_eqb k1 k'); simpl; tauto.
Qed.

Lemma JsMap_delete_NoDup k m :
  NoDup (keysOf m) -> NoDup (keysOf (JsMap.delete k m)).
Proof.
  unfold keysOf. induction m as [|[k1 v1] m IH]; simpl; [done|].
  intros Hnd. apply NoDup_cons in Hnd as [Hk1 Hnd].
  destruct (str_eqb k1 k); simpl; [done|].
  apply NoDup_cons. split; [|by apply IH].
  intros Hin. apply Hk1. apply list_elem_of_In.
  apply list_elem_of_In in Hin. by apply (JsMap_delete_keys_incl k1 k m).
Qed.

Lemma JsMap_get_delete_eq k m :
  NoDup (keysOf m) -> JsMap.get k (JsMap.delete k m) = None.
Proof.
  unfold keysOf. induction m as [|[k1 v1] m IH]; simpl; [done|].
  intros Hnd. apply NoDup_cons in Hnd as [Hk1 Hnd].
  destruct (str_eqb k1 k) eqn:E; simpl.
  - apply str_eqb_eq in E. subst k1.
    destruct (JsMap.get k m) eqn:G; [|done].
    exfalso. apply Hk1. apply list_elem_of_In. apply (proj1 (JsMap_has_keys k m)).
    unfold JsMap.has. by rewrite G.
  - rewrite E. by apply IH.
Qed.

Lemma JsMap_get_None_keys k m : JsMap.get k m = None <-> ~ In k (keysOf m).
Proof.
  rewrite <- JsMap_has_keys. unfold JsMap.has.
  destruct (JsMap.get k m); split; try done.
Qed.

Lemma JsMap_delete_absent k m : JsMap.get k m = None -> JsMap.delete k m = m.
Proof.
  induction m as [|[k1 v1] m IH]; simpl; [done|].
  destruct (str_eqb k1 k); [done|]. intros H. by rewrite IH.
Qed.

Lemma JsMap_delete_set_new k v m :
  JsMap.get k m = None -> JsMap.delete k (JsMap.set k v m) = m.
Proof.
  induction m as [|[k1 v1] m IH]; simpl.
  - by rewrite str_eqb_refl.
  - destruct (str_eqb k1 k) eqn:E; [done|]. simpl. rewrite E. intros H. by rewrite IH.
Qed.

Lemma JsMap_size_set k v m :
  JsMap.size (JsMap.set k v m)
  = if JsMap.has k m then JsMap.size m else S (JsMap.size m).
Proof.
  unfold JsMap.size, JsMap.has. induction m as [|[k1 v1] m IH]; simpl; [done|].
  destruct (str_eqb k1 k); simpl; [done|]. rewrite IH. by destruct (JsMap.get k m).
Qed.
End JsMap_keys.

Section JsMap_entries.
Context {V : Type} (P : str * V -> Prop).

Lemma JsMap_set_Forall k v (m : JsMap.t V) :
  P (k, v) -> (forall k', str_eqb k' k = true -> P (k', v)) ->
  Forall P m -> Forall P (JsMap.set k v m).
Proof.
  intros Hkv Hsame. induction 1 as [|[k1 v1] m H1 Hm IH]; simpl.
  - by repeat constructor.
  - destruct (str_eqb k1 k) eqn:E; constructor; eauto.
Qed.

Lemma JsMap_delete_Forall k (m : JsMap.t V) : Forall P m -> Forall P (JsMap.delete k m).
Proof.
  induction 1 as [|[k1 v1] m H1 Hm IH]; simpl; [constructor|].
  destruct (str_eqb k1 k); [done|by constructor].
Qed.
End JsMap_entries.

(** ** The running-state manager *)

Lemma startRunning_ok now id name k src m :
  NoDup (keysOf m) /\ Forall itemOk m ->
  NoDup (keysOf (startRunning now id name k src m))
  /\ Forall itemOk (startRunning now id name k src m).
Proof.
  intros [Hnd Hok]. split; [by apply JsMap_set_NoDup|].
  apply JsMap_set_Forall; [done| |done].
  intros k' E. apply str_eqb_eq in E. by subst.
Qed.

Lemma stopRunning_ok id m :
  NoDup (keysOf m) /\ Forall itemOk m ->
  NoDup (keysOf (stopRunning id m)) /\ Forall itemOk (stopRunning id m).
Proof.
  intros [Hnd Hok]. unfold stopRunning. destruct (JsMap.has id m); [|done].
  split; [by apply JsMap_delete_NoDup | by apply JsMap_delete_Forall].
Qed.

Lemma applyOp_ok m op :
  NoDup (keysOf m) /\ Forall itemOk m ->
  NoDup (keysOf (applyOp m op)) /\ Forall itemOk (applyOp m op).
Proof.
  intros H. destruct op as [now id name k src|id|now status|]; simpl.
  - by apply startRunning_ok.
  - by apply stopRunning_ok.
  - unfold handleHookStatus. destruct (hook_event status);
      [by apply startRunning_ok | by apply stopRunning_ok].
  - split; [apply NoDup_nil_2 | constructor].
Qed.

Lemma fold_applyOp_ok ops m :
  NoDup (keysOf m) /\ Forall itemOk m ->
  NoDup (keysOf (fold_left applyOp ops m)) /\ Forall itemOk (fold_left applyOp ops m).
Proof.
  revert m. induction ops as [|op ops IH]; intros m H; simpl; [done|].
  by apply IH, applyOp_ok.
Qed.

Lemma managerAfter_ok ops :
  NoDup (keysOf (managerAfter ops)) /\ Forall itemOk (managerAfter ops).
Proof. apply fold_applyOp_ok. split; [apply NoDup_nil_2 | constructor]. Qed.


Lemma isRunning_startRunning now id' name k src id m :
  isRunning id (startRunning now id' name k src m)
  = if str_eqb id' id then true else isRunning id m.
Proof.
  unfold isRunning, startRunning, JsMap.has. destruct (str_eqb id' id) eqn:E.
  - apply str_eqb_eq in E. subst. by rewrite JsMap_get_set_eq.
  - apply str_eqb_false in E. rewrite JsMap_get_set_ne; [done|]. congruence.
Qed.

Lemma isRunning_stopRunning id' id m :
  NoDup (keysOf m) ->
  isRunning id (stopRunning id' m) = if str_eqb id' id then false else isRunning id m.
Proof.
  intros Hnd. unfold isRunning, stopRunning. destruct (str_eqb id' id) eqn:E.
  - apply str_eqb_eq in E. subst. destruct (JsMap.has id m) eqn:H; [|done].
    unfold JsMap.has. by rewrite JsMap_get_delete_eq.
  - apply str_eqb_false in E. destruct (JsMap.has id' m); [|done].
    unfold JsMap.has. rewrite JsMap_get_delete_ne; [done|]. congruence.
Qed.

(** X1.  Whatever requests the manager has served, from the terminal or
    from the hook channel, an id is running exactly when the last request
    that concerned it was a start: a stop of either channel ends an item
    started by the other, and [stopAll] ends every one. *)
Theorem running_iff_last_request_started (ops : list ManagerOp) (id : str) :
  isRunning id (managerAfter ops) = fold_left (lastSays id) ops false.
Proof.
  unfold managerAfter.
  assert (G : forall m b, NoDup (keysOf m) /\ Forall itemOk m -> isRunning id m = b ->
            isRunning id (fold_left applyOp ops m) = fold_left (lastSays id) ops b).
  { induction ops as [|op ops IH]; intros m b Hok Hb; simpl; [done|].
    apply IH; [by apply applyOp_ok|]. destruct Hok as [Hnd _].
    destruct op as [now id' name k src|id'|now status|]; simpl.
    - by rewrite isRunning_startRunning, Hb.
    - by rewrite isRunning_stopRunning, Hb.
    - unfold handleHookStatus. destruct (hook_event status).
      + by rewrite isRunning_startRunning, Hb.
      + rewrite isRunning_stopRunning, Hb by done. by destruct (str_eqb _ _).
    - done. }
  apply G; [|done]. split; [apply NoDup_nil_2 | constructor].
Qed.


(** X3.  Starting an item that is not running and stopping it again gives
    back the manager as it was: the other items, and their order. *)
Theorem start_then_stop_restores (now : Z) (id name : str) (k : ItemKind)
    (src : ItemSource) (m : RunningStateManager) :
  isRunning id m = false ->
  stopRunning id (startRunning now id name k src m) = m.
Proof.
  intros H. unfold stopRunning, startRunning, JsMap.has.
  rewrite JsMap_get_set_eq. apply JsMap_delete_set_new.
  unfold isRunning, JsMap.has in H. by destruct (JsMap.get id m).
Qed.

Lemma start_then_stop_restores_witness :
  let m := startRunning 5 (js "explore") (js "explore") agent terminal [] in
  isRunning (js "commit") m = false
  /\ stopRunning (js "commit") (startRunning 9 (js "commit") (js "commit") skill hook m) = m.
Proof.
  split; [vm_compute; reflexivity|].
  apply (start_then_stop_restores 9 (js "commit") (js "commit") skill hook). vm_compute; reflexivity.
Defined.

(** ** The registry: dynamic MCP servers, forced refresh, keys *)

Lemma JsMap_get_In_NoDup {V} k (v : V) (m : JsMap.t V) :
  NoDup (keysOf m) -> In (k, v) m -> JsMap.get k m = Some v.
Proof.
  unfold keysOf. induction m as [|[k1 v1] m IH]; simpl; [done|].
  intros Hnd Hin. apply NoDup_cons in Hnd as [Hk1 Hnd].
  destruct Hin as [[= -> ->]|Hin]; [by rewrite str_eqb_refl|].
  destruct (str_eqb k1 k) eqn:E; [|by apply IH].
  apply str_eqb_eq in E. subst k1. destruct Hk1.
  apply list_elem_of_In, in_map_iff. by exists (k, v).
Qed.


Lemma updateDynamicMcps_cache mcps r :
  cache (updateDynamicMcps mcps r)
  = addAll (fun m => js "mcp__" ++ m) (mcpEntry dynamic) mcps (cache r).
Proof.
  unfold updateDynamicMcps, addAll. revert r.
  induction mcps as [|m l IH]; intros r; simpl; [done|]. by rewrite IH.
Qed.

Lemma isCachedUnder_get key e r :
  JsMap.get key (cache r) = Some e -> isCachedUnder r (entry_name e) (entry_type e) = true.
Proof.
  intros Hget. unfold isCachedUnder. apply existsb_exists. exists e.
  split; [by apply JsMap_get_values in Hget|].
  by rewrite str_eqb_refl, hasType_own.
Qed.

Lemma registered_server_kind (mcps : list str) (name : str) (r : ItemTypeResolver) :
  In name mcps ->
  cachedKind (Some (updateDynamicMcps mcps r)) name = mcp
  /\ getCachedItem (js "mcp__" ++ name) (updateDynamicMcps mcps r)
     = Some (mcpEntry dynamic name).
Proof.
  intros Hin.
  assert (getCachedItem (js "mcp__" ++ name) (updateDynamicMcps mcps r)
          = Some (mcpEntry dynamic name)) as Hget.
  { unfold getCachedItem. rewrite updateDynamicMcps_cache.
    destruct (addAll_member (fun m => js "mcp__" ++ m) (mcpEntry dynamic) mcps (cache r)
                name Hin) as (x' & _ & Hk & Hx').
    apply app_inv_head in Hk. by subst x'. }
  split; [|done]. rewrite cachedKind_best. unfold bestKind. cbn [List.find].
  pose proof (isCachedUnder_get _ _ _ Hget) as Hmcp.
  cbn [entry_name entry_type mcpEntry] in Hmcp. by rewrite Hmcp.
Qed.



(** A server registered on a registry stamped at 1000 is mcp for a lookup
    at 30999; the lookup at 31000 rebuilds the cache from sources that do
    not know it, and answers unknown. *)
Example registration_is_lost_at_the_rebuild :
  let none := {| getPluginsCallback := Returned []; getAgentsCallback := Returned [];
                 getSkillsCallback := Returned []; getMcpsCallback := None |} in
  let r' := updateDynamicMcps [js "github"] {| cache := []; lastCacheUpdate := 1000 |} in
  resolveType 30999 none (js "github") r' = (Returned (known mcp), r')
  /\ resolveType 31000 none (js "github") r'
     = (Returned unknown, {| cache := []; lastCacheUpdate := 31000 |}).
Proof. vm_compute. done. Qed.

Lemma addAll_Forall {A} (P : str * ItemCacheEntry -> Prop) (key : A -> str)
    (entry : A -> ItemCacheEntry) (l : list A) c :
  (forall x k, str_eqb k (key x) = true -> P (k, entry x)) ->
  Forall P c -> Forall P (addAll key entry l c).
Proof.
  intros HP. unfold addAll. revert c. induction l as [|x l IH]; intros c Hc; simpl; [done|].
  apply IH. apply JsMap_set_Forall; [|by apply HP|done].
  apply HP, str_eqb_refl.
Qed.

Lemma addAll_NoDup {A} (key : A -> str) (entry : A -> ItemCacheEntry) (l : list A) c :
  NoDup (keysOf c) -> NoDup (keysOf (addAll key entry l c)).
Proof.
  unfold addAll. revert c. induction l as [|x l IH]; intros c Hc; simpl; [done|].
  by apply IH, JsMap_set_NoDup.
Qed.

Lemma rebuilt_Forall (P : str * ItemCacheEntry -> Prop) cb :
  (forall m, P (mcpKey m, mcpEntry file (mcp_name m))) ->
  (forall p, P (pluginKey p, pluginEntry p)) ->
  (forall s, P (skillKey s, skillEntry s)) ->
  (forall a, P (agentKey a, agentEntry a)) ->
  Forall P (rebuilt cb).
Proof.
  intros Hm Hp Hs Ha. unfold rebuilt.
  repeat (apply addAll_Forall;
          [intros x k E; apply str_eqb_eq in E; subst k; auto|]).
  constructor.
Qed.

Lemma rebuilt_NoDup cb : NoDup (keysOf (rebuilt cb)).
Proof. unfold rebuilt. repeat apply addAll_NoDup. apply NoDup_nil_2. Qed.

Lemma refreshCache_forced now cb r :
  CACHE_TTL <= now ->
  refreshCache now cb r = (Returned tt, {| cache := rebuilt cb; lastCacheUpdate := now |}).
Proof.
  intros Hnow. unfold refreshCache, Async.bind, Async.modify.
  apply updateCacheIfNeeded_expired. cbn [lastCacheUpdate]. lia.
Qed.

(** X5.  A forced refresh at any time of the epoch past the first thirty
    seconds rebuilds the cache from the four sources whatever the stamp
    was: the resolver it leaves does not depend on the one it found, it is
    stamped with the time of the refresh, and every entry it holds was read
    from a source, so the servers registered dynamically are forgotten. *)
Theorem forced_refresh_rebuilds (now : Z) (cb : Callbacks) (r1 r2 : ItemTypeResolver) :
  CACHE_TTL <= now ->
  refreshCache now cb r1 = refreshCache now cb r2
  /\ fst (refreshCache now cb r1) = Returned tt
  /\ lastCacheUpdate (snd (refreshCache now cb r1)) = now
  /\ (forall key e, getCachedItem key (snd (refreshCache now cb r1)) = Some e ->
        entry_source e = file).
Proof.
  intros Hnow. rewrite !refreshCache_forced by done. split_and!; try done.
  intros key e Hget. unfold getCachedItem in Hget. cbn [snd cache] in Hget.
  pose proof (rebuilt_Forall fromFile cb) as Hall.
  rewrite Forall_forall in Hall.
  assert (exists k, In (k, e) (rebuilt cb)) as [k Hk].
  { apply JsMap_get_values in Hget. unfold JsMap.values in Hget.
    apply in_map_iff in Hget as [[k e'] [E Hin]]. simpl in E. subst e'. by exists k. }
  apply (Hall ltac:(done) ltac:(done) ltac:(done) ltac:(done) (k, e)).
  by apply list_elem_of_In.
Qed.

Lemma forced_refresh_rebuilds_witness :
  let r1 := updateDynamicMcps [js "github"] sampleResolver in
  refreshCache 1700000000001 halfBroken r1 = refreshCache 1700000000001 halfBroken emptyResolver
  /\ fst (refreshCache 1700000000001 halfBroken r1) = Returned tt
  /\ lastCacheUpdate (snd (refreshCache 1700000000001 halfBroken r1)) = 1700000000001
  /\ (forall key e,
        getCachedItem key (snd (refreshCache 1700000000001 halfBroken r1)) = Some e ->
        entry_source e = file).
Proof.
  apply (forced_refresh_rebuilds 1700000000001 halfBroken
           (updateDynamicMcps [js "github"] sampleResolver) emptyResolver).
  vm_compute. discriminate.
Defined.

Lemma updateCacheIfNeeded_cases now cb r :
  snd (updateCacheIfNeeded now cb r) = r
  \/ cache (snd (updateCacheIfNeeded now cb r)) = rebuilt cb.
Proof.
  destruct (Z.lt_ge_cases (now - lastCacheUpdate r) CACHE_TTL) as [Hlt|Hge].
  - left. unfold updateCacheIfNeeded. apply Z.ltb_lt in Hlt. by rewrite Hlt.
  - right. by rewrite updateCacheIfNeeded_expired.
Qed.

Lemma rebuilt_ok cb : NoDup (keysOf (rebuilt cb)) /\ Forall entryOk (rebuilt cb).
Proof.
  split; [apply rebuilt_NoDup|]. apply rebuilt_Forall; intros x; split; reflexivity.
Qed.

Lemma resolverStep_ok r op :
  NoDup (keysOf (cache r)) /\ Forall entryOk (cache r) ->
  NoDup (keysOf (cache (resolverStep r op)))
  /\ Forall entryOk (cache (resolverStep r op)).
Proof.
  intros Hr. destruct op as [now cb name|now cb|mcps]; simpl.
  - unfold resolveType, Async.bind, Async.gets.
    destruct (updateCacheIfNeeded_cases now cb r) as [H|H];
      destruct (updateCacheIfNeeded now cb r) as [[[]|e] r']; simpl in *;
      try (subst r'; exact Hr); rewrite ?H; try apply rebuilt_ok.
  - unfold refreshCache, Async.bind, Async.modify.
    destruct (updateCacheIfNeeded_cases now cb
                {| cache := cache r; lastCacheUpdate := 0 |}) as [H|H];
      rewrite H; [exact Hr | apply rebuilt_ok].
  - rewrite updateDynamicMcps_cache. destruct Hr as [Hnd Hok]. split.
    + by apply addAll_NoDup.
    + apply addAll_Forall; [|done]. intros x k E. apply str_eqb_eq in E. subst k.
      split; reflexivity.
Qed.

Lemma resolverAfter_ok ops :
  NoDup (keysOf (cache (resolverAfter ops)))
  /\ Forall entryOk (cache (resolverAfter ops)).
Proof.
  unfold resolverAfter.
  assert (forall r, NoDup (keysOf (cache r)) /\ Forall entryOk (cache r) ->
            NoDup (keysOf (cache (fold_left resolverStep ops r)))
            /\ Forall entryOk (cache (fold_left resolverStep ops r))) as G.
  { induction ops as [|op ops IH]; intros r Hr; simpl; [done|].
    by apply IH, resolverStep_ok. }
  apply G. split; [apply NoDup_nil_2 | constructor].
Qed.

Lemma names_unique_per_kind (k : ItemKind) (m : JsMap.t ItemCacheEntry) :
  NoDup (keysOf m) -> Forall entryOk m ->
  NoDup (List.map entry_name (List.filter (hasType k) (JsMap.values m))).
Proof.
  unfold keysOf, JsMap.values. induction m as [|[k1 e1] m IH]; simpl.
  - intros _ _. apply NoDup_nil_2.
  - intros Hnd Hok. apply NoDup_cons in Hnd as [Hk1 Hnd].
    apply Forall_cons in Hok as [[_ Hkey] Hok]. simpl in Hkey.
    destruct (hasType k e1) eqn:Hty; simpl; [|by apply IH].
    apply NoDup_cons. split; [|by apply IH].
    intros Hin. apply Hk1. apply list_elem_of_In.
    apply list_elem_of_In, in_map_iff in Hin as (e2 & Hname & Hin).
    apply filter_In in Hin as [Hin Hty2].
    apply in_map_iff in Hin as ([k2 e2'] & E & Hin). simpl in E. subst e2'.
    apply in_map_iff. exists (k2, e2). split; [|done]. simpl.
    rewrite Forall_forall in Hok.
    destruct (Hok (k2, e2) ltac:(by apply list_elem_of_In)) as [_ Hkey2]. simpl in Hkey2.
    unfold hasType in Hty, Hty2.
    apply bool_decide_eq_true in Hty. apply bool_decide_eq_true in Hty2.
    by rewrite Hkey, Hkey2, Hty, Hty2, Hname.
Qed.

(** X6.  Whatever lookups, refreshes and registrations a resolver has
    served, with whatever the sources listed (the same item twice, the same
    name under several kinds), the names it lists for a kind hold no name
    twice, and every entry listed for a kind has that kind, is stored under
    its own id, and its id is the kind, two underscores and the name. *)
Theorem cached_names_unique_per_kind (ops : list ResolverOp) (k : ItemKind) :
  let r := resolverAfter ops in
  NoDup (getCachedNames k r)
  /\ forall e, In e (getCachedItemsByType k r) ->
       entry_type e = k
       /\ getCachedItem (entry_id e) r = Some e
       /\ entry_id e = cacheKey k (entry_name e).
Proof.
  intros r. destruct (resolverAfter_ok ops) as [Hnd Hok]. fold r in Hnd, Hok. split.
  - by apply names_unique_per_kind.
  - intros e Hin. unfold getCachedItemsByType in Hin.
    apply filter_In in Hin as [Hin Hty]. unfold hasType in Hty.
    apply bool_decide_eq_true in Hty.
    unfold JsMap.values in Hin. apply in_map_iff in Hin as ([k1 e'] & E & Hin).
    simpl in E. subst e'. rewrite Forall_forall in Hok.
    destruct (Hok (k1, e) ltac:(by apply list_elem_of_In)) as [Hid Hkey]. simpl in *.
    split_and!; [done | | by rewrite Hid, Hkey, Hty].
    unfold getCachedItem. rewrite Hid. by apply JsMap_get_In_NoDup.
Qed.

(** ** Lines of the MCP shape *)

Section mcp_shape.
Import Regex.

Lemma serverUnit_matches x :
  unit_matches (cls [CRange 97 122; CRange 65 90; CRange 48 57; CChr 95; CChr 45]) x
  = isNameUnit x.
Proof.
  cbn [unit_matches cls existsb citem_mem xorb].
  unfold isNameUnit, isWord, isDigit, isUpper, isLower.
  generalize (97 <=? x)%N (x <=? 122)%N (65 <=? x)%N (x <=? 90)%N
             (48 <=? x)%N (x <=? 57)%N (x =? 95)%N (x =? 45)%N.
  by intros [] [] [] [] [] [] [] [].
Qed.

Lemma skill_pattern_fails_on (ws name rest : str) :
  Forall (fun x => isSpace x = true) ws ->
  name <> [] ->
  Forall (fun x => isNameUnit x = true) name ->
  exec SKILL_FORMAT_PATTERN ([BULLET] ++ ws ++ name ++ rest) = None.
Proof.
  intros Hws Hne Hname. unfold SKILL_FORMAT_PATTERN. cbv zeta.
  unfold seq at 1. cbn [foldr]. apply exec_anchored_none.
  rewrite run_seq, run_bos. cbv beta.
  generalize (length ([BULLET] ++ ws ++ name ++ rest)). intros n0.
  cbn [app].
  rewrite run_seq, run_char. cbv beta.
  rewrite run_seq. apply run_star_gives_up; [done | | |].
  - eapply Forall_impl; [exact Hws|]. intros x Hx. by rewrite space_matches.
  - destruct name as [|x name]; [done|]. apply Forall_cons in Hname as [Hx _].
    cbn [app haltsAt]. rewrite space_matches. by apply nameUnit_not_space.
  - intros i.
    destruct (drop_blank_or_name ws name rest i Hws Hne Hname) as (x & t & -> & Hx).
    unfold lit. change (js "/") with [47%N]. cbn [List.map]. unfold seq at 1.
    cbn [foldr]. rewrite !run_seq. apply run_unit_fails; [done|].
    cbn [unit_matches]. apply slash_is_no_blank_or_name. tauto.
Qed.

(** What the MCP pattern finds in a line of the MCP shape. *)
Lemma mcp_shape_matches (ws : str) (sep : N) (server : str) (desc : option str) :
  Forall (fun x => isSpace x = true) ws ->
  isMcpSep sep = true ->
  server <> [] ->
  Forall (fun x => isNameUnit x = true) server ->
  goodDesc desc ->
  exec MCP_FORMAT_PATTERN (mcpLine ws sep server desc)
  = Some {| index := 0; matched := mcpLine ws sep server desc;
            groups := descGroups desc [(1%nat, server)] |}.
Proof.
  intros Hws Hsep Hne Hname Hdesc. apply exec_at_start.
  unfold MCP_FORMAT_PATTERN. cbv zeta. unfold seq at 1. cbn [foldr].
  rewrite run_seq, run_bos. cbv beta.
  generalize (length (mcpLine ws sep server desc)). intros n0.
  unfold mcpLine. change (js "mcp") with [109%N; 99%N; 112%N]. cbn [app].
  rewrite run_seq, run_char. cbv beta.
  rewrite run_seq. apply run_star_greedy; [done | | reflexivity |].
  { eapply Forall_impl; [exact Hws|]. intros x Hx. by rewrite space_matches. }
  unfold lit. cbn [List.map]. unfold seq at 1. cbn [foldr].
  rewrite !run_seq, run_char. cbv beta.
  rewrite run_seq, run_char. cbv beta.
  rewrite run_seq, run_char. cbv beta.
  rewrite run_empty, run_seq. apply run_unit; [done | by rewrite mcp_separator |].
  destruct server as [|x server]; [done|]. apply Forall_cons in Hname as [Hx Hname].
  rewrite run_seq, run_group. cbn [app].
  apply run_plus_greedy; [done | | | |].
  - by rewrite serverUnit_matches.
  - eapply Forall_impl; [exact Hname|]. intros z Hz. by rewrite serverUnit_matches.
  - by destruct desc.
  - change (x :: server ++ descText desc) with ((x :: server) ++ descText desc).
    rewrite take_consumed. by apply run_description.
Qed.

Lemma mcpLine_trimmed (ws : str) (sep : N) (server : str) (desc : option str) :
  server <> [] ->
  Forall (fun x => isNameUnit x = true) server ->
  trim (mcpLine ws sep server desc) = mcpLine ws sep server desc.
Proof.
  intros Hne Hname. unfold mcpLine. destruct desc as [d|]; cbn [descText].
  - change (js ")") with [41%N].
    replace ([BULLET] ++ ws ++ js "mcp" ++ [sep] ++ server ++ js "(" ++ d ++ [41%N])
      with (BULLET :: (ws ++ js "mcp" ++ [sep] ++ server ++ js "(" ++ d) ++ [41%N])
      by (by rewrite <- !app_assoc).
    by apply trim_fixed.
  - destruct (exists_last Hne) as (name0 & z & ->).
    apply Forall_app in Hname as [_ Hz]. apply Forall_cons in Hz as [Hz _].
    replace ([BULLET] ++ ws ++ js "mcp" ++ [sep] ++ (name0 ++ [z]) ++ [])
      with (BULLET :: (ws ++ js "mcp" ++ [sep] ++ name0) ++ [z])
      by (by rewrite app_nil_r, <- !app_assoc).
    apply trim_fixed; [done|]. by apply nameUnit_not_space.
Qed.
End mcp_shape.

Lemma generic_line_parsed (now : Z) (ws name : str) (desc : option str)
    (p : OutputParser) :
  Forall (fun x => isSpace x = true) ws ->
  name <> [] ->
  Forall (fun x => isNameUnit x = true) name ->
  startsWith name (js "mcp-") = false ->
  startsWith name (js "mcp_") = false ->
  goodDesc desc ->
  let k := cachedKind (itemTypeResolver p) name in
  parseLine now (genericLine ws name desc) p
  = (Some {| type := callType k; timestamp := now; content := default name desc;
             details := [(kindProp k, VStr name); ("name", VStr name);
                         ("raw", VStr (genericLine ws name desc))] |}, p).
Proof.
  intros Hws Hne Hname Hdash Hunder Hdesc k. unfold parseLine.
  destruct (genericLine ws name desc) as [|c line'] eqn:Hline; [done|]. rewrite <- Hline.
  rewrite genericLine_trimmed by done.
  rewrite skill_pattern_fails, mcp_pattern_fails, generic_shape_matches by done.
  unfold groupOf, groupOr, Regex.group. cbn [Regex.groups].
  destruct desc as [[|y d]|]; [by destruct Hdesc | reflexivity | reflexivity].
Qed.

(** X7.  A line made of the bullet, blanks, "mcp", one of the separators
    dash, underscore and colon, a server name of word units and dashes, and
    an optional description, is an MCP call of that server, described by
    the text in parentheses or by "MCP: " and the server name.  The parser
    registers the server with its registry as a side effect, so a later
    generic bulleted line with that name alone is an MCP call too. *)
Theorem mcp_line_registers_server (now : Z) (ws : str) (sep : N) (server : str)
    (desc : option str) (p : OutputParser) :
  Forall (fun x => isSpace x = true) ws ->
  isMcpSep sep = true ->
  server <> [] ->
  Forall (fun x => isNameUnit x = true) server ->
  goodDesc desc ->
  let line := mcpLine ws sep server desc in
  let p' := snd (parseLine now line p) in
  fst (parseLine now line p)
  = Some {| type := mcp_call; timestamp := now;
            content := default (js "MCP: " ++ server) desc;
            details := [("mcp", VStr server); ("name", VStr server);
                        ("raw", VStr line)] |}
  /\ discoveredMcps p' = discoveredMcps p
  /\ itemTypeResolver p' = updateDynamicMcps [server] <$> itemTypeResolver p
  /\ (forall now' ws' desc',
        is_Some (itemTypeResolver p) ->
        Forall (fun x => isSpace x = true) ws' ->
        startsWith server (js "mcp-") = false ->
        startsWith server (js "mcp_") = false ->
        goodDesc desc' ->
        parseLine now' (genericLine ws' server desc') p'
        = (Some {| type := mcp_call; timestamp := now';
                   content := default server desc';
                   details := [("mcp", VStr server); ("name", VStr server);
                               ("raw", VStr (genericLine ws' server desc'))] |}, p')).
Proof.
  intros Hws Hsep Hne Hname Hdesc line p'.
  assert (parseLine now line p
          = (Some {| type := mcp_call; timestamp := now;
                     content := default (js "MCP: " ++ server) desc;
                     details := [("mcp", VStr server); ("name", VStr server);
                                 ("raw", VStr line)] |},
             {| itemTypeResolver := updateDynamicMcps [server] <$> itemTypeResolver p;
                discoveredMcps := discoveredMcps p |})) as Hparse.
  { unfold parseLine. destruct line as [|c line'] eqn:Hline; [done|]. rewrite <- Hline.
    unfold line. rewrite mcpLine_trimmed by done.
    replace (Regex.exec SKILL_FORMAT_PATTERN (mcpLine ws sep server desc)) with
      (@None Regex.result).
    2:{ symmetry. unfold mcpLine.
        replace ([BULLET] ++ ws ++ js "mcp" ++ [sep] ++ server ++ descText desc)
          with ([BULLET] ++ ws ++ js "mcp" ++ ([sep] ++ server ++ descText desc)) by done.
        apply skill_pattern_fails_on; [done | done |].
        by repeat constructor. }
    rewrite mcp_shape_matches by done.
    unfold groupOf, groupOr, Regex.group. cbn [Regex.groups].
    destruct desc as [[|y d]|]; [by destruct Hdesc | reflexivity | reflexivity]. }
  unfold p'. rewrite Hparse. cbn [fst snd discoveredMcps itemTypeResolver].
  split_and!; try done.
  intros now' ws' desc' [r Hr] Hws' Hdash Hunder Hdesc'.
  rewrite generic_line_parsed by done. cbv zeta.
  cbn [itemTypeResolver]. rewrite Hr. cbn [fmap option_fmap option_map].
  destruct (registered_server_kind [server] server r) as [-> _]; [by left|].
  reflexivity.
Qed.

Lemma mcp_line_registers_server_witness :
  let line := mcpLine [32%N] 45 (js "github") (Some (js "list issues")) in
  let p' := snd (parseLine 7 line sampleParser) in
  fst (parseLine 7 line sampleParser)
  = Some {| type := mcp_call; timestamp := 7; content := js "list issues";
            details := [("mcp", VStr (js "github")); ("name", VStr (js "github"));
                        ("raw", VStr line)] |}
  /\ (type <$> fst (parseLine 8 (genericLine [32%N] (js "github") None) p'))
     = Some mcp_call.
Proof.
  destruct (mcp_line_registers_server 7 [32%N] 45 (js "github") (Some (js "list issues"))
              sampleParser) as (Hevent & _ & _ & Hlater).
  - by repeat constructor.
  - reflexivity.
  - discriminate.
  - vm_compute. by repeat constructor.
  - split; [discriminate | vm_compute; by repeat constructor].
  - split; [exact Hevent|].
    rewrite (Hlater 8 [32%N] None); [reflexivity | by eexists | by repeat constructor
                                     | reflexivity | reflexivity | exact I].
Defined.

(** ** The listener and the manager it reports to *)

Lemma kinds_set id (it : RunningItem) m :
  kinds (JsMap.set id it m) = JsMap.set id (item_type it) (kinds m).
Proof.
  unfold kinds. induction m as [|[k1 v1] m IH]; simpl; [done|].
  destruct (str_eqb k1 id); simpl; [done|]. by rewrite IH.
Qed.

Lemma kinds_delete id m : kinds (JsMap.delete id m) = JsMap.delete id (kinds m).
Proof.
  unfold kinds. induction m as [|[k1 v1] m IH]; simpl; [done|].
  destruct (str_eqb k1 id); simpl; [done|]. by rewrite IH.
Qed.

Lemma kinds_has id m : JsMap.has id (kinds m) = JsMap.has id m.
Proof.
  unfold JsMap.has, kinds. induction m as [|[k it] m IH]; simpl; [done|].
  destruct (str_eqb k id); [done | exact IH].
Qed.

Lemma stopRunning_delete id m : stopRunning id m = JsMap.delete id m.
Proof.
  unfold stopRunning, JsMap.has. destruct (JsMap.get id m) eqn:E; [done|].
  by rewrite JsMap_delete_absent.
Qed.

Lemma kinds_stop_all now (A : list (str * ItemKind)) m :
  kinds m = A ->
  kinds (fold_left runningStateCallback (List.map (stopCall now) A) m) = [].
Proof.
  revert m. induction A as [|[id k] A IH]; intros m Hm; simpl; [done|].
  destruct m as [|[id' it] m]; [done|]. injection Hm as -> Hk HA.
  apply IH. unfold runningStateCallback. cbn [call_state stopCall call_id fst].
  rewrite stopRunning_delete. cbn [JsMap.delete]. by rewrite str_eqb_refl.
Qed.

Lemma tracked_snoc w c :
  fold_left runningStateCallback (runningStateCalls w ++ [c]) []
  = runningStateCallback (tracked w) c.
Proof. unfold tracked. by rewrite fold_left_app. Qed.

Lemma startedIn_app id k C C' : startedIn id k C -> startedIn id k (C ++ C').
Proof. intros (c & Hin & H). exists c. split; [apply in_or_app; by left | done]. Qed.

Lemma callsOk_snoc C c :
  callsOk C ->
  (call_state c = stop -> startedIn (call_id c) (call_type c) C) ->
  callsOk (C ++ [c]).
Proof.
  intros HC Hc pre c0 post Heq Hstop.
  destruct (exists_last (l := c0 :: post) ltac:(done)) as (post' & z & Hpost).
  rewrite Hpost, app_assoc in Heq. apply app_inj_tail in Heq as [HCeq ->].
  destruct post' as [|y post'].
  - destruct post; [|by destruct post]. injection Hpost as ->.
    rewrite app_nil_r in HCeq. subst pre. by apply Hc.
  - injection Hpost as -> Hpost'. subst C. by eapply HC.
Qed.

Lemma callsOk_stops now (A : list (str * ItemKind)) C :
  callsOk C ->
  (forall e, In e A -> startedIn e.1 e.2 C) ->
  callsOk (C ++ List.map (stopCall now) A).
Proof.
  revert C. induction A as [|e A IH]; intros C HC HA; simpl.
  - by rewrite app_nil_r.
  - replace (C ++ stopCall now e :: List.map (stopCall now) A)
      with ((C ++ [stopCall now e]) ++ List.map (stopCall now) A)
      by (by rewrite <- app_assoc).
    apply IH.
    + apply callsOk_snoc; [done|]. intros _. apply HA. by left.
    + intros e' He'. apply startedIn_app, HA. by right.
Qed.

Lemma In_enqueue tm x q : In tm (enqueue x q) <-> tm = x \/ In tm q.
Proof.
  induction q as [|y q IH]; simpl; [intuition (subst; auto)|].
  destruct (due x <? due y); simpl; [intuition (subst; auto)|].
  rewrite IH. intuition (subst; auto).
Qed.

Lemma JsMap_get_In {V} k (v : V) (m : JsMap.t V) : JsMap.get k m = Some v -> In (k, v) m.
Proof.
  induction m as [|[k1 v1] m IH]; simpl; [done|].
  destruct (str_eqb k1 k) eqn:E; [|auto].
  apply str_eqb_eq in E. intros [= ->]. left. by subst.
Qed.

Lemma Tracking_start A Q Q' C now id name k tm :
  timer_id tm = id -> timer_type tm = k ->
  (forall x, In x Q' <-> x = tm \/ In x Q) ->
  Tracking A Q C ->
  Tracking (JsMap.set id k A) Q'
    (C ++ [{| call_time := now; call_id := id; call_name := name;
              call_type := k; call_state := start |}]).
Proof.
  intros Hid Hk HQ' [Hnd Htm Hman Hcalls Hts Has].
  assert (startedIn id k
            (C ++ [{| call_time := now; call_id := id; call_name := name;
                      call_type := k; call_state := start |}])) as Hnew.
  { eexists. split; [apply in_or_app; right; by left | done]. }
  split.
  - by apply JsMap_set_NoDup.
  - intros id' k' Hget. destruct (decide (id' = id)) as [->|Hne].
    + exists tm. split; [apply HQ'; by left | done].
    + rewrite JsMap_get_set_ne in Hget by done.
      destruct (Htm _ _ Hget) as (tm' & Hin & Hid'). exists tm'.
      split; [apply HQ'; by right | done].
  - rewrite fold_left_app. cbn [fold_left]. unfold runningStateCallback at 1.
    cbn [call_state call_time call_id call_name call_type]. unfold startRunning.
    by rewrite kinds_set, Hman.
  - apply callsOk_snoc; [done|]. done.
  - intros x Hx. apply HQ' in Hx as [->|Hx]; [by rewrite Hid, Hk|].
    by apply startedIn_app, Hts.
  - intros id' k' Hget. destruct (decide (id' = id)) as [->|Hne].
    + rewrite JsMap_get_set_eq in Hget. by injection Hget as <-.
    + rewrite JsMap_get_set_ne in Hget by done. by eapply startedIn_app, Has.
Qed.

Lemma Tracking_end A Q Q' C now :
  (forall x, In x Q' -> In x Q) ->
  Tracking A Q C ->
  Tracking [] Q' (C ++ List.map (stopCall now) A).
Proof.
  intros HQ' [Hnd Htm Hman Hcalls Hts Has]. split.
  - apply NoDup_nil_2.
  - done.
  - rewrite fold_left_app. by apply kinds_stop_all.
  - apply callsOk_stops; [done|]. intros [id k] Hin. simpl.
    apply (Has id k). by apply JsMap_get_In_NoDup.
  - intros x Hx. by apply startedIn_app, Hts, HQ'.
  - done.
Qed.

Lemma Tracking_fire A Q Q' C now tm :
  In tm Q ->
  (forall x, In x Q' -> In x Q) ->
  (forall x, In x Q -> x = tm \/ In x Q') ->
  Tracking A Q C ->
  Tracking (JsMap.delete (timer_id tm) A) Q'
    (C ++ [{| call_time := now; call_id := timer_id tm; call_name := [];
              call_type := timer_type tm; call_state := stop |}]).
Proof.
  intros Hin Hsub Hrest [Hnd Htm Hman Hcalls Hts Has].
  assert (forall id k, JsMap.get id (JsMap.delete (timer_id tm) A) = Some k ->
            id <> timer_id tm /\ JsMap.get id A = Some k) as Hdel.
  { intros id k Hget. destruct (decide (id = timer_id tm)) as [->|Hne].
    - by rewrite JsMap_get_delete_eq in Hget.
    - by rewrite JsMap_get_delete_ne in Hget. }
  split.
  - by apply JsMap_delete_NoDup.
  - intros id k Hget. apply Hdel in Hget as [Hne Hget].
    destruct (Htm _ _ Hget) as (tm' & Hin' & Hid').
    destruct (Hrest _ Hin') as [->|HQ']; [done|]. by exists tm'.
  - rewrite fold_left_app. cbn [fold_left]. unfold runningStateCallback at 1.
    cbn [call_state call_id]. by rewrite stopRunning_delete, kinds_delete, Hman.
  - apply callsOk_snoc; [done|]. intros _. by apply Hts.
  - intros x Hx. by apply startedIn_app, Hts, Hsub.
  - intros id k Hget. apply Hdel in Hget as [_ Hget]. by eapply startedIn_app, Has.
Qed.

Lemma armsAt_refl now w : armsAt now w w.
Proof. intros tm. by left. Qed.

Lemma armsAt_trans now w1 w2 w3 : armsAt now w1 w2 -> armsAt now w2 w3 -> armsAt now w1 w3.
Proof. intros H12 H23 tm Hin. destruct (H23 tm Hin) as [H|H]; [by apply H12 | by right]. Qed.

Lemma startItem_tracking now k event w :
  tracking w -> tracking (startItem now k event w) /\ armsAt now w (startItem now k event w).
Proof.
  intros Hw. unfold startItem. destruct (bool_decide _); [|split; [done|apply armsAt_refl]].
  destruct (truthyStr _ _) as [id|]; [|split; [done|apply armsAt_refl]].
  cbn. split.
  - unfold tracking. cbn.
    eapply Tracking_start; [| |intros x; apply In_enqueue|exact Hw]; done.
  - intros tm Hin. cbn in Hin. apply In_enqueue in Hin as [->|Hin]; [by right | by left].
Qed.

Lemma startItems_tracking now event w :
  tracking w -> tracking (startItems now event w) /\ armsAt now w (startItems now event w).
Proof.
  intros Hw. unfold startItems.
  destruct (startItem_tracking now agent event w Hw) as [H1 A1].
  destruct (startItem_tracking now skill event _ H1) as [H2 A2].
  destruct (startItem_tracking now plugin event _ H2) as [H3 A3].
  destruct (startItem_tracking now mcp event _ H3) as [H4 A4].
  split; [done|]. eauto using armsAt_trans.
Qed.

Lemma checkEnd_tracking now event w :
  tracking w -> tracking (checkEnd now event w) /\ armsAt now w (checkEnd now event w).
Proof.
  intros Hw. unfold checkEnd. destruct (content event); [split; [done|apply armsAt_refl]|].
  destruct (_ && _); [|split; [done|apply armsAt_refl]].
  unfold JsMap.entries, JsMap.clear. split.
  - unfold tracking. cbn [activeIds timers runningStateCalls set_activeIds].
    rewrite stopItems_calls.
    eapply Tracking_end; [|exact Hw]. intros x. apply stopItems_timers_incl.
  - intros tm Hin. left. cbn [timers set_activeIds] in Hin.
    by apply stopItems_timers_incl in Hin.
Qed.

Lemma processEvent_tracking now w event :
  tracking w -> tracking (processEvent now w event) /\ armsAt now w (processEvent now w event).
Proof.
  intros Hw. unfold processEvent.
  destruct (startItems_tracking now event w Hw) as [H1 A1].
  destruct (checkEnd_tracking now event _ H1) as [H2 A2].
  split; [exact H2 | exact (armsAt_trans _ _ _ _ A1 A2)].
Qed.

Lemma processEvents_tracking now events w :
  tracking w ->
  tracking (fold_left (processEvent now) events w)
  /\ armsAt now w (fold_left (processEvent now) events w).
Proof.
  revert w. induction events as [|e events IH]; intros w Hw; simpl.
  - split; [done|apply armsAt_refl].
  - destruct (processEvent_tracking now w e Hw) as [H1 A1].
    destruct (IH _ H1) as [H2 A2]. split; [done|]. eauto using armsAt_trans.
Qed.

Lemma dispatch_tracked now uniqueEvents w :
  tracking w ->
  tracking (dispatch now uniqueEvents w) /\ armsAt now w (dispatch now uniqueEvents w).
Proof.
  intros Hw. destruct (processEvents_tracking now uniqueEvents w Hw) as [H A].
  destruct (dispatch_tracking now uniqueEvents w) as (Ha & _ & Ht & Hc).
  unfold tracking, armsAt. by rewrite Ha, Ht, Hc.
Qed.

Lemma handleTerminalData_tracking now data w :
  tracking w ->
  tracking (handleTerminalData now data w) /\ armsAt now w (handleTerminalData now data w).
Proof.
  intros Hw. unfold handleTerminalData.
  destruct (negb _); [split; [done|apply armsAt_refl]|].
  destruct (_ || _); [split; [done|apply armsAt_refl]|].
  destruct (parse now data (parser w)) as [events parser'].
  destruct (Nat.eqb _ _); [split; [exact Hw | intros tm Hin; by left]|].
  destruct (deduplicateEvents now events _) as [uniqueEvents recent'].
  by apply (dispatch_tracked now uniqueEvents
              (set_recentEvents recent' (set_parser parser' w))).
Qed.

Lemma timeouts_tracking (ready later : list Timer) (w : TerminalListener) :
  Tracking (activeIds w) (ready ++ later) (runningStateCalls w) ->
  let w' := fold_left (fun w tm => timeoutCallback (due tm) tm w) ready w in
  Tracking (activeIds w') later (runningStateCalls w') /\ timers w' = timers w.
Proof.
  revert w. induction ready as [|tm ready IH]; intros w Hw; simpl; [done|].
  destruct (IH (timeoutCallback (due tm) tm w)) as [H Ht].
  - unfold timeoutCallback. cbn.
    eapply Tracking_fire; [| | |exact Hw].
    + by left.
    + intros x Hx. by right.
    + intros x [->|Hx]; [by left | by right].
  - split; [exact H|]. by rewrite Ht.
Qed.

Lemma filter_partition_In {A} (f : A -> bool) (l : list A) x :
  In x l <-> In x (List.filter f l ++ List.filter (fun y => negb (f y)) l).
Proof.
  rewrite in_app_iff, !filter_In. destruct (f x); simpl; intuition congruence.
Qed.

Lemma advanceTo_tracking now w :
  tracking w ->
  tracking (advanceTo now w)
  /\ timers (advanceTo now w) = List.filter (fun tm => negb (due tm <=? now)) (timers w).
Proof.
  intros [Hnd Htm Hman Hcalls Hts Has]. unfold advanceTo.
  set (ready := List.filter (fun tm => due tm <=? now) (timers w)).
  set (later := List.filter (fun tm => negb (due tm <=? now)) (timers w)).
  destruct (timeouts_tracking ready later (set_timers later (nextHandle w) w)) as [H Ht].
  - cbn. split; try done.
    + intros id k Hget. destruct (Htm id k Hget) as (tm & Hin & Hid).
      exists tm. split; [|done]. by apply filter_partition_In.
    + intros tm Hin. apply Hts. by apply (filter_partition_In (fun tm => due tm <=? now)).
  - cbv zeta in H, Ht. split; [|exact Ht].
    unfold tracking. by rewrite Ht.
Qed.

Lemma listenerStep_tracking w op :
  tracking w -> tracking (listenerStep w op).
Proof.
  intros Hw. destruct op as [now data|now| | |resolver]; simpl.
  - by apply handleTerminalData_tracking.
  - by apply advanceTo_tracking.
  - done.
  - done.
  - done.
Qed.

Lemma newListener_tracking resolver : tracking (newListener resolver).
Proof.
  split; cbn; try done.
  - apply NoDup_nil_2.
  - intros pre c post Heq. by destruct pre.
Qed.

Lemma listenerAfter_tracking resolver ops : tracking (listenerAfter resolver ops).
Proof.
  unfold listenerAfter.
  assert (forall w, tracking w -> tracking (fold_left listenerStep ops w)) as G.
  { induction ops as [|op ops IH]; intros w Hw; simpl; [done|].
    by apply IH, listenerStep_tracking. }
  apply G, newListener_tracking.
Qed.

Lemma tracked_as_manager (C : list StateCall) :
  exists ops, fold_left runningStateCallback C [] = managerAfter ops.
Proof.
  exists (List.map (fun c => match call_state c with
                             | start => OpStart (call_time c) (call_id c) (call_name c)
                                          (call_type c) terminal
                             | stop => OpStop (call_id c)
                             end) C).
  unfold managerAfter. generalize (@nil (str * RunningItem)).
  induction C as [|c C IH]; intros m; simpl; [done|].
  rewrite IH. f_equal. unfold runningStateCallback. by destruct (call_state c).
Qed.

(** X8.  Whatever chunks have arrived and whatever timers have fired, the
    manager fed with the listener's reports holds exactly the ids the
    listener holds as active, in the same order and with the same kinds:
    the two never drift apart. *)
Theorem manager_agrees_with_listener
    (resolver : option ItemTypeResolver) (ops : list ListenerOp) :
  let w := listenerAfter resolver ops in
  idsAndKinds (tracked w) = activeIds w
  /\ forall id, isRunning id (tracked w) = JsMap.has id (activeIds w).
Proof.
  intros w. destruct (listenerAfter_tracking resolver ops) as [_ _ Hman _ _ _].
  fold w in Hman. fold (tracked w) in Hman.
  assert (idsAndKinds (tracked w) = kinds (tracked w)) as Hids.
  { unfold tracked. destruct (tracked_as_manager (runningStateCalls w)) as [mops ->].
    destruct (managerAfter_ok mops) as [_ Hok].
    unfold idsAndKinds, kinds, getRunningItems, JsMap.values. rewrite List.map_map.
    induction Hok as [|[k it] m [Hid _] Hm IH]; simpl; [done|].
    simpl in Hid. by rewrite Hid, IH. }
  split; [by rewrite Hids|].
  intros id. unfold isRunning. by rewrite <- Hman, kinds_has.
Qed.

Lemma filter_none {A} (f : A -> bool) (l : list A) :
  (forall x, In x l -> f x = false) -> List.filter f l = [].
Proof.
  induction l as [|x l IH]; intros H; simpl; [done|].
  rewrite (H x) by (by left). apply IH. intros y Hy. apply H. by right.
Qed.

Lemma listenerStep_dues (T : Z) w op :
  chunkBy T op -> tracking w ->
  (forall tm, In tm (timers w) -> due tm <= T + AGENT_TIMEOUT) ->
  forall tm, In tm (timers (listenerStep w op)) -> due tm <= T + AGENT_TIMEOUT.
Proof.
  intros Hop Hw Hdue tm Hin. destruct op as [now data|now| | |resolver]; simpl in *.
  - destruct (handleTerminalData_tracking now data w Hw) as [_ Harm].
    destruct (Harm tm Hin) as [Hold| ->]; [by apply Hdue | lia].
  - destruct (advanceTo_tracking now w Hw) as [_ Ht]. rewrite Ht in Hin.
    apply filter_In in Hin as [Hin _]. by apply Hdue.
  - by apply Hdue.
  - by apply Hdue.
  - by apply Hdue.
Qed.

Lemma listenerAfter_dues (T : Z) resolver ops :
  Forall (chunkBy T) ops ->
  forall tm, In tm (timers (listenerAfter resolver ops)) -> due tm <= T + AGENT_TIMEOUT.
Proof.
  unfold listenerAfter.
  assert (forall w, Forall (chunkBy T) ops -> tracking w ->
            (forall tm, In tm (timers w) -> due tm <= T + AGENT_TIMEOUT) ->
            forall tm, In tm (timers (fold_left listenerStep ops w)) ->
                       due tm <= T + AGENT_TIMEOUT) as G.
  { induction ops as [|op ops IH]; intros w Hops Hw Hdue; simpl; [done|].
    apply Forall_cons in Hops as [Hop Hops].
    apply IH; [done | by apply listenerStep_tracking | by apply listenerStep_dues]. }
  intros Hops. apply G; [done | apply newListener_tracking | done].
Qed.

(** X9.  Ten seconds after the last chunk nothing is left running: once
    the event loop has reached that time every timer has fired, the
    listener holds no active id, and the manager fed with its reports holds
    no running item.  This holds for every series of chunks, also for those
    that start an id again while it is active. *)
Theorem nothing_runs_ten_seconds_after_last_chunk
    (resolver : option ItemTypeResolver) (ops : list ListenerOp) (T : Z) :
  Forall (chunkBy T) ops ->
  let w' := advanceTo (T + AGENT_TIMEOUT) (listenerAfter resolver ops) in
  activeIds w' = [] /\ timers w' = [] /\ getRunningItems (tracked w') = [].
Proof.
  intros Hops w'.
  destruct (advanceTo_tracking (T + AGENT_TIMEOUT) (listenerAfter resolver ops)
              (listenerAfter_tracking resolver ops)) as [Hw' Ht]. fold w' in Hw', Ht.
  assert (timers w' = []) as Hnone.
  { rewrite Ht. apply filter_none. intros tm Hin.
    apply negb_false_iff, Z.leb_le. by apply (listenerAfter_dues T resolver ops). }
  destruct Hw' as [_ Htm Hman _ _ _]. rewrite Hnone in Htm.
  assert (activeIds w' = []) as Hids.
  { destruct (activeIds w') as [|[id k] A]; [done|].
    destruct (Htm id k) as (tm & [] & _). simpl. by rewrite str_eqb_refl. }
  split_and!; [done | done |].
  rewrite Hids in Hman. unfold tracked, getRunningItems, kinds in *.
  by destruct (fold_left runningStateCallback (runningStateCalls w') []).
Qed.

Lemma nothing_runs_ten_seconds_after_last_chunk_witness :
  let w' := advanceTo (5 + AGENT_TIMEOUT)
              (listenerAfter None [LChunk 0 commitChunk; LChunk 5 commitChunk]) in
  activeIds w' = [] /\ timers w' = [] /\ getRunningItems (tracked w') = [].
Proof.
  apply (nothing_runs_ten_seconds_after_last_chunk None
           [LChunk 0 commitChunk; LChunk 5 commitChunk] 5).
  constructor; [simpl; lia|]. constructor; [simpl; lia|]. constructor.
Defined.

(** X10.  The listener never reports a stop out of nothing: whatever
    chunks have arrived and whatever timers have fired, every stop it has
    reported, by an end signal or by a timeout, comes after a start it
    reported for the same id as the same kind. *)
Theorem every_stop_follows_a_start
    (resolver : option ItemTypeResolver) (ops : list ListenerOp)
    (pre post : list StateCall) (c : StateCall) :
  runningStateCalls (listenerAfter resolver ops) = pre ++ c :: post ->
  call_state c = stop ->
  startedIn (call_id c) (call_type c) pre.
Proof.
  intros Hcalls Hstop.
  destruct (listenerAfter_tracking resolver ops) as [_ _ _ Hok _ _].
  by eapply Hok.
Qed.

Lemma every_stop_follows_a_start_witness :
  startedIn (js "commit") skill [commitStart 0].
Proof.
  apply (every_stop_follows_a_start None [LChunk 0 commitChunk; LTick 10000]
           [commitStart 0]
           []
           {| call_time := 10000; call_id := js "commit"; call_name := [];
              call_type := skill; call_state := stop |}).
  - vm_compute. reflexivity.
  - reflexivity.
Defined.

(** ** The history and the batches reported *)

Lemma timeouts_frame (ready : list Timer) (w : TerminalListener) :
  let w' := fold_left (fun w tm => timeoutCallback (due tm) tm w) ready w in
  eventBuffer w' = eventBuffer w /\ heap w' = heap w /\ eventCalls w' = eventCalls w
  /\ recentEvents w' = recentEvents w /\ parser w' = parser w.
Proof.
  revert w. induction ready as [|tm ready IH]; intros w; simpl; [done|].
  destruct (IH (timeoutCallback (due tm) tm w)) as (H1 & H2 & H3 & H4 & H5).
  by rewrite H1, H2, H3, H4, H5.
Qed.

Lemma advanceTo_frame now w :
  eventBuffer (advanceTo now w) = eventBuffer w /\ heap (advanceTo now w) = heap w
  /\ eventCalls (advanceTo now w) = eventCalls w
  /\ recentEvents (advanceTo now w) = recentEvents w
  /\ parser (advanceTo now w) = parser w.
Proof.
  unfold advanceTo.
  apply (timeouts_frame (List.filter (fun tm => due tm <=? now) (timers w))
           (set_timers (List.filter (fun tm => negb (due tm <=? now)) (timers w))
                       (nextHandle w) w)).
Qed.

Lemma dispatch_historyOk now uniqueEvents w :
  historyOk w -> historyOk (dispatch now uniqueEvents w).
Proof.
  intros (Hheap & Hlen & Hsuf).
  destruct (dispatch_history now uniqueEvents w Hheap) as [Hheap' Hhist].
  split; [done|]. rewrite Hhist, dispatch_eventCalls.
  assert (history w ++ uniqueEvents `suffix_of`
          concat (if Nat.ltb 0 (length uniqueEvents)
                  then eventCalls w ++ [uniqueEvents] else eventCalls w)) as Hall.
  { destruct uniqueEvents as [|e u]; cbn [length Nat.ltb Nat.leb].
    - by rewrite app_nil_r.
    - rewrite concat_app. cbn [concat]. rewrite app_nil_r.
      by apply suffix_app. }
  destruct (Nat.ltb 1000 (length (history w ++ uniqueEvents))) eqn:Hbig.
  - split.
    + unfold sliceLast. rewrite length_drop. lia.
    + etrans; [|exact Hall]. unfold sliceLast. apply suffix_drop.
  - apply Nat.ltb_ge in Hbig. by split.
Qed.

Lemma listenerStep_historyOk w op : historyOk w -> historyOk (listenerStep w op).
Proof.
  intros Hw. destruct op as [now data|now| | |resolver]; simpl.
  - unfold handleTerminalData.
    destruct (negb _); [done|]. destruct (_ || _); [done|].
    destruct (parse now data (parser w)) as [events parser'].
    destruct (Nat.eqb _ _); [exact Hw|].
    destruct (deduplicateEvents now events _) as [uniqueEvents recent'].
    by apply (dispatch_historyOk now uniqueEvents
                (set_recentEvents recent' (set_parser parser' w))).
  - destruct (advanceTo_frame now w) as (Hb & Hh & Hc & _).
    unfold historyOk, bufferOnHeap, history. by rewrite Hb, Hh, Hc.
  - destruct Hw as (Hheap & Hlen & Hsuf). unfold bufferOnHeap in Hheap.
    unfold historyOk, bufferOnHeap, history, getEvents, alloc. cbn.
    rewrite length_app, deref_snoc_old by done. cbn. split_and!; [lia | done | done].
  - destruct Hw as (Hheap & Hlen & Hsuf).
    unfold historyOk, bufferOnHeap, history, clearEvents, alloc. cbn.
    rewrite length_app, deref_snoc. cbn. split_and!; [lia | lia |].
    apply suffix_nil.
  - exact Hw.
Qed.

(** X11.  Whatever chunks have arrived, the history holds 1000 events at
    most, and it is the end of the sequence of events reported through
    [onEvent], in the order they were reported: events leave the history
    from the front only, by the trimming or by [clearEvents], and nothing
    enters it that was not reported. *)
Theorem history_is_bounded_end_of_reports
    (resolver : option ItemTypeResolver) (ops : list ListenerOp) :
  let w := listenerAfter resolver ops in
  (length (history w) <= 1000)%nat
  /\ history w `suffix_of` concat (eventCalls w)
  /\ deref (fst (getEvents w)) (heap (snd (getEvents w))) = history w.
Proof.
  intros w.
  assert (historyOk w) as (Hheap & Hlen & Hsuf).
  { unfold w, listenerAfter.
    assert (forall w0, historyOk w0 -> historyOk (fold_left listenerStep ops w0)) as G.
    { induction ops as [|op ops IH]; intros w0 Hw0; simpl; [done|].
      by apply IH, listenerStep_historyOk. }
    apply G. unfold historyOk, bufferOnHeap, history. cbn. split_and!; [lia | lia | done]. }
  split_and!; [done | done |].
  unfold getEvents, alloc. cbn. apply deref_snoc.
Qed.

(** ** The duplicate filter *)

Lemma dedup_facts now events recent :
  let out := fst (deduplicateEvents now events recent) in
  let recent' := snd (deduplicateEvents now events recent) in
  sublist out events
  /\ (forall e, In e out -> ~ fresh now recent (eventKey e))
  /\ NoDup (List.map eventKey out)
  /\ (forall k, fresh now recent k -> fresh now recent' k)
  /\ (forall e, In e events -> fresh now recent' (eventKey e)).
Proof.
  revert recent. induction events as [|event rest IH]; intros recent.
  - cbn. split_and!; [done | done | apply NoDup_nil_2 | done | done].
  - rewrite dedup_cons.
    destruct (IH recent) as (S1 & N1 & D1 & F1 & A1).
    destruct (IH (<[eventKey event := now]> recent)) as (S2 & N2 & D2 & F2 & A2).
    assert (~ fresh now recent (eventKey event) ->
      sublist (event :: fst (deduplicateEvents now rest
                               (<[eventKey event := now]> recent))) (event :: rest)
      /\ (forall e, In e (event :: fst (deduplicateEvents now rest
                                          (<[eventKey event := now]> recent))) ->
            ~ fresh now recent (eventKey e))
      /\ NoDup (List.map eventKey
                  (event :: fst (deduplicateEvents now rest
                                   (<[eventKey event := now]> recent))))
      /\ (forall k, fresh now recent k ->
            fresh now (snd (deduplicateEvents now rest
                              (<[eventKey event := now]> recent))) k)
      /\ (forall e, In e (event :: rest) ->
            fresh now (snd (deduplicateEvents now rest
                              (<[eventKey event := now]> recent))) (eventKey e)))
      as Hnew.
    { intros Hstale. split_and!.
      - by apply sublist_skip.
      - intros e [<-|He]; [done|]. intros Hf. apply (N2 e He). by apply fresh_insert.
      - cbn [List.map]. apply NoDup_cons. split; [|done].
        intros Hin. apply list_elem_of_In, in_map_iff in Hin as (e & Hk & He).
        apply (N2 e He). rewrite Hk. apply fresh_now.
      - intros k Hk. by apply F2, fresh_insert.
      - intros e [<-|He]; [apply F2, fresh_now | by apply A2]. }
    destruct (recent !! eventKey event) as [t|] eqn:Hrec.
    + destruct (now - t <? DUPLICATE_WINDOW) eqn:Hwin.
      * assert (fresh now recent (eventKey event)) as Hfresh.
        { exists t. split; [done|]. by apply Z.ltb_lt. }
        cbv zeta. split_and!; [by apply sublist_cons | done | done | done |].
        intros e [<-|He]; [by apply F1 | by apply A1].
      * apply Hnew. intros (t' & Ht' & Hlt). rewrite Hrec in Ht'. injection Ht' as <-.
        apply Z.ltb_ge in Hwin. lia.
    + apply Hnew. intros (t' & Ht' & _). by rewrite Hrec in Ht'.
Qed.

Lemma dedup_all_fresh now events recent :
  (forall e, In e events -> fresh now recent (eventKey e)) ->
  deduplicateEvents now events recent = ([], recent).
Proof.
  induction events as [|event rest IH]; intros Hall; [done|].
  rewrite dedup_cons. destruct (Hall event ltac:(by left)) as (t & -> & Hlt).
  apply Z.ltb_lt in Hlt. rewrite Hlt. apply IH. intros e He. apply Hall. by right.
Qed.

(** X12.  The duplicate filter keeps events in their order and lets no two
    events of the same key through in one pass, whatever the records held
    before; afterwards every key of the input has a record inside the
    window, so the same events offered again at the same time are all
    suppressed and leave the records as they are. *)
Theorem dedup_passes_each_key_once
    (now : Z) (events : list TerminalEvent) (recent : gmap (list N) Z) :
  let out := fst (deduplicateEvents now events recent) in
  let recent' := snd (deduplicateEvents now events recent) in
  sublist out events
  /\ NoDup (List.map eventKey out)
  /\ (forall e, In e events -> fresh now recent' (eventKey e))
  /\ deduplicateEvents now events recent' = ([], recent').
Proof.
  intros out recent'. destruct (dedup_facts now events recent) as (S & _ & D & _ & A).
  split_and!; [done | done | done |]. by apply dedup_all_fresh.
Qed.

Lemma handleTerminalData_eventCalls now data w :
  eventCalls (handleTerminalData now data w) = eventCalls w
  \/ exists events recent,
       fst (deduplicateEvents now events recent) <> []
       /\ eventCalls (handleTerminalData now data w)
          = eventCalls w ++ [fst (deduplicateEvents now events recent)].
Proof.
  unfold handleTerminalData.
  destruct (negb _); [by left|]. destruct (_ || _); [by left|].
  destruct (parse now data (parser w)) as [events parser'].
  destruct (Nat.eqb _ _); [by left|].
  destruct (deduplicateEvents now events (recentEvents (set_parser parser' w)))
    as [uniqueEvents recent'] eqn:Hdedup.
  rewrite dispatch_eventCalls. destruct uniqueEvents as [|e u]; [by left|].
  right. exists events, (recentEvents (set_parser parser' w)). by rewrite Hdedup.
Qed.

(** X13.  Every batch the listener has handed to [onEvent] holds at least
    one event and no two events with the same type and the same first
    hundred units of content. *)
Theorem reported_batches_have_distinct_keys
    (resolver : option ItemTypeResolver) (ops : list ListenerOp) :
  Forall (fun batch => batch <> [] /\ NoDup (List.map eventKey batch))
         (eventCalls (listenerAfter resolver ops)).
Proof.
  unfold listenerAfter.
  assert (forall w,
    Forall (fun batch => batch <> [] /\ NoDup (List.map eventKey batch)) (eventCalls w) ->
    Forall (fun batch => batch <> [] /\ NoDup (List.map eventKey batch))
           (eventCalls (fold_left listenerStep ops w))) as G.
  { induction ops as [|op ops IH]; intros w Hw; simpl; [done|]. apply IH.
    destruct op as [now data|now| | |resolver0]; simpl; try done.
    - destruct (handleTerminalData_eventCalls now data w)
        as [->|(events & recent & Hne & ->)]; [done|].
      apply Forall_app. split; [done|]. constructor; [|constructor].
      split; [done|]. by destruct (dedup_facts now events recent) as (_ & _ & D & _).
    - destruct (advanceTo_frame now w) as (_ & _ & -> & _). done. }
  apply G. constructor.
Qed.

Lemma staleApart_insert now m1 m2 (k : str) :
  staleApart now m1 m2 -> staleApart now (<[k := now]> m1) (<[k := now]> m2).
Proof.
  intros H k'. destruct (decide (k = k')) as [->|Hne].
  - left. by rewrite !lookup_insert_eq.
  - rewrite !lookup_insert_ne by done. apply H.
Qed.

Lemma dedup_staleApart now events m1 m2 :
  staleApart now m1 m2 ->
  fst (deduplicateEvents now events m1) = fst (deduplicateEvents now events m2)
  /\ staleApart now (snd (deduplicateEvents now events m1))
                    (snd (deduplicateEvents now events m2)).
Proof.
  revert m1 m2. induction events as [|event rest IH]; intros m1 m2 H; [done|].
  rewrite !dedup_cons.
  destruct (IH _ _ H) as [E1 R1].
  destruct (IH _ _ (staleApart_insert now m1 m2 (eventKey event) H)) as [E2 R2].
  destruct (H (eventKey event)) as [Heq|(Hnone & t & Ht & Hold)].
  - rewrite Heq. destruct (m2 !! eventKey event) as [t|].
    + destruct (now - t <? DUPLICATE_WINDOW); [done|]. cbn [fst snd]. by rewrite E2.
    + cbn [fst snd]. by rewrite E2.
  - rewrite Hnone, Ht. apply Z.ltb_ge in Hold. rewrite Hold. cbn [fst snd].
    by rewrite E2.
Qed.

Lemma cleanup_staleApart now now' recent :
  now <= now' -> staleApart now' (cleanupDuplicateRecords now recent) recent.
Proof.
  intros Hle k.
  destruct (cleanupDuplicateRecords now recent !! k) as [t|] eqn:Hc.
  - left. apply cleanup_lookup_Some in Hc as [Hr _]. symmetry. exact Hr.
  - destruct (recent !! k) as [t|] eqn:Hr; [|by left].
    destruct (decide (now - t <= DUPLICATE_WINDOW * 2)) as [Hyoung|Hold].
    + assert (cleanupDuplicateRecords now recent !! k = Some t) as Hsome
        by (by apply cleanup_lookup_Some).
      rewrite Hsome in Hc. discriminate.
    + right. split; [done|]. exists t. split; [done|]. unfold DUPLICATE_WINDOW in *. lia.
Qed.

(** X14.  The clean-up of the duplicate records cannot be observed by the
    filter: it removes only records six seconds old, twice the window, so
    at any later time the filter lets the same events through with or
    without it, and the records it leaves differ only by records that are
    out of the window. *)
Theorem cleanup_never_changes_dedup
    (now now' : Z) (events : list TerminalEvent) (recent : gmap (list N) Z) :
  now <= now' ->
  fst (deduplicateEvents now' events (cleanupDuplicateRecords now recent))
  = fst (deduplicateEvents now' events recent)
  /\ staleApart now' (snd (deduplicateEvents now' events
                             (cleanupDuplicateRecords now recent)))
                     (snd (deduplicateEvents now' events recent)).
Proof. intros Hle. by apply dedup_staleApart, cleanup_staleApart. Qed.

Lemma cleanup_never_changes_dedup_witness :
  fst (deduplicateEvents 9000 [lsEvent 9000]
         (cleanupDuplicateRecords 7000 {[eventKey (lsEvent 0) := 0]}))
  = fst (deduplicateEvents 9000 [lsEvent 9000] {[eventKey (lsEvent 0) := 0]}).
Proof.
  apply (cleanup_never_changes_dedup 7000 9000 [lsEvent 9000]
           {[eventKey (lsEvent 0) := 0]}).
  lia.
Defined.

(** ** The servers discovered from result lines *)

Lemma set_add_ok (name : str) (l : list str) :
  plausibleServer name -> NoDup l /\ Forall plausibleServer l ->
  NoDup (set_add name l) /\ Forall plausibleServer (set_add name l).
Proof.
  intros Hname [Hnd Hall]. unfold set_add. destruct (arr_includes l name) eqn:Hin; [done|].
  split.
  - apply NoDup_app. split_and!; [done| |apply NoDup_singleton].
    intros x Hx Hx'. apply list_elem_of_singleton in Hx'. subst x.
    assert (arr_includes l name = true) as Hyes; [|congruence].
    unfold arr_includes. apply existsb_exists. exists name.
    split; [by apply list_elem_of_In | apply str_eqb_refl].
  - apply Forall_app. split; [done|]. by constructor.
Qed.

Lemma parseLine_discovered now line p :
  discoveredOk p -> discoveredOk (snd (parseLine now line p)).
Proof.
  intros Hp. unfold parseLine. destruct line as [|x line]; [done|].
  repeat match goal with
         | |- context [match Regex.exec ?r ?t with _ => _ end] =>
             destruct (Regex.exec r t); [try exact Hp|]
         end; try exact Hp.
  destruct (Nat.ltb 3 _ && negb _) eqn:Hcond; [|exact Hp].
  apply andb_true_iff in Hcond as [Hlen Hword].
  apply Nat.ltb_lt in Hlen. apply negb_true_iff in Hword.
  by apply set_add_ok.
Qed.

Lemma parseLines_discovered now lines p :
  discoveredOk p -> discoveredOk (snd (parseLines now lines p)).
Proof.
  revert p. induction lines as [|line lines IH]; intros p Hp; [done|].
  cbn [parseLines].
  pose proof (parseLine_discovered now (trim line) p Hp) as H1.
  destruct (parseLine now (trim line) p) as [event p1].
  pose proof (IH p1 H1) as H2.
  by destruct (parseLines now lines p1) as [events p2].
Qed.

Lemma dispatch_parser now uniqueEvents w :
  parser (dispatch now uniqueEvents w) = parser w.
Proof.
  destruct (processEvents_records now uniqueEvents w) as (_ & Hp & _).
  unfold dispatch, trimBuffer.
  destruct (Nat.ltb 0 (length uniqueEvents)); destruct (Nat.ltb 1000 _); cbn;
    by rewrite Hp.
Qed.

Lemma listenerStep_discovered w op :
  discoveredOk (parser w) -> discoveredOk (parser (listenerStep w op)).
Proof.
  intros Hw. destruct op as [now data|now| | |resolver]; simpl; try done.
  - unfold handleTerminalData.
    destruct (negb _); [done|]. destruct (_ || _); [done|].
    pose proof (parseLines_discovered now
                  (split LF (Regex.removeAll ANSI_PATTERN data)) (parser w) Hw) as Hp.
    unfold parse.
    destruct (parseLines now _ (parser w)) as [events parser'].
    destruct (Nat.eqb _ _); [exact Hp|].
    destruct (deduplicateEvents now events _) as [uniqueEvents recent'].
    by rewrite dispatch_parser.
  - by destruct (advanceTo_frame now w) as (_ & _ & _ & _ & ->).
Qed.

(** X15.  The servers a listener has discovered from result lines are
    listed once each, every one has more than three units and is none of
    "error", "output" and "result" in any casing, and once the extension
    has synchronised them into a registry, a bulleted line with one of
    these names is an MCP call for a parser that reads that registry. *)
Theorem discovered_servers_become_mcp
    (resolver : option ItemTypeResolver) (ops : list ListenerOp) :
  let w := listenerAfter resolver ops in
  NoDup (listenerDiscoveredMcps w)
  /\ Forall plausibleServer (listenerDiscoveredMcps w)
  /\ forall r name, In name (listenerDiscoveredMcps w) ->
       cachedKind (Some (syncDiscovered w r)) name = mcp.
Proof.
  intros w.
  assert (discoveredOk (parser w)) as [Hnd Hall].
  { unfold w, listenerAfter.
    assert (forall w0, discoveredOk (parser w0) ->
              discoveredOk (parser (fold_left listenerStep ops w0))) as G.
    { induction ops as [|op ops IH]; intros w0 Hw0; simpl; [done|].
      by apply IH, listenerStep_discovered. }
    apply G. split; [apply NoDup_nil_2 | constructor]. }
  split_and!; [done | done |].
  intros r name Hin. unfold syncDiscovered.
  destruct (listenerDiscoveredMcps w) as [|n l] eqn:Hl; [done|].
  cbn [length Nat.ltb Nat.leb]. by apply registered_server_kind.
Qed.

(** ** Plan progress *)

Lemma filter_imap_completed (f : nat -> str * bool -> PlanStep) (steps : list (str * bool)) :
  (forall i s, step_completed (f i s) = snd s) ->
  length (List.filter step_completed (imap f steps)) = length (List.filter snd steps).
Proof.
  revert f. induction steps as [|s steps IH]; intros f Hf; [done|].
  cbn [imap List.filter]. rewrite Hf.
  destruct (snd s); cbn [length]; rewrite IH; try done; intros; apply Hf.
Qed.

Lemma filter_all_take {A} (f : A -> bool) (l : list A) :
  Forall (fun x => f x = true) (take (length (List.filter f l)) l) ->
  Forall (fun x => f x = false) (drop (length (List.filter f l)) l).
Proof.
  induction l as [|x l IH]; [constructor|]. cbn [List.filter].
  destruct (f x) eqn:Hx; cbn [length take drop].
  - intros H. apply Forall_cons in H as [_ H]. by apply IH.
  - intros H. assert (List.filter f l = []) as Hnone.
    { destruct (List.filter f l); [done|]. cbn in H. apply Forall_cons in H as [H _].
      congruence. }
    rewrite Hnone in *. cbn [length drop]. constructor; [done|].
    specialize (IH ltac:(constructor)). by rewrite drop_0 in IH.
Qed.

(** X16.  When [parsePlanProgress] finds a plan it has at least one step,
    [total] is the number of steps, [current] the number of completed
    steps, the step in progress is the one at index [current] and no
    other, so none is when every step is completed; and when the
    completed steps come first, the step in progress is not completed. *)
Theorem plan_progress_is_consistent (output : str) (pp : PlanProgress) :
  parsePlanProgress output = Some pp ->
  (0 < plan_total pp)%nat
  /\ plan_total pp = length (plan_steps pp)
  /\ plan_current pp = length (List.filter step_completed (plan_steps pp))
  /\ (plan_current pp <= plan_total pp)%nat
  /\ (forall i s, plan_steps pp !! i = Some s ->
        step_inProgress s = true <-> i = plan_current pp)
  /\ (Forall (fun s => step_completed s = true)
             (take (plan_current pp) (plan_steps pp)) ->
      forall s, plan_steps pp !! plan_current pp = Some s -> step_completed s = false).
Proof.
  unfold parsePlanProgress. cbv zeta.
  set (steps := planSteps (split LF output)).
  destruct (Nat.eqb (length steps) 0) eqn:Hlen; [done|]. intros [= <-].
  apply Nat.eqb_neq in Hlen. cbn [plan_total plan_current plan_steps].
  set (f := fun (i : nat) (s : str * bool) =>
              {| step_description := fst s; step_completed := snd s;
                 step_inProgress := Nat.eqb i (length (List.filter snd steps)) |}).
  assert (length (List.filter step_completed (imap f steps))
          = length (List.filter snd steps)) as Hcount
    by (by apply filter_imap_completed).
  split_and!.
  - lia.
  - by rewrite length_imap.
  - by rewrite Hcount.
  - apply List.filter_length_le.
  - intros i s Hs. rewrite list_lookup_imap in Hs.
    destruct (steps !! i) as [s0|]; [|done]. injection Hs as <-.
    cbn [step_inProgress f]. apply Nat.eqb_eq.
  - rewrite <- Hcount. intros Hfirst s Hs.
    pose proof (filter_all_take step_completed (imap f steps) Hfirst) as Hrest.
    rewrite Forall_forall in Hrest. apply Hrest.
    apply list_elem_of_lookup. exists 0%nat. rewrite lookup_drop.
    by rewrite Nat.add_0_r.
Qed.

Lemma plan_progress_is_consistent_witness :
  let pp := {| plan_current := 1; plan_total := 2;
               plan_steps := [{| step_description := js "read the code";
                                 step_completed := true; step_inProgress := false |};
                              {| step_description := js "write the proof";
                                 step_completed := false; step_inProgress := true |}] |} in
  parsePlanProgress (js "✓ 1. read the code
☐ 2. write the proof") = Some pp
  /\ plan_current pp = length (List.filter step_completed (plan_steps pp))
  /\ (forall i s, plan_steps pp !! i = Some s ->
        step_inProgress s = true <-> i = plan_current pp).
Proof.
  intros pp.
  assert (parsePlanProgress (js "✓ 1. read the code
☐ 2. write the proof") = Some pp) as H by (vm_compute; reflexivity).
  destruct (plan_progress_is_consistent _ pp H) as (_ & _ & Hc & _ & Hi & _).
  split_and!; [exact H | exact Hc | exact Hi].
Defined.

(** The step in progress is counted from the top: after an open step, a
    completed one can be the step in progress. *)
Example plan_in_progress_can_be_completed :
  plan_steps <$> parsePlanProgress (js "☐ first
✓ second")
  = Some [{| step_description := js "first"; step_completed := false;
             step_inProgress := false |};
          {| step_description := js "second"; step_completed := true;
             step_inProgress := true |}].
Proof. vm_compute. reflexivity. Qed.

(** ** What a match tells about the text *)

Section matcher_sound.
Import Regex.
Implicit Types (r : regex) (t : str) (c : caps)
  (k : str -> caps -> option (str * caps)).

Lemma run_unit_sound r n0 t c k v :
  is_unit r -> run r n0 t c k = Some v ->
  exists x t', t = x :: t' /\ unit_matches r x = true /\ k t' c = Some v.
Proof.
  intros Hu Hrun. destruct t as [|x t']; [by destruct r|].
  exists x, t'. destruct r; try done; cbn [run] in Hrun;
    destruct (unit_matches _ x) eqn:Hx; done.
Qed.

Lemma star_sound r n0 k fuel t c v :
  is_unit r -> star (run r n0) k fuel t c = Some v ->
  exists xs t', t = xs ++ t' /\ Forall (fun x => unit_matches r x = true) xs
                /\ k t' c = Some v.
Proof.
  intros Hu. revert t. induction fuel as [|fuel IH]; intros t Hstar; cbn [star] in Hstar.
  - exists [], t. by split_and!.
  - destruct (run r n0 t c _) as [res|] eqn:Hbody.
    + injection Hstar as ->.
      apply run_unit_sound in Hbody as (x & t1 & -> & Hx & Hloop); [|done].
      destruct (Nat.ltb _ _); [|done].
      apply IH in Hloop as (xs & t' & -> & Hxs & Hk).
      exists (x :: xs), t'. split_and!; [done | by constructor | done].
    + exists [], t. by split_and!.
Qed.

Lemma run_plus_sound r n0 t c k v :
  is_unit r -> run (RPlus r) n0 t c k = Some v ->
  exists x xs t', t = x :: xs ++ t' /\ unit_matches r x = true
                  /\ Forall (fun x => unit_matches r x = true) xs /\ k t' c = Some v.
Proof.
  intros Hu Hrun. unfold RPlus in Hrun. rewrite run_seq in Hrun.
  apply run_unit_sound in Hrun as (x & t1 & -> & Hx & Hstar); [|done].
  cbn [run] in Hstar. apply star_sound in Hstar as (xs & t' & -> & Hxs & Hk); [|done].
  by exists x, xs, t'.
Qed.

Lemma run_lit_sound (kw : str) n0 t c k v :
  run (lit kw) n0 t c k = Some v -> exists rest, t = kw ++ rest /\ k rest c = Some v.
Proof.
  unfold lit, seq. revert t. induction kw as [|a kw IH]; intros t Hrun; cbn in Hrun.
  - by exists t.
  - destruct t as [|x t]; [done|]. destruct (x =? a)%N eqn:Hx; [|done].
    apply N.eqb_eq in Hx. subst x. apply IH in Hrun as (rest & -> & Hk). by exists rest.
Qed.

Lemma exec_from_sound r n0 i t m :
  exec_from r n0 i t = Some m ->
  exists pre t0 t' c, t = pre ++ t0 /\ run r n0 t0 [] accept = Some (t', c)
                      /\ groups m = c.
Proof.
  revert i. induction t as [|x t IH]; intros i Hexec; cbn [exec_from] in Hexec.
  - destruct (run r n0 [] [] accept) as [[t' c]|] eqn:Hrun; [|done].
    injection Hexec as <-. by exists [], [], t', c.
  - destruct (run r n0 (x :: t) [] accept) as [[t' c]|] eqn:Hrun.
    + injection Hexec as <-. by exists [], (x :: t), t', c.
    + apply IH in Hexec as (pre & t0 & t' & c & -> & Hrun' & Hc).
      by exists (x :: pre), t0, t', c.
Qed.

Lemma word_matches x : unit_matches w x = isWord x.
Proof. cbn. by rewrite orb_false_r. Qed.

(** A word, blanks and a keyword: the three patterns of the hook messages. *)
Lemma word_then_keyword_sound (kw message : str) (m : result) :
  exec (seq [RGroup 1 (RPlus w); RPlus s; lit kw]) message = Some m ->
  exists pre name ws rest,
    message = pre ++ name ++ ws ++ kw ++ rest
    /\ groupOf 1 m = name
    /\ name <> [] /\ Forall (fun x => isWord x = true) name
    /\ ws <> [] /\ Forall (fun x => isSpace x = true) ws.
Proof.
  unfold exec. intros Hexec.
  apply exec_from_sound in Hexec as (pre & t0 & t' & c & -> & Hrun & Hc).
  unfold seq in Hrun. cbn [foldr] in Hrun. rewrite run_seq, run_group in Hrun.
  apply run_plus_sound in Hrun as (x & xs & t1 & -> & Hx & Hxs & Hrun); [|done].
  rewrite run_seq in Hrun.
  apply run_plus_sound in Hrun as (y & ys & t2 & -> & Hy & Hys & Hrun); [|done].
  rewrite run_seq in Hrun. apply run_lit_sound in Hrun as (rest & -> & Hrun).
  rewrite run_empty in Hrun. injection Hrun as <- <-.
  assert (take (length (xs ++ y :: ys ++ kw ++ rest) - length (ys ++ kw ++ rest))
               (x :: xs ++ y :: ys ++ kw ++ rest) = x :: xs) as Htake.
  { rewrite length_app. cbn [length].
    replace (length xs + S (length (ys ++ kw ++ rest)) - length (ys ++ kw ++ rest))%nat
      with (S (length xs)) by lia.
    cbn [take]. by rewrite take_app_length. }
  rewrite Htake in Hc.
  exists pre, (x :: xs), (y :: ys), rest. split_and!; try done.
  - unfold groupOf, group. by rewrite Hc.
  - constructor; [by rewrite <- word_matches|].
    eapply Forall_impl; [exact Hxs|]. intros z Hz. by rewrite <- word_matches.
  - constructor; [by rewrite <- space_matches|].
    eapply Forall_impl; [exact Hys|]. intros z Hz. by rewrite <- space_matches.
Qed.
End matcher_sound.

(** ** Hook messages *)

(** X17.  A status read from a hook message names a non-empty run of word
    units (never a dash or a slash) that stands in the message before
    blanks and the word of its kind; its name is its id and its time the
    time of the reading.  The kind is agent when a word and "agent" occur,
    skill or plugin only when they do not, and never mcp.  The event is
    START for "SubagentStart" and STOP for every other event name, and the
    manager then holds the id as running or not accordingly. *)
Theorem hook_message_status (now : Z) (event message : str) (st : HookStatus) :
  parseSystemMessage now event message = Some st ->
  agentName st = agentId st
  /\ hook_timestamp st = now
  /\ hook_type st <> mcp
  /\ (hook_event st = START <-> event = js "SubagentStart")
  /\ agentId st <> []
  /\ Forall (fun x => Regex.isWord x = true) (agentId st)
  /\ (exists pre ws rest,
        message = pre ++ agentId st ++ ws ++ kindName (hook_type st) ++ rest
        /\ ws <> [] /\ Forall (fun x => isSpace x = true) ws)
  /\ (hook_type st <> agent -> Regex.test AGENT_MESSAGE_PATTERN message = false)
  /\ (hook_type st = plugin -> Regex.test SKILL_MESSAGE_PATTERN message = false)
  /\ (forall ops now',
        isRunning (agentId st) (handleHookStatus now' st (managerAfter ops))
        = bool_decide (event = js "SubagentStart")).
Proof.
  unfold parseSystemMessage. cbv zeta. intros Hparse.
  assert (exists m k pattern,
    Regex.exec pattern message = Some m
    /\ pattern = Regex.seq [Regex.RGroup 1 (Regex.RPlus Regex.w); Regex.RPlus Regex.s;
                            Regex.lit (kindName k)]
    /\ k <> mcp
    /\ st = {| hook_event := if str_eqb event (js "SubagentStart") then START else STOP;
               agentId := groupOf 1 m; agentName := groupOf 1 m; hook_type := k;
               hook_timestamp := now |}
    /\ (k <> agent -> Regex.test AGENT_MESSAGE_PATTERN message = false)
    /\ (k = plugin -> Regex.test SKILL_MESSAGE_PATTERN message = false)) as Hcase.
  { unfold Regex.test.
    destruct (Regex.exec AGENT_MESSAGE_PATTERN message) as [m|] eqn:Ha.
    { injection Hparse as <-. exists m, agent, AGENT_MESSAGE_PATTERN. by split_and!. }
    destruct (Regex.exec SKILL_MESSAGE_PATTERN message) as [m|] eqn:Hs.
    { injection Hparse as <-. exists m, skill, SKILL_MESSAGE_PATTERN. by split_and!. }
    destruct (Regex.exec PLUGIN_MESSAGE_PATTERN message) as [m|] eqn:Hp; [|done].
    injection Hparse as <-. exists m, plugin, PLUGIN_MESSAGE_PATTERN. by split_and!. }
  destruct Hcase as (m & k & pattern & Hexec & -> & Hk & -> & Hagent & Hskill).
  apply word_then_keyword_sound in Hexec
    as (pre & name & ws & rest & Hmsg & Hname & Hne & Hword & Hws & Hspace).
  cbn [agentName agentId hook_timestamp hook_type hook_event]. rewrite Hname.
  assert ((if str_eqb event (js "SubagentStart") then START else STOP) = START
          <-> event = js "SubagentStart") as Hevent.
  { destruct (str_eqb event (js "SubagentStart")) eqn:E.
    - apply str_eqb_eq in E. tauto.
    - apply str_eqb_false in E. split; [discriminate | tauto]. }
  split_and!; try done.
  - by exists pre, ws, rest.
  - intros ops now'. destruct (managerAfter_ok ops) as [Hnd _].
    unfold handleHookStatus. cbn [hook_event agentId agentName hook_type].
    destruct (str_eqb event (js "SubagentStart")) eqn:E.
    + rewrite isRunning_startRunning, str_eqb_refl. apply str_eqb_eq in E.
      symmetry. by apply bool_decide_eq_true.
    + rewrite isRunning_stopRunning, str_eqb_refl by done. apply str_eqb_false in E.
      symmetry. by apply bool_decide_eq_false.
Qed.

Lemma hook_message_status_witness :
  let st := {| hook_event := START; agentId := js "debugger"; agentName := js "debugger";
               hook_type := agent; hook_timestamp := 42 |} in
  parseSystemMessage 42 (js "SubagentStart")
    (js "I'm going to use the Task tool to launch a bug-debugger agent") = Some st
  /\ Forall (fun x => Regex.isWord x = true) (agentId st)
  /\ isRunning (agentId st) (handleHookStatus 43 st (managerAfter [])) = true.
Proof.
  intros st.
  assert (parseSystemMessage 42 (js "SubagentStart")
            (js "I'm going to use the Task tool to launch a bug-debugger agent")
          = Some st) as H by (vm_compute; reflexivity).
  destruct (hook_message_status 42 _ _ st H) as (_ & _ & _ & _ & _ & Hw & _ & _ & _ & Hr).
  split_and!; [exact H | exact Hw | exact (Hr [] 43)].
Defined.

(** ** Call events name their item *)

Section names.
Import Regex.
Implicit Types (r : regex) (t : str) (c : caps)
  (k : str -> caps -> option (str * caps)).

Lemma run_keeps r :
  keeps1 r = true ->
  forall n0 t c k v, run r n0 t c k = Some v ->
    exists t' c', k t' c' = Some v /\ (named c -> named c').
Proof.
  induction r as [x|x| |neg items| |r1 IH1 r2 IH2|r1 IH1 r2 IH2|r1 IH1|n r1 IH1| |];
    intros Hkeep n0 t c k v Hrun.
  1-4: apply run_unit_sound in Hrun as (y & t' & -> & _ & Hk); [|done];
       by exists t', c.
  - by exists t, c.
  - cbn [keeps1] in Hkeep. apply andb_true_iff in Hkeep as [H1 H2].
    rewrite run_seq in Hrun.
    apply (IH1 H1) in Hrun as (t1 & c1 & Hrun & Hc1).
    apply (IH2 H2) in Hrun as (t2 & c2 & Hk & Hc2).
    exists t2, c2. split; [done|]. tauto.
  - cbn [keeps1] in Hkeep. apply andb_true_iff in Hkeep as [H1 H2].
    cbn [run] in Hrun. destruct (run r1 n0 t c k) as [res|] eqn:Hleft.
    + injection Hrun as ->. by apply (IH1 H1) in Hleft.
    + by apply (IH2 H2) in Hrun.
  - cbn [keeps1] in Hkeep. cbn [run] in Hrun.
    remember (length t) as fuel eqn:Hfuel. clear Hfuel.
    revert t c Hrun. induction fuel as [|fuel IHf]; intros t c Hrun; cbn [star] in Hrun.
    + by exists t, c.
    + destruct (run r1 n0 t c _) as [res|] eqn:Hbody.
      * injection Hrun as ->.
        apply (IH1 Hkeep) in Hbody as (t1 & c1 & Hloop & Hc1).
        destruct (Nat.ltb _ _); [|done].
        apply IHf in Hloop as (t2 & c2 & Hk & Hc2).
        exists t2, c2. split; [done|]. tauto.
      * by exists t, c.
  - cbn [keeps1] in Hkeep. apply andb_true_iff in Hkeep as [Hn H1].
    rewrite run_group in Hrun.
    apply (IH1 H1) in Hrun as (t1 & c1 & Hk & Hc1).
    eexists t1, _. split; [exact Hk|].
    intros Hc. destruct (Hc1 Hc) as (x & xs & Hcap). exists x, xs.
    cbn [cap]. apply negb_true_iff in Hn. by rewrite Hn.
  - cbn [run] in Hrun. destruct (Nat.eqb _ _); [|done]. by exists t, c.
  - cbn [run] in Hrun. destruct t; [|done]. by exists [], c.
Qed.

Lemma run_names u n0 t c k v :
  is_unit u -> run (RGroup 1 (RPlus u)) n0 t c k = Some v ->
  exists t' c', k t' c' = Some v /\ named c'.
Proof.
  intros Hu Hrun. rewrite run_group in Hrun.
  apply run_plus_sound in Hrun as (x & xs & t' & -> & _ & _ & Hk); [|done].
  eexists t', _. split; [exact Hk|].
  exists x, xs. cbn [cap Nat.eqb].
  change (x :: xs ++ t') with ((x :: xs) ++ t'). by rewrite take_consumed.
Qed.

Lemma seq_keeps (rs : list regex) : forallb keeps1 rs = true -> keeps1 (seq rs) = true.
Proof.
  unfold seq. induction rs as [|r rs IH]; cbn; [done|].
  intros H. apply andb_true_iff in H as [H1 H2]. by rewrite H1, IH.
Qed.

(** A pattern that is a sequence with the name group in it: a match
    names the item. *)
Lemma exec_names (pre post : list regex) u (t : str) (m : result) :
  forallb keeps1 pre = true -> forallb keeps1 post = true -> is_unit u ->
  exec (seq (pre ++ RGroup 1 (RPlus u) :: post)) t = Some m ->
  exists x xs, groupOf 1 m = x :: xs.
Proof.
  intros Hpre Hpost Hu Hexec. unfold exec in Hexec.
  apply exec_from_sound in Hexec as (skipped & t0 & t' & c & _ & Hrun & Hc).
  assert (forall t1 c1 v, run (seq (pre ++ RGroup 1 (RPlus u) :: post)) (length t) t1 c1
                            accept = Some v -> named (snd v)) as Hall.
  { clear Hrun. induction pre as [|r pre IH]; intros t1 c1 v Hv.
    - cbn [app] in Hv. unfold seq in Hv. cbn [foldr] in Hv. fold (seq post) in Hv.
      rewrite run_seq in Hv. apply run_names in Hv as (t2 & c2 & Hv & Hnamed); [|done].
      apply (run_keeps _ (seq_keeps _ Hpost)) in Hv as (t3 & c3 & Hacc & Hc3).
      injection Hacc as <-. by apply Hc3.
    - cbn [forallb] in Hpre. apply andb_true_iff in Hpre as [Hr Hpre].
      cbn [app] in Hv. unfold seq in Hv. cbn [foldr] in Hv.
      fold (seq (pre ++ RGroup 1 (RPlus u) :: post)) in Hv.
      rewrite run_seq in Hv. apply (run_keeps _ Hr) in Hv as (t2 & c2 & Hv & _).
      by apply (IH Hpre) in Hv. }
  apply Hall in Hrun as (x & xs & Hcap). cbn [snd] in Hcap.
  exists x, xs. unfold groupOf, group. by rewrite Hc, Hcap.
Qed.

Lemma skill_format_names t m :
  exec SKILL_FORMAT_PATTERN t = Some m -> exists x xs, groupOf 1 m = x :: xs.
Proof.
  apply (exec_names [RBos; RChar BULLET; RStar s; lit (js "/"); RStar s] _
           (cls [CWord; CChr 45])); done.
Qed.

Lemma mcp_format_names t m :
  exec MCP_FORMAT_PATTERN t = Some m -> exists x xs, groupOf 1 m = x :: xs.
Proof.
  apply (exec_names [RBos; RChar BULLET; RStar s; lit (js "mcp");
                     cls [CChr 45; CChr 95; CChr 58]] _
           (cls [CRange 97 122; CRange 65 90; CRange 48 57; CChr 95; CChr 45])); done.
Qed.

Lemma agent_format_names t m :
  exec AGENT_FORMAT_PATTERN t = Some m -> exists x xs, groupOf 1 m = x :: xs.
Proof.
  apply (exec_names [RBos; RChar BULLET; RStar s] _ (cls [CWord; CChr 45])); done.
Qed.

Lemma skill_call_names t m :
  exec SKILL_CALL_PATTERN t = Some m -> exists x xs, groupOf 1 m = x :: xs.
Proof. apply (exec_names [RBos; lit (js "[skill]"); RPlus s] _ w); done. Qed.

Lemma agent_call_names t m :
  exec AGENT_CALL_PATTERN t = Some m -> exists x xs, groupOf 1 m = x :: xs.
Proof. apply (exec_names [RBos; lit (js "[agent]"); RPlus s] _ w); done. Qed.
End names.

Lemma callType_inj k k' : callType k = callType k' -> k = k'.
Proof. by destruct k, k'. Qed.

Lemma parseLine_names now line p e p' :
  parseLine now line p = (Some e, p') ->
  timestamp e = now
  /\ ((exists k id, type e = callType k /\ truthyStr (kindProp k) (details e) = Some id)
      \/ ((type e = tool_call \/ type e = plan_progress)
          /\ forall k, type e <> callType k)).
Proof.
  unfold parseLine. destruct line as [|x0 line]; [done|].
  destruct (Regex.exec SKILL_FORMAT_PATTERN _) as [m|] eqn:H1.
  { intros [= <- _]. split; [done|]. left.
    destruct (skill_format_names _ _ H1) as (x & xs & Hname).
    exists skill, (x :: xs). cbn. by rewrite Hname. }
  destruct (Regex.exec MCP_FORMAT_PATTERN _) as [m|] eqn:H2.
  { intros [= <- _]. split; [done|]. left.
    destruct (mcp_format_names _ _ H2) as (x & xs & Hname).
    exists mcp, (x :: xs). cbn. by rewrite Hname. }
  destruct (Regex.exec AGENT_FORMAT_PATTERN _) as [m|] eqn:H3.
  { intros [= <- _]. split; [done|]. left.
    destruct (agent_format_names _ _ H3) as (x & xs & Hname).
    exists (cachedKind (itemTypeResolver p) (groupOf 1 m)), (x :: xs).
    split; [done|]. cbn [details]. rewrite Hname.
    by destruct (cachedKind (itemTypeResolver p) (x :: xs)). }
  destruct (Regex.exec SKILL_CALL_PATTERN _) as [m|] eqn:H4.
  { intros [= <- _]. split; [done|]. left.
    destruct (skill_call_names _ _ H4) as (x & xs & Hname).
    exists skill, (x :: xs). cbn. by rewrite Hname. }
  destruct (Regex.exec AGENT_CALL_PATTERN _) as [m|] eqn:H5.
  { intros [= <- _]. split; [done|]. left.
    destruct (agent_call_names _ _ H5) as (x & xs & Hname).
    exists agent, (x :: xs). cbn. by rewrite Hname. }
  destruct (Regex.exec TOOL_CALL_PATTERN _) as [m|] eqn:H6.
  { intros [= <- _]. split; [done|]. right. split; [by left|]. by intros []. }
  destruct (Regex.exec PLAN_STEP_PATTERN _) as [m|] eqn:H7.
  { intros [= <- _]. split; [done|]. right. split; [by right|]. by intros []. }
  destruct (Regex.exec MCP_RESULT_PATTERN _) as [m|]; [|done].
  by destruct (_ && _).
Qed.

Lemma parseLines_from_line now lines p e :
  In e (fst (parseLines now lines p)) ->
  exists line p0 p1, In line lines /\ parseLine now (trim line) p0 = (Some e, p1).
Proof.
  revert p. induction lines as [|line lines IH]; intros p Hin; [done|].
  cbn [parseLines] in Hin.
  destruct (parseLine now (trim line) p) as [event p1] eqn:Hline.
  specialize (IH p1). destruct (parseLines now lines p1) as [events p2].
  cbn [fst] in *.
  assert (In e events -> exists line0 p0 p3, In line0 (line :: lines)
            /\ parseLine now (trim line0) p0 = (Some e, p3)) as Hrest.
  { intros H. destruct (IH H) as (l0 & p0 & p3 & Hl0 & Hp). exists l0, p0, p3.
    split; [by right | done]. }
  destruct event as [e0|]; [|by apply Hrest].
  destruct Hin as [->|Hin]; [|by apply Hrest].
  exists line, p, p1. split; [by left | done].
Qed.

Lemma startItem_other now k event w :
  type event <> callType k -> startItem now k event w = w.
Proof. intros H. unfold startItem. by rewrite bool_decide_eq_false_2. Qed.

Lemma startItem_fires now k event w id :
  type event = callType k -> truthyStr (kindProp k) (details event) = Some id ->
  startItem now k event w = started now id k event w.
Proof. intros H Hid. unfold startItem. by rewrite bool_decide_eq_true_2, Hid. Qed.

Lemma startItems_fires now k event w id :
  type event = callType k -> truthyStr (kindProp k) (details event) = Some id ->
  startItems now event w = started now id k event w.
Proof.
  intros H Hid. unfold startItems.
  destruct k;
    repeat first
      [ rewrite (startItem_fires now _ event _ id H Hid)
      | rewrite startItem_other by (rewrite H; discriminate) ];
    reflexivity.
Qed.

Lemma startItems_none now event w :
  (forall k, type event <> callType k) -> startItems now event w = w.
Proof. intros H. unfold startItems. by rewrite !startItem_other. Qed.

(** X18.  Every event of a parse carries the time of the pass.  An agent,
    skill, plugin or MCP call among them always names its item under the
    property of its kind, so the listener starts it: the id becomes active
    with the kind of the event, a timeout is armed for ten seconds later,
    and a start is reported with the content of the event as the name.
    Tool calls and plan steps are the only other events, and they start
    nothing. *)
Theorem call_events_start_their_item
    (now : Z) (output : str) (p : OutputParser) (e : TerminalEvent) :
  In e (fst (parse now output p)) ->
  timestamp e = now
  /\ ((exists k id,
         type e = callType k
         /\ truthyStr (kindProp k) (details e) = Some id
         /\ forall w,
              startItems now e w = started now id k e w
              /\ JsMap.get id (activeIds (startItems now e w)) = Some k
              /\ In {| handle := nextHandle w; due := now + AGENT_TIMEOUT;
                       timer_id := id; timer_type := k |}
                    (timers (startItems now e w))
              /\ runningStateCalls (startItems now e w)
                 = runningStateCalls w
                   ++ [{| call_time := now; call_id := id; call_name := content e;
                          call_type := k; call_state := start |}])
      \/ ((type e = tool_call \/ type e = plan_progress)
          /\ forall w, startItems now e w = w)).
Proof.
  intros Hin. unfold parse in Hin.
  apply parseLines_from_line in Hin as (line & p0 & p1 & _ & Hline).
  apply parseLine_names in Hline as [Htime [(k & id & Htype & Hid)|[Htype Hnone]]].
  - split; [done|]. left. exists k, id. split_and!; [done | done |].
    intros w. rewrite (startItems_fires now k e w id Htype Hid).
    split_and!; [done | | | done].
    + cbn. apply JsMap_get_set_eq.
    + cbn. apply In_enqueue. by left.
  - split; [done|]. right. split; [done|]. intros w. by apply startItems_none.
Qed.

Lemma call_events_start_their_item_witness :
  timestamp (commitEvent 3) = 3
  /\ JsMap.get (js "commit") (activeIds (startItems 3 (commitEvent 3) (newListener None)))
     = Some skill.
Proof.
  destruct (call_events_start_their_item 3 commitChunk sampleParser (commitEvent 3))
    as [Htime [(k & id & Htype & Hid & Hw)|[[Htype|Htype] _]]].
  - vm_compute. by left.
  - split; [exact Htime|].
    assert (k = skill) as -> by (by apply callType_inj).
    assert (id = js "commit") as -> by (vm_compute in Hid |- *; congruence).
    by destruct (Hw (newListener None)) as (_ & Hget & _).
  - discriminate Htype.
  - discriminate Htype.
Defined.

(** ** The colour cache *)

Section colorCache.
Variable extract : str -> option str.

Lemma getAgentColor_invalid readFile name rd :
  cacheValid rd = false ->
  fst (getAgentColor extract readFile name rd) = colorOnDisk extract readFile name
  /\ cacheValid (snd (getAgentColor extract readFile name rd)) = false.
Proof.
  intros Hinv. unfold getAgentColor, colorOnDisk. rewrite Hinv. cbn [andb].
  by destruct (readFile name).
Qed.

Lemma getAgentColorsFrom_invalid readFile names colorMap rd :
  cacheValid rd = false ->
  cacheValid (snd (getAgentColorsFrom extract readFile names colorMap rd)) = false
  /\ forall name,
       JsMap.get name (fst (getAgentColorsFrom extract readFile names colorMap rd))
       = if bool_decide (name ∈ names)
         then match orNull (colorOnDisk extract readFile name) with
              | Some c => Some c
              | None => JsMap.get name colorMap
              end
         else JsMap.get name colorMap.
Proof.
  revert colorMap rd. induction names as [|n names IH]; intros colorMap rd Hinv.
  - split; [done|]. intros name. by rewrite bool_decide_eq_false_2 by apply not_elem_of_nil.
  - cbn [getAgentColorsFrom].
    destruct (getAgentColor_invalid readFile n rd Hinv) as [Hcolor Hinv'].
    destruct (getAgentColor extract readFile n rd) as [color rd1]. cbn [fst snd] in *.
    subst color.
    assert (forall colorMap',
      (forall name, JsMap.get name colorMap'
                    = if bool_decide (name = n)
                      then match orNull (colorOnDisk extract readFile n) with
                           | Some c => Some c
                           | None => JsMap.get name colorMap
                           end
                      else JsMap.get name colorMap) ->
      cacheValid (snd (getAgentColorsFrom extract readFile names colorMap' rd1)) = false
      /\ forall name,
           JsMap.get name (fst (getAgentColorsFrom extract readFile names colorMap' rd1))
           = if bool_decide (name ∈ n :: names)
             then match orNull (colorOnDisk extract readFile name) with
                  | Some c => Some c
                  | None => JsMap.get name colorMap
                  end
             else JsMap.get name colorMap) as Hstep.
    { intros colorMap' Hmap. destruct (IH colorMap' rd1 Hinv') as [Hv Hget].
      split; [done|]. intros name. rewrite Hget, Hmap.
      destruct (decide (name = n)) as [->|Hne].
      - rewrite (bool_decide_eq_true_2 (n = n)) by done.
        rewrite (bool_decide_eq_true_2 (n ∈ n :: names)) by apply list_elem_of_here.
        destruct (bool_decide (n ∈ names)); by destruct (orNull _).
      - rewrite (bool_decide_eq_false_2 (name = n)) by done.
        destruct (decide (name ∈ names)) as [Hin|Hout].
        + rewrite !bool_decide_eq_true_2; [done | by apply list_elem_of_further | done].
        + rewrite !bool_decide_eq_false_2; [done | | done].
          intros H. apply elem_of_cons in H as [?|?]; done. }
    destruct (colorOnDisk extract readFile n) as [[|c s]|] eqn:Hdisk; cbn [orNull] in *.
    + apply Hstep. intros name. by destruct (bool_decide (name = n)).
    + apply Hstep. intros name. destruct (decide (name = n)) as [->|Hne].
      * rewrite bool_decide_eq_true_2 by done. apply JsMap_get_set_eq.
      * rewrite bool_decide_eq_false_2 by done. by apply JsMap_get_set_ne.
    + apply Hstep. intros name. by destruct (bool_decide (name = n)).
Qed.

Lemma colorStep_invalid rd op : cacheValid rd = false -> cacheValid (colorStep extract rd op) = false.
Proof.
  intros Hinv. destruct op as [readFile name|readFile names|]; simpl.
  - by apply getAgentColor_invalid.
  - by apply getAgentColorsFrom_invalid.
  - done.
Qed.

(** X19.  The reader never marks its cache valid by itself.  Whatever
    requests for one colour, for many colours and whatever [clearCache]
    calls it has served, it answers the next request from the file as it
    is then, with nothing when the file cannot be read, and never from the
    cache; and [getAgentColors] lists a colour for exactly the names asked
    whose file gives a non-empty one. *)
Theorem color_cache_is_never_consulted
    (ops : list ColorOp) (readFile : str -> Outcome str) :
  let rd := fold_left (colorStep extract) ops newColorReader in
  cacheValid rd = false
  /\ (forall name,
        fst (getAgentColor extract readFile name rd) = colorOnDisk extract readFile name)
  /\ (forall names name,
        JsMap.get name (fst (getAgentColors extract readFile names rd))
        = if bool_decide (name ∈ names)
          then orNull (colorOnDisk extract readFile name) else None).
Proof.
  intros rd.
  assert (cacheValid rd = false) as Hinv.
  { unfold rd.
    assert (forall rd0, cacheValid rd0 = false ->
              cacheValid (fold_left (colorStep extract) ops rd0) = false) as G.
    { induction ops as [|op ops' IH]; intros rd0 H0; simpl; [done|].
      by apply IH, colorStep_invalid. }
    by apply G. }
  split_and!; [done | |].
  - intros name. by apply getAgentColor_invalid.
  - intros names name. unfold getAgentColors.
    destruct (getAgentColorsFrom_invalid readFile names [] rd Hinv) as [_ Hget].
    rewrite Hget. cbn [JsMap.get]. destruct (bool_decide _); [|done].
    by destruct (orNull _).
Qed.

(** X20.  Once the cache has been marked valid, a name asked before is
    answered from the cache: the second answer is the first one (nothing
    when it was empty), the file is not read again, whatever it holds now,
    and the reader stays as it is; [clearCache] ends this. *)
Theorem valid_cache_answers_again
    (readFile1 readFile2 : str -> Outcome str) (name : str) (rd : AgentColorReader) :
  cacheValid rd = true ->
  let first := getAgentColor extract readFile1 name rd in
  getAgentColor extract readFile2 name (snd first) = (orNull (fst first), snd first)
  /\ fst (getAgentColor extract readFile2 name (clearCache (snd first)))
     = colorOnDisk extract readFile2 name.
Proof.
  intros Hvalid first.
  assert (getAgentColor extract readFile2 name (snd first) = (orNull (fst first), snd first))
    as Hagain.
  { unfold first. destruct (JsMap.has name (colorCache rd)) eqn:Hhas.
    - assert (getAgentColor extract readFile1 name rd
              = (orNull (mjoin (JsMap.get name (colorCache rd))), rd)) as ->
        by (unfold getAgentColor; by rewrite Hvalid, Hhas).
      cbn [fst snd]. unfold getAgentColor. rewrite Hvalid, Hhas. cbn [andb].
      by destruct (mjoin (JsMap.get name (colorCache rd))) as [[|c s]|].
    - assert (forall color,
                getAgentColor extract readFile2 name
                  {| colorCache := JsMap.set name color (colorCache rd);
                     cacheValid := true |}
                = (orNull color, {| colorCache := JsMap.set name color (colorCache rd);
                                    cacheValid := true |})) as Hhit.
      { intros color. unfold getAgentColor. cbn [cacheValid colorCache andb].
        unfold JsMap.has. by rewrite JsMap_get_set_eq. }
      unfold getAgentColor at 2 3 4. rewrite Hvalid, Hhas. cbn [andb].
      destruct (readFile1 name) as [content|err]; cbn [fst snd]; apply Hhit. }
  split; [exact Hagain|]. by apply getAgentColor_invalid.
Qed.
End colorCache.

Lemma valid_cache_answers_again_witness :
  let extract := fun content : str => Some content in
  let onDisk1 := fun _ : str => Returned (js "#10b981") in
  let onDisk2 := fun _ : str => @Thrown str (js "ENOENT") in
  let first := getAgentColor extract onDisk1 (js "Explore") (markCacheValid newColorReader) in
  getAgentColor extract onDisk2 (js "Explore") (snd first) = (Some (js "#10b981"), snd first).
Proof.
  intros extract onDisk1 onDisk2 first.
  destruct (valid_cache_answers_again extract onDisk1 onDisk2 (js "Explore")
              (markCacheValid newColorReader) eq_refl) as [H _].
  exact H.
Defined.

(** ** Bracketed lines *)

Section bracket_shapes.
Import Regex.

Lemma run_lit_app (kw : str) n0 t c k : run (lit kw) n0 (kw ++ t) c k = k t c.
Proof.
  unfold lit, seq. induction kw as [|a kw IH]; cbn [List.map foldr app]; [done|].
  by rewrite run_seq, run_char.
Qed.

Lemma anchored_fails r t :
  (forall n0 v, run r n0 t [] accept = Some v -> False) -> exec (RSeq RBos r) t = None.
Proof.
  intros H. apply exec_anchored_none. rewrite run_seq, run_bos.
  destruct (run r (length t) t [] accept) as [v|] eqn:Hrun; [|done]. by destruct (H _ _ Hrun).
Qed.

Lemma anchored_char_fails a tail x t :
  x <> a -> exec (RSeq RBos (RSeq (RChar a) tail)) (x :: t) = None.
Proof.
  intros Hne. apply anchored_fails. intros n0 v Hrun. rewrite run_seq in Hrun.
  apply run_unit_sound in Hrun as (y & t' & [= <- <-] & Hy & _); [|done].
  cbn in Hy. by apply N.eqb_eq in Hy.
Qed.

Lemma anchored_lit_fails kw tail t :
  (forall rest, t <> kw ++ rest) -> exec (RSeq RBos (RSeq (lit kw) tail)) t = None.
Proof.
  intros Hne. apply anchored_fails. intros n0 v Hrun. rewrite run_seq in Hrun.
  apply run_lit_sound in Hrun as (rest & -> & _). by destruct (Hne rest).
Qed.

(** No bulleted pattern matches a line that starts with a bracket. *)
Lemma bullet_patterns_fail_on_bracket t :
  exec SKILL_FORMAT_PATTERN (91%N :: t) = None
  /\ exec MCP_FORMAT_PATTERN (91%N :: t) = None
  /\ exec AGENT_FORMAT_PATTERN (91%N :: t) = None.
Proof. split_and!; by apply anchored_char_fails. Qed.

Lemma dot_matches x : unit_matches RDot x = negb (isLineTerminator x).
Proof. reflexivity. Qed.

Lemma letter_matches x :
  unit_matches (cls [CRange 97 122; CRange 65 90]) x = isLetter x.
Proof. unfold isLetter, isLower, isUpper. cbn. by rewrite orb_false_r. Qed.

Lemma upper_matches x : unit_matches (cls [CRange 65 90]) x = isUpper x.
Proof. unfold isUpper. cbn. by rewrite orb_false_r. Qed.

Lemma word_not_space x : isWord x = true -> isSpace x = false.
Proof. intros H. apply nameUnit_not_space. unfold isNameUnit. by rewrite H. Qed.

(** The tail shared by the bracketed patterns: the rest of the line in
    group 2, and the end. *)
Lemma run_rest_of_line n0 (text : str) c :
  lineText text ->
  run (RSeq (RGroup 2 (RPlus RDot)) (RSeq REos REmpty)) n0 text c accept
  = Some ([], (2%nat, text) :: c).
Proof.
  intros ((x & t' & -> & _) & Hdot & _). apply Forall_cons in Hdot as [Hx Hdot].
  assert (run (RSeq (RGroup 2 (RPlus RDot)) (RSeq REos REmpty)) n0 ((x :: t') ++ []) c accept
          = Some ([], (2%nat, x :: t') :: c)) as H.
  { rewrite run_seq, run_group. cbn [app]. apply run_plus_greedy; [done | | | done |].
    - by rewrite dot_matches, Hx.
    - eapply Forall_impl; [exact Hdot|]. intros y Hy. by rewrite dot_matches, Hy.
    - change (x :: t' ++ []) with ((x :: t') ++ []). by rewrite take_consumed. }
  by rewrite app_nil_r in H.
Qed.

Lemma call_shape_matches (kw ws1 name ws2 action : str) :
  ws1 <> [] -> Forall (fun x => isSpace x = true) ws1 ->
  name <> [] -> Forall (fun x => isWord x = true) name ->
  Forall (fun x => isSpace x = true) ws2 ->
  lineText action ->
  exec (seq [RBos; lit kw; RPlus s; RGroup 1 (RPlus w); lit (js ":"); RStar s;
             RGroup 2 (RPlus RDot); REos])
       (kw ++ ws1 ++ name ++ js ":" ++ ws2 ++ action)
  = Some {| index := 0; matched := kw ++ ws1 ++ name ++ js ":" ++ ws2 ++ action;
            groups := [(2%nat, action); (1%nat, name)] |}.
Proof.
  intros Hne1 Hws1 Hne Hname Hws2 Haction. apply exec_at_start.
  unfold seq at 1. cbn [foldr]. rewrite run_seq, run_bos. cbv beta.
  generalize (length (kw ++ ws1 ++ name ++ js ":" ++ ws2 ++ action)). intros n0.
  rewrite run_seq, run_lit_app.
  destruct ws1 as [|y ws1]; [done|]. apply Forall_cons in Hws1 as [Hy Hws1].
  destruct name as [|x name]; [done|]. apply Forall_cons in Hname as [Hx Hname].
  rewrite run_seq. cbn [app]. apply run_plus_greedy; [done | | | |].
  - by rewrite space_matches.
  - eapply Forall_impl; [exact Hws1|]. intros z Hz. by rewrite space_matches.
  - cbn [haltsAt]. rewrite space_matches. by apply word_not_space.
  - rewrite run_seq, run_group. apply run_plus_greedy; [done | | | |].
    + by rewrite word_matches.
    + eapply Forall_impl; [exact Hname|]. intros z Hz. by rewrite word_matches.
    + reflexivity.
    + change (x :: name ++ js ":" ++ ws2 ++ action)
        with ((x :: name) ++ js ":" ++ ws2 ++ action).
      rewrite take_consumed. rewrite run_seq, run_lit_app.
      rewrite run_seq. apply run_star_greedy; [done | | |].
      * eapply Forall_impl; [exact Hws2|]. intros z Hz. by rewrite space_matches.
      * destruct Haction as ((a & t' & -> & Ha) & _). cbn [haltsAt].
        by rewrite space_matches.
      * by apply run_rest_of_line.
Qed.

Lemma tool_shape_matches (x : N) (name ws rest : str) :
  isUpper x = true -> Forall (fun y => isLetter y = true) name ->
  ws <> [] -> Forall (fun y => isSpace y = true) ws ->
  lineText rest ->
  exec TOOL_CALL_PATTERN (toolLine (x :: name) ws rest)
  = Some {| index := 0; matched := toolLine (x :: name) ws rest;
            groups := [(2%nat, rest); (1%nat, x :: name)] |}.
Proof.
  intros Hx Hname Hne Hws Hrest. apply exec_at_start.
  unfold TOOL_CALL_PATTERN. unfold seq at 1. cbn [foldr]. rewrite run_seq, run_bos. cbv beta.
  generalize (length (toolLine (x :: name) ws rest)). intros n0.
  unfold toolLine. rewrite run_seq, run_lit_app.
  rewrite run_seq, run_group, run_seq. cbn [app].
  apply run_unit; [done | by rewrite upper_matches |].
  apply run_star_greedy; [done | | |].
  - eapply Forall_impl; [exact Hname|]. intros z Hz. by rewrite letter_matches.
  - reflexivity.
  - change (x :: name ++ js "]" ++ ws ++ rest) with ((x :: name) ++ js "]" ++ ws ++ rest).
    rewrite take_consumed. rewrite run_seq, run_lit_app.
    destruct ws as [|y ws]; [done|]. apply Forall_cons in Hws as [Hy Hws].
    rewrite run_seq. cbn [app]. apply run_plus_greedy; [done | | | |].
    + by rewrite space_matches.
    + eapply Forall_impl; [exact Hws|]. intros z Hz. by rewrite space_matches.
    + destruct Hrest as ((a & t' & -> & Ha) & _). cbn [haltsAt]. by rewrite space_matches.
    + by apply run_rest_of_line.
Qed.

Lemma bracket_line_trimmed (body text : str) :
  lineText text -> trim (91%N :: body ++ text) = 91%N :: body ++ text.
Proof.
  intros ((x & t' & Htext & _) & _ & Hlast).
  destruct (exists_last (l := text)) as (t0 & y & ->); [by rewrite Htext|].
  rewrite app_assoc. apply trim_fixed; [done|]. by eapply Hlast.
Qed.
End bracket_shapes.

Lemma bracket_skill_parsed now (t : str) (p : OutputParser) m :
  trim (91%N :: t) = 91%N :: t ->
  Regex.exec SKILL_CALL_PATTERN (91%N :: t) = Some m ->
  parseLine now (91%N :: t) p
  = (Some {| type := skill_call; timestamp := now; content := groupOf 2 m;
             details := [("skill", VStr (groupOf 1 m)); ("raw", VStr (91%N :: t))] |}, p).
Proof.
  intros Htrim Hm. unfold parseLine. rewrite Htrim.
  destruct (bullet_patterns_fail_on_bracket t) as (-> & -> & ->). by rewrite Hm.
Qed.

Lemma bracket_agent_parsed now (t : str) (p : OutputParser) m :
  trim (91%N :: t) = 91%N :: t ->
  Regex.exec SKILL_CALL_PATTERN (91%N :: t) = None ->
  Regex.exec AGENT_CALL_PATTERN (91%N :: t) = Some m ->
  parseLine now (91%N :: t) p
  = (Some {| type := agent_call; timestamp := now; content := groupOf 2 m;
             details := [("agent", VStr (groupOf 1 m)); ("raw", VStr (91%N :: t))] |}, p).
Proof.
  intros Htrim Hs Hm. unfold parseLine. rewrite Htrim.
  destruct (bullet_patterns_fail_on_bracket t) as (-> & -> & ->). by rewrite Hs, Hm.
Qed.

Lemma bracket_tool_parsed now (t : str) (p : OutputParser) m :
  trim (91%N :: t) = 91%N :: t ->
  Regex.exec SKILL_CALL_PATTERN (91%N :: t) = None ->
  Regex.exec AGENT_CALL_PATTERN (91%N :: t) = None ->
  Regex.exec TOOL_CALL_PATTERN (91%N :: t) = Some m ->
  parseLine now (91%N :: t) p
  = (Some {| type := tool_call; timestamp := now; content := groupOf 2 m;
             details := [("tool", VStr (groupOf 1 m)); ("raw", VStr (91%N :: t))] |}, p).
Proof.
  intros Htrim Hs Ha Hm. unfold parseLine. rewrite Htrim.
  destruct (bullet_patterns_fail_on_bracket t) as (-> & -> & ->). by rewrite Hs, Ha, Hm.
Qed.

(** X21.  A line made of "[skill]" or "[agent]", blanks, a name of word
    characters, a colon, optional blanks and an action is a skill or agent
    call of that name with the action as content, whatever the registry
    holds, and the listener starts the name as running under that kind. *)
Theorem bracketed_call_line_starts_its_name
    (now : Z) (k : ItemKind) (ws1 name ws2 action : str) (p : OutputParser) :
  k = skill \/ k = agent ->
  ws1 <> [] -> Forall (fun x => isSpace x = true) ws1 ->
  name <> [] -> Forall (fun x => Regex.isWord x = true) name ->
  Forall (fun x => isSpace x = true) ws2 ->
  lineText action ->
  let line := callLine k ws1 name ws2 action in
  let e := {| type := callType k; timestamp := now; content := action;
              details := [(kindProp k, VStr name); ("raw", VStr line)] |} in
  parseLine now line p = (Some e, p)
  /\ forall w, startItems now e w = started now name k e w.
Proof.
  intros Hk Hne1 Hws1 Hne Hname Hws2 Haction line e.
  assert (parseLine now line p = (Some e, p)) as Hparse.
  { assert (forall k0 : ItemKind,
              trim (callLine k0 ws1 name ws2 action) = callLine k0 ws1 name ws2 action)
      as Htrim.
    { intros k0.
      change (callLine k0 ws1 name ws2 action)
        with (91%N :: (kindName k0 ++ js "]" ++ ws1 ++ name ++ js ":" ++ ws2 ++ action)).
      replace (kindName k0 ++ js "]" ++ ws1 ++ name ++ js ":" ++ ws2 ++ action)
        with ((kindName k0 ++ js "]" ++ ws1 ++ name ++ js ":" ++ ws2) ++ action)
        by (by rewrite <- !app_assoc).
      by apply bracket_line_trimmed. }
    unfold e, line. destruct Hk as [-> | ->].
    - pose proof (call_shape_matches (js "[skill]") ws1 name ws2 action
                    Hne1 Hws1 Hne Hname Hws2 Haction) as Hm.
      apply (bracket_skill_parsed now _ p _ (Htrim skill) Hm).
    - pose proof (call_shape_matches (js "[agent]") ws1 name ws2 action
                    Hne1 Hws1 Hne Hname Hws2 Haction) as Hm.
      refine (bracket_agent_parsed now _ p _ (Htrim agent) _ Hm).
      apply anchored_lit_fails. intros rest Heq. vm_compute in Heq. discriminate Heq. }
  split; [exact Hparse|]. intros w. apply startItems_fires; [done|].
  unfold e. cbn [details]. destruct name as [|x name]; [done|].
  by destruct Hk as [-> | ->].
Qed.

Lemma bracketed_call_line_starts_its_name_witness :
  let line := callLine skill (js " ") (js "commit") (js " ") (js "create a commit") in
  let e := {| type := skill_call; timestamp := 4; content := js "create a commit";
              details := [("skill", VStr (js "commit")); ("raw", VStr line)] |} in
  parseLine 4 line sampleParser = (Some e, sampleParser)
  /\ forall w, startItems 4 e w = started 4 (js "commit") skill e w.
Proof.
  apply (bracketed_call_line_starts_its_name 4 skill (js " ") (js "commit") (js " ")
           (js "create a commit") sampleParser).
  - by left.
  - discriminate.
  - by repeat constructor.
  - discriminate.
  - vm_compute. by repeat constructor.
  - by repeat constructor.
  - split_and!.
    + by eexists _, _.
    + vm_compute. by repeat constructor.
    + intros t0 y Heq. apply (f_equal last) in Heq. rewrite last_snoc in Heq.
      vm_compute in Heq. by injection Heq as <-.
Defined.

(** X22.  A line made of a bracketed name (an upper-case letter and
    letters), blanks and a rest is a tool call: the name is the tool, the
    rest the content.  This holds for "[Skill]" and "[Agent]" with a
    capital too, which are among the markers of the quick filter: such a
    line is reported as an event and starts nothing. *)
Theorem bracketed_tool_line_starts_nothing
    (now : Z) (x : N) (name ws rest : str) (p : OutputParser) :
  Regex.isUpper x = true -> Forall (fun y => isLetter y = true) name ->
  ws <> [] -> Forall (fun y => isSpace y = true) ws ->
  lineText rest ->
  let line := toolLine (x :: name) ws rest in
  let e := {| type := tool_call; timestamp := now; content := rest;
              details := [("tool", VStr (x :: name)); ("raw", VStr line)] |} in
  parseLine now line p = (Some e, p)
  /\ forall w, startItems now e w = w.
Proof.
  intros Hx Hname Hne Hws Hrest line e. split.
  - assert (trim (toolLine (x :: name) ws rest) = toolLine (x :: name) ws rest) as Htrim.
    { change (toolLine (x :: name) ws rest)
        with (91%N :: ((x :: name) ++ js "]" ++ ws ++ rest)).
      replace ((x :: name) ++ js "]" ++ ws ++ rest)
        with (((x :: name) ++ js "]" ++ ws) ++ rest) by (by rewrite <- !app_assoc).
      by apply bracket_line_trimmed. }
    assert (forall kw : str,
              (exists y kw', kw = 91%N :: y :: kw' /\ Regex.isUpper y = false) ->
              forall tail,
                Regex.exec (Regex.RSeq Regex.RBos (Regex.RSeq (Regex.lit kw) tail))
                  (toolLine (x :: name) ws rest) = None) as Hlit.
    { intros kw (y & kw' & -> & Hy) tail. apply anchored_lit_fails. intros rest' Heq.
      cbn in Heq. injection Heq as <- _. by rewrite Hx in Hy. }
    pose proof (tool_shape_matches x name ws rest Hx Hname Hne Hws Hrest) as Hm.
    unfold e, line.
    refine (bracket_tool_parsed now _ p _ Htrim _ _ Hm).
    + apply (Hlit (js "[skill]")). by eexists _, _.
    + apply (Hlit (js "[agent]")). by eexists _, _.
  - intros w. apply startItems_none. by intros [].
Qed.

Lemma bracketed_tool_line_starts_nothing_witness :
  let line := toolLine (js "Skill") (js " ") (js "commit") in
  let e := {| type := tool_call; timestamp := 4; content := js "commit";
              details := [("tool", VStr (js "Skill")); ("raw", VStr line)] |} in
  parseLine 4 line sampleParser = (Some e, sampleParser)
  /\ forall w, startItems 4 e w = w.
Proof.
  apply (bracketed_tool_line_starts_nothing 4 83 (js "kill") (js " ") (js "commit")
           sampleParser).
  - reflexivity.
  - vm_compute. by repeat constructor.
  - discriminate.
  - by repeat constructor.
  - split_and!.
    + by eexists _, _.
    + vm_compute. by repeat constructor.
    + intros t0 y Heq. apply (f_equal last) in Heq. rewrite last_snoc in Heq.
      vm_compute in Heq. by injection Heq as <-.
Defined.

(** ** The escape-sequence cleaner *)

Section cleaner.
Import Regex.

Lemma digit_matches x : unit_matches d x = isDigit x.
Proof. cbn. by rewrite orb_false_r. Qed.

Lemma ansi_needs_escape_or_bracket n0 x t' :
  negb (x =? 27)%N && negb (x =? 15)%N
  && (negb (x =? 91)%N || match t' with y :: _ => negb (isDigit y) | [] => true end) = true ->
  run ANSI_PATTERN n0 (x :: t') [] accept = None.
Proof.
  intros Hplain. apply andb_true_iff in Hplain as [Hesc Hbr].
  apply andb_true_iff in Hesc as [H27 H15].
  apply negb_true_iff, N.eqb_neq in H27. apply negb_true_iff, N.eqb_neq in H15.
  assert (forall tail v,
            run (RSeq (lit (js "[")) (RSeq (RPlus d) tail)) n0 (x :: t') [] accept = Some v ->
            False) as Hbracket.
  { intros tail v Hrun. rewrite run_seq in Hrun.
    apply run_lit_sound in Hrun as (rest & Heq & Hrun). injection Heq as -> <-.
    rewrite run_seq in Hrun.
    apply run_plus_sound in Hrun as (y & ys & t2 & -> & Hy & _); [|done].
    rewrite digit_matches in Hy. cbn in Hbr. by rewrite Hy in Hbr. }
  unfold ANSI_PATTERN. cbn [run].
  destruct (run (seq _) n0 (x :: t') [] accept) as [v|] eqn:H1.
  { by destruct (Hbracket _ _ H1). }
  destruct (run (seq _) n0 (x :: t') [] accept) as [v|] eqn:H2 in |- *.
  { by destruct (Hbracket _ _ H2). }
  destruct (run (seq _) n0 (x :: t') [] accept) as [v|] eqn:H3 in |- *; [|done].
  unfold seq in H3. cbn [foldr] in H3. rewrite run_seq in H3.
  apply run_unit_sound in H3 as (y & t2 & [= <- <-] & Hy & _); [|done].
  cbn in Hy. rewrite orb_false_r in Hy.
  apply orb_true_iff in Hy as [Hy|Hy]; apply N.eqb_eq in Hy; done.
Qed.

Lemma remove_go_plain n0 t : plainText t = true -> remove_go ANSI_PATTERN n0 0 t = t.
Proof.
  induction t as [|x t IH]; [done|]. cbn [plainText]. intros H.
  apply andb_true_iff in H as [Hhead Htail]. cbn [remove_go].
  rewrite ansi_needs_escape_or_bracket by done. by rewrite IH.
Qed.

Lemma split_no_sep (sep : N) (t : str) :
  Forall (fun x => x <> sep) t -> split sep t = [t].
Proof.
  induction 1 as [|x t Hx Ht IH]; [done|]. cbn [split].
  apply N.eqb_neq in Hx. by rewrite Hx, IH.
Qed.
End cleaner.

(** X23.  The cleaner removes nothing from a chunk that holds no escape
    or shift-in unit and no bracket before a digit: such a chunk is parsed
    as its lines, each trimmed and given to [parseLine] in order, and a
    chunk of one such line gives the event of that line or none. *)
Theorem plain_chunk_is_parsed_line_by_line (now : Z) (output : str) (p : OutputParser) :
  plainText output = true ->
  Regex.removeAll ANSI_PATTERN output = output
  /\ parse now output p = parseLines now (split LF output) p
  /\ (Forall (fun x => x <> LF) output ->
      parse now output p
      = (match fst (parseLine now (trim output) p) with Some e => [e] | None => [] end,
         snd (parseLine now (trim output) p))).
Proof.
  intros Hplain.
  assert (Regex.removeAll ANSI_PATTERN output = output) as Hclean
    by (by apply remove_go_plain).
  split_and!; [done | by unfold parse; rewrite Hclean |].
  intros Hline. unfold parse. rewrite Hclean, split_no_sep by done.
  cbn [parseLines]. by destruct (parseLine now (trim output) p) as [[e|] p1].
Qed.

Lemma plain_chunk_is_parsed_line_by_line_witness :
  parse 6 (js "● /commit(Create a git commit)") sampleParser
  = parseLines 6 (split LF (js "● /commit(Create a git commit)")) sampleParser.
Proof.
  destruct (plain_chunk_is_parsed_line_by_line 6 (js "● /commit(Create a git commit)")
              sampleParser) as (_ & H & _).
  - vm_compute. reflexivity.
  - exact H.
Defined.

(** ** Result lines *)

Section result_shape.
Import Regex.
Implicit Types (r : regex) (t : str) (c : caps)
  (k : str -> caps -> option (str * caps)).

Lemma run_star_eq r n0 t c k :
  run (RStar r) n0 t c k = star (run r n0) k (length t) t c.
Proof. reflexivity. Qed.

Lemma run_unit_eq r n0 x t c k :
  is_unit r -> unit_matches r x = true -> run r n0 (x :: t) c k = k t c.
Proof. intros Hu Hx. destruct r; try done; cbn [run]; by rewrite Hx. Qed.

(** A star that has to give back [ys] before its continuation succeeds. *)
Lemma star_backtracks r n0 k xs ys t c v :
  is_unit r ->
  Forall (fun x => unit_matches r x = true) xs ->
  Forall (fun x => unit_matches r x = true) ys ->
  haltsAt r t ->
  (forall i, (0 < i)%nat -> k (drop i ys ++ t) c = None) ->
  k (ys ++ t) c = Some v ->
  forall fuel, (length (xs ++ ys ++ t) <= fuel)%nat ->
  star (run r n0) k fuel (xs ++ ys ++ t) c = Some v.
Proof.
  intros Hu Hxs Hys Hstop Hlater Hk.
  induction Hxs as [|x xs Hx Hxs IH]; intros fuel Hfuel.
  - cbn [app]. destruct ys as [|y ys].
    + cbn [app] in *. destruct fuel as [|fuel]; cbn [star]; [done|].
      by rewrite run_unit_stops.
    + apply Forall_cons in Hys as [Hy Hys]. cbn [app length] in *.
      destruct fuel as [|fuel]; [lia|]. cbn [star].
      assert (run r n0 (y :: ys ++ t) c
                (fun t' c' => if Nat.ltb (length t') (length (y :: ys ++ t))
                              then star (run r n0) k fuel t' c' else None) = None) as ->.
      { rewrite run_unit_eq by done. cbn [length].
        rewrite (proj2 (Nat.ltb_lt _ _)) by lia.
        apply star_gives_up; try done. intros i. apply (Hlater (S i)). lia. }
      exact Hk.
  - cbn [app length] in *. destruct fuel as [|fuel]; [lia|]. cbn [star].
    erewrite run_unit; [reflexivity | done | done |].
    cbn [length]. rewrite (proj2 (Nat.ltb_lt _ _)) by lia.
    apply IH. lia.
Qed.

(** After the word units of a suffix without underscore comes no keyword
    of word units that holds an underscore. *)
Lemma no_keyword_after_suffix (suffix rest kw rest' : str) :
  Forall (fun x => isWord x = true /\ x <> 95%N) suffix ->
  match rest with [] => True | y :: _ => isWord y = false end ->
  kw <> [] -> Forall (fun x => isWord x = true) kw -> In 95%N kw ->
  suffix ++ rest = kw ++ rest' -> False.
Proof.
  intros Hsuffix Hrest. revert kw.
  induction Hsuffix as [|a suffix [Ha Hunder] Hsuffix IH]; intros kw Hne Hkw Hin Heq.
  - destruct kw as [|b kw]; [done|]. cbn [app] in Heq. subst rest.
    apply Forall_cons in Hkw as [Hb _]. cbn in Hrest. by rewrite Hb in Hrest.
  - destruct kw as [|b kw]; [done|]. cbn [app] in Heq. injection Heq as <- Heq.
    apply Forall_cons in Hkw as [_ Hkw].
    destruct Hin as [Hin|Hin]; [done|].
    destruct kw as [|b' kw]; [done|]. by apply (IH (b' :: kw)).
Qed.

Lemma exec_first r t t' c :
  run r (length t) t [] accept = Some (t', c) ->
  exists m, exec r t = Some m /\ groups m = c.
Proof.
  intros Hrun. unfold exec. destruct t as [|x t]; cbn [exec_from]; rewrite Hrun;
    by eexists.
Qed.

Lemma result_shape_matches (name suffix rest : str) :
  name <> [] -> Forall (fun x => isWord x = true) name ->
  suffix <> [] -> Forall (fun x => isWord x = true /\ x <> 95%N) suffix ->
  match rest with [] => True | y :: _ => isWord y = false end ->
  exists m, exec MCP_RESULT_PATTERN (resultLine name suffix rest) = Some m
            /\ groupOf 1 m = name.
Proof.
  intros Hne Hname Hsne Hsuffix Hrest.
  assert (Forall (fun x => unit_matches w x = true) suffix) as Hsw.
  { eapply Forall_impl; [exact Hsuffix|]. intros z [Hz _]. by rewrite word_matches. }
  assert (haltsAt w rest) as Hhalt.
  { destruct rest as [|y rest]; [done|]. cbn [haltsAt]. by rewrite word_matches. }
  destruct (exec_first MCP_RESULT_PATTERN (resultLine name suffix rest) rest [(1%nat, name)])
    as (m & Hm & Hc).
  2:{ exists m. split; [done|]. unfold groupOf, group. by rewrite Hc. }
  unfold MCP_RESULT_PATTERN. unfold seq at 1. cbn [foldr]. rewrite run_seq, run_bos. cbv beta.
  generalize (length (resultLine name suffix rest)). intros n0.
  unfold resultLine. destruct name as [|x name]; [done|].
  apply Forall_cons in Hname as [Hx Hname].
  rewrite run_seq, run_group. unfold RPlus at 1. rewrite run_seq. cbn [app].
  apply run_unit; [done | by rewrite word_matches |].
  rewrite run_star_eq.
  replace (name ++ js "_result_" ++ suffix ++ rest)
    with (name ++ (js "_result_" ++ suffix) ++ rest) by (by rewrite <- !app_assoc).
  apply star_backtracks; [done | | | done | | | done].
  - eapply Forall_impl; [exact Hname|]. intros z Hz. by rewrite word_matches.
  - apply Forall_app. split; [by vm_compute; repeat constructor | done].
  - intros i Hi. rewrite run_seq.
    destruct (run (lit (js "_result_")) n0 (drop i (js "_result_" ++ suffix) ++ rest) _ _)
      as [v|] eqn:Hrun; [|done].
    apply run_lit_sound in Hrun as (rest' & Heq & _). exfalso.
    change (js "_result_") with [95%N; 114%N; 101%N; 115%N; 117%N; 108%N; 116%N; 95%N] in Heq.
    destruct i as [|[|[|[|[|[|[|[|i]]]]]]]]; [lia|..]; cbn [drop app] in Heq;
      try discriminate Heq.
    + injection Heq as Heq.
      apply (no_keyword_after_suffix suffix rest
               [114%N; 101%N; 115%N; 117%N; 108%N; 116%N; 95%N] rest' Hsuffix Hrest);
        [done | by vm_compute; repeat constructor | by vm_compute; auto 10 | exact Heq].
    + apply (no_keyword_after_suffix (drop i suffix) rest
               [95%N; 114%N; 101%N; 115%N; 117%N; 108%N; 116%N; 95%N] rest');
        [by apply Forall_drop | done | done | by vm_compute; repeat constructor
        | by left | exact Heq].
  - rewrite run_seq, <- !app_assoc, run_lit_app, run_seq.
    destruct suffix as [|z suffix]; [done|]. apply Forall_cons in Hsw as [Hz Hsw].
    cbn [app]. apply run_plus_greedy; [done | done | done | done |].
    rewrite run_empty. unfold accept.
    change (x :: name ++ js "_result_" ++ z :: suffix ++ rest)
      with ((x :: name) ++ js "_result_" ++ z :: suffix ++ rest).
    by rewrite take_consumed.
Qed.

(** No pattern tried before the result pattern matches a line that starts
    with a word unit. *)
Lemma word_line_skips_patterns (x : N) (t : str) :
  isWord x = true ->
  exec SKILL_FORMAT_PATTERN (x :: t) = None
  /\ exec MCP_FORMAT_PATTERN (x :: t) = None
  /\ exec AGENT_FORMAT_PATTERN (x :: t) = None
  /\ exec SKILL_CALL_PATTERN (x :: t) = None
  /\ exec AGENT_CALL_PATTERN (x :: t) = None
  /\ exec TOOL_CALL_PATTERN (x :: t) = None
  /\ exec PLAN_STEP_PATTERN (x :: t) = None.
Proof.
  intros Hx.
  assert (x <> BULLET) as Hbullet by (by intros ->).
  assert (forall kw tail, (exists kw', kw = 91%N :: kw') ->
            exec (RSeq RBos (RSeq (lit kw) tail)) (x :: t) = None) as Hbracket.
  { intros kw tail (kw' & ->). apply anchored_lit_fails. intros rest' Heq.
    cbn [app] in Heq. injection Heq as -> _. done. }
  split_and!; try (by apply anchored_char_fails);
    try (apply Hbracket; by eexists).
  unfold PLAN_STEP_PATTERN. unfold seq at 1. cbn [foldr].
  apply anchored_fails. intros n0 v Hrun.
  rewrite run_seq, run_star_eq in Hrun.
  apply star_sound in Hrun as (ws & t' & Heq & Hws & Hrun); [|done].
  rewrite run_seq in Hrun.
  apply run_unit_sound in Hrun as (g & t2 & -> & Hg & _); [|done].
  destruct ws as [|s0 ws]; cbn [app] in Heq; injection Heq as <- _.
  - cbn in Hg. rewrite orb_false_r in Hg.
    apply orb_true_iff in Hg as [Hg|Hg]; apply N.eqb_eq in Hg; by subst x.
  - apply Forall_cons in Hws as [Hs _]. rewrite space_matches in Hs.
    by rewrite (word_not_space _ Hx) in Hs.
Qed.
End result_shape.

(** X24.  A line that starts with a server name of word characters,
    followed by "_result_" and a suffix of word characters without
    underscore, produces no event and adds the name to the discovered
    servers, when the name has more than three units and is none of
    "error", "output" and "result"; the name is then listed, once, and is
    an MCP server for a registry the discovered names have been
    synchronised into. *)
Theorem result_line_discovers_server
    (now : Z) (name suffix rest : str) (p : OutputParser) :
  Forall (fun x => Regex.isWord x = true) name ->
  plausibleServer name ->
  suffix <> [] -> Forall (fun x => Regex.isWord x = true /\ x <> 95%N) suffix ->
  afterWord rest ->
  let p' := {| itemTypeResolver := itemTypeResolver p;
               discoveredMcps := set_add name (discoveredMcps p) |} in
  parseLine now (resultLine name suffix rest) p = (None, p')
  /\ In name (getDiscoveredMcps p')
  /\ forall r, cachedKind (Some (updateDynamicMcps (getDiscoveredMcps p') r)) name = mcp.
Proof.
  intros Hname [Hlen Hcommon] Hsne Hsuffix [Hrest Hlast] p'.
  assert (name <> []) as Hne by (intros ->; cbn in Hlen; lia).
  assert (In name (getDiscoveredMcps p')) as Hin.
  { unfold p', getDiscoveredMcps, set_add. cbn [discoveredMcps].
    destruct (arr_includes (discoveredMcps p) name) eqn:Hhas.
    - unfold arr_includes in Hhas. apply existsb_exists in Hhas as (n & Hn & Heq).
      apply str_eqb_eq in Heq. by subst n.
    - apply in_or_app. right. by left. }
  split_and!; [| exact Hin | intros r; by apply registered_server_kind].
  destruct (result_shape_matches name suffix rest Hne Hname Hsne Hsuffix Hrest)
    as (m & Hm & Hgroup).
  assert (exists x name0, name = x :: name0) as (x & name0 & Hnm)
    by (destruct name; [done | by eexists _, _]).
  assert (exists t, resultLine name suffix rest = x :: t) as [t Hline]
    by (rewrite Hnm; by eexists).
  assert (trim (resultLine name suffix rest) = resultLine name suffix rest) as Htrim.
  { assert (suffix ++ rest <> []) as Htail by (by destruct suffix).
    destruct (exists_last Htail) as (t0 & y & Ht0).
    assert (isSpace y = false) as Hy.
    { destruct rest as [|r0 rest0] eqn:Hr.
      - rewrite app_nil_r in Ht0. subst suffix.
        apply Forall_app in Hsuffix as [_ Hy]. apply Forall_cons in Hy as [[Hy _] _].
        by apply word_not_space.
      - destruct (exists_last (l := r0 :: rest0)) as (r1 & y' & Hr1); [done|].
        rewrite Hr1, app_assoc in Ht0. apply app_inj_tail in Ht0 as [_ <-].
        by apply (Hlast r1 y'). }
    unfold resultLine. rewrite Hnm, Ht0. cbn [app].
    replace (name0 ++ js "_result_" ++ t0 ++ [y])
      with ((name0 ++ js "_result_" ++ t0) ++ [y]) by (by rewrite <- !app_assoc).
    apply trim_fixed; [|done]. apply word_not_space.
    rewrite Hnm in Hname. by apply Forall_cons in Hname as [? _]. }
  assert (Regex.isWord x = true) as Hx.
  { rewrite Hnm in Hname. by apply Forall_cons in Hname as [? _]. }
  unfold parseLine. rewrite Hline at 1. rewrite Htrim, Hline.
  destruct (word_line_skips_patterns x t Hx) as (-> & -> & -> & -> & -> & -> & ->).
  rewrite <- Hline, Hm, Hgroup.
  apply Nat.ltb_lt in Hlen. unfold commonWords in Hcommon. by rewrite Hlen, Hcommon.
Qed.

Lemma result_line_discovers_server_witness :
  let p' := {| itemTypeResolver := itemTypeResolver sampleParser;
               discoveredMcps := set_add (js "github") (discoveredMcps sampleParser) |} in
  parseLine 2 (resultLine (js "github") (js "summary") (js ": 3 issues")) sampleParser
  = (None, p')
  /\ In (js "github") (getDiscoveredMcps p').
Proof.
  destruct (result_line_discovers_server 2 (js "github") (js "summary") (js ": 3 issues")
              sampleParser) as (H1 & H2 & _).
  - vm_compute. by repeat constructor.
  - split; [vm_compute; lia | vm_compute; reflexivity].
  - discriminate.
  - vm_compute. repeat constructor; discriminate.
  - split; [vm_compute; reflexivity|].
    intros t0 y Heq. apply (f_equal last) in Heq. rewrite last_snoc in Heq.
    vm_compute in Heq. by injection Heq as <-.
  - split; [exact H1 | exact H2].
Defined.
